(** * Pronto compiler front end: AST transformer, code generator, parser gate

    A shallow embedding of [src/compiler/ast.ts], [src/compiler/codegen.ts]
    and of the lookahead gate of [src/compiler/parser.ts], with the token
    definitions of [src/compiler/lexer.ts], the source context of
    [src/compiler/error-handling.ts] and the argument handling of
    [src/index.ts].

    Conventions of the embedding.
    - JavaScript strings are [string]; template literals are written out as
      concatenations with [+:+].
    - A thrown [Error] is the [Throw] constructor of [result]; nothing in the
      generator catches, so a [Throw] travels to the caller unchanged.
    - The generator's instance fields are the record [Generator]; a method
      that writes to a field returns the new record next to its result.
      Expression generation only reads the fields, so it is a function of the
      record.
    - [Map] and [Set] are [gmap] and [gset]: the generator never iterates over
      them, only [has], [get], [set], [add] and [clear] occur.
    - A numeric literal carries an integer ([Z]); [toString] is its decimal
      numeral. *)

From Stdlib Require Import ZArith Lia.
From stdpp Require Import base strings gmap list pretty.

Set Warnings "-register-all".

Open Scope string_scope.

(** ** Text helpers *)

Definition dq : string := String (Ascii.ascii_of_nat 34) EmptyString.
Definition nl : string := String (Ascii.ascii_of_nat 10) EmptyString.
Definition backtick : string := String (Ascii.ascii_of_nat 96) EmptyString.

(** [Array.prototype.join]. *)
Definition join (sep : string) (l : list string) : string :=
  String.concat sep l.

(** [String.prototype.repeat]. *)
Fixpoint repeat_string (s : string) (n : nat) : string :=
  match n with
  | O => EmptyString
  | S n' => s +:+ repeat_string s n'
  end.

(** ** Exceptions *)

Inductive result (A : Type) : Type :=
| Ok (a : A)
| Throw (msg : string).
Arguments Ok {A} a.
Arguments Throw {A} msg.

#[global] Instance result_ret : MRet result := fun A a => Ok a.
#[global] Instance result_bind : MBind result := fun A B f m =>
  match m with
  | Ok a => f a
  | Throw msg => Throw msg
  end.
#[global] Instance result_fmap : FMap result := fun A B f m =>
  match m with
  | Ok a => Ok (f a)
  | Throw msg => Throw msg
  end.

(** [arr.map(f)] where [f] may throw: elements are visited left to right and
    the first exception ends the traversal. *)
Definition mapM {A B : Type} (f : A -> result B) : list A -> result (list B) :=
  fix go (l : list A) : result (list B) :=
    match l with
    | [] => Ok []
    | x :: l' =>
        match f x with
        | Ok y => match go l' with
                  | Ok ys => Ok (y :: ys)
                  | Throw msg => Throw msg
                  end
        | Throw msg => Throw msg
        end
    end.

(** ** AST node types ([ast.ts], lines 33-224) *)

Record Identifier : Type := mkIdentifier { id_name : string }.

Inductive TypeNode : Type :=
| mkType (name : Identifier) (genericType : option TypeNode).

Record TypeObject : Type := mkTypeObject {
  to_properties : list (Identifier * TypeNode)
}.

Record PromptImport : Type := mkPromptImport {
  promptPath : string;
  pi_name : Identifier;
  pi_input : TypeObject;
  pi_returns : TypeObject
}.

Record SymbolImport : Type := mkSymbolImport {
  symbols : list Identifier;
  si_from : string
}.

Inductive ImportType : Type := ImportPrompt | ImportSymbol.

Record ImportStatement : Type := mkImportStatement {
  importType : ImportType;
  promptImport : option PromptImport;
  symbolImport : option SymbolImport
}.

Inductive ComparisonOperator : Type :=
| OpEq | OpNe | OpLt | OpLe | OpGt | OpGe.

Inductive LogicalOperator : Type := OpAnd | OpOr.

Inductive Expression : Type :=
| FunctionCall (callee : Identifier) (arguments : list Expression)
| MethodCall (object : Expression) (method : Identifier)
             (arguments : list Expression)
| ObjectLiteral (properties : list Property)
| ArrayLiteral (elements : list Expression)
| MemberExpression (object : Expression) (property : Identifier)
| Ident (id : Identifier)
| StringLiteral (value : string)
| NumberLiteral (value : Z)
| BooleanLiteral (value : bool)
| ComparisonExpression (operator : ComparisonOperator)
                       (left right : Expression)
| LogicalExpression (operator : LogicalOperator) (left right : Expression)
| UnaryExpression (argument : Expression)
with Property : Type :=
| mkProperty (key : Identifier) (value : option Expression)
             (shorthand : bool).

Definition prop_key (p : Property) : Identifier :=
  match p with mkProperty k _ _ => k end.
Definition prop_value (p : Property) : option Expression :=
  match p with mkProperty _ v _ => v end.
Definition prop_shorthand (p : Property) : bool :=
  match p with mkProperty _ _ s => s end.

Inductive Statement : Type :=
| ReturnStatement (expression : Expression)
| IfStatement (condition : Expression) (body : list Statement)
| ForStatement (variable : Identifier) (iterable : Expression)
               (body : list Statement)
| LoopStatement (body : list Statement)
| Assignment (left : Identifier) (right : Expression)
| DestructuringAssignment (left : list Identifier) (right : Expression)
| ExpressionStatement (expression : Expression).

Record ParameterNode : Type := mkParameter {
  param_name : Identifier;
  paramType : TypeNode
}.

Record FlowDefinition : Type := mkFlowDefinition {
  flow_name : Identifier;
  parameters : list ParameterNode;
  flow_body : list Statement
}.

Inductive TopLevel : Type :=
| TopImport (i : ImportStatement)
| TopFlow (f : FlowDefinition).

Record Program : Type := mkProgram { program_body : list TopLevel }.

(** ** The code generator ([codegen.ts]) *)

(** The mutable fields of a [CodeGenerator] instance (lines 12-31).
    [indentLevel], [indentString], [builtinFunctions] and [runtimePath] are
    never written after construction and are constants below. *)
Record Generator : Type := mkGenerator {
  importedPrompts : gmap string PromptImport;
  importedSymbols : gmap string string;
  definedFlows : gset string;
  hasMainFlow : bool;
  declaredVariables : gset string;
  flowParameters : gmap string (list string)
}.

Definition indentString : string := "  ".

Definition builtinFunctions : gset string :=
  {[ "print"; "stringify"; "parse" ]}.

(** The state of a freshly constructed instance. *)
Definition newGenerator : Generator :=
  mkGenerator ∅ ∅ ∅ false ∅ ∅.

Definition indent (level : nat) : string := repeat_string indentString level.

Definition generateIdentifier (id : Identifier) : string := id_name id.

Definition generateStringLiteral (value : string) : string :=
  dq +:+ value +:+ dq.

Definition generateNumberLiteral (value : Z) : string := pretty value.

Definition generateBooleanLiteral (value : bool) : string :=
  if value then "true" else "false".

Definition comparisonOperatorText (op : ComparisonOperator) : string :=
  match op with
  | OpEq => "==" | OpNe => "!=" | OpLt => "<"
  | OpLe => "<=" | OpGt => ">" | OpGe => ">="
  end.

(** What [generateNode(undefined)] does: reading [.type] of [undefined]. *)
Definition undefinedNode : result string :=
  Throw "TypeError: Cannot read properties of undefined (reading 'type')".

Definition missingParameter (paramName callee : string) : string :=
  "Missing required parameter '" +:+ paramName +:+
  "' in call to flow '" +:+ callee +:+ "'".

Definition hasPrompt (st : Generator) (callee : string) : bool :=
  bool_decide (is_Some (importedPrompts st !! callee)).

Definition hasFlow (st : Generator) (callee : string) : bool :=
  bool_decide (callee ∈ definedFlows st).

Definition isBuiltin (callee : string) : bool :=
  bool_decide (callee ∈ builtinFunctions).

(** The methods below take the recursive [generateNode] as [gen]: in the
    source they call [this.generateNode]. *)
Section Methods.
Variable gen : Expression -> result string.

(** [this.generateNode(prop.value || prop.key)]: the value when there is
    one, else the key identifier. *)
Definition generatePropertyValue (p : Property) : result string :=
  match prop_value p with
  | Some v => gen v
  | None => Ok (generateIdentifier (prop_key p))
  end.

(** [propsMap] of lines 434-438 with the argument of line 446 generated for
    each entry; an entry's result is used only if the entry is looked up, so
    an exception of an entry that is never looked up is not raised. *)
Definition generatedPropsMap (properties : list Property)
  : gmap string (result string) :=
  foldl (fun m p => <[id_name (prop_key p) := generatePropertyValue p]> m)
        ∅ properties.

(** Lines 441-447. *)
Definition extractArgs (callee : string) (properties : list Property)
           (paramNames : list string) : result (list string) :=
  mapM (fun paramName =>
          match generatedPropsMap properties !! paramName with
          | None => Throw (missingParameter paramName callee)
          | Some r => r
          end) paramNames.

(** Lines 419-455, shared verbatim by [generateFunctionCall] and
    [generateAsyncCall] (lines 498-532). *)
Definition generateFlowCall (st : Generator) (callee : string)
           (args : list Expression) : result string :=
  match args with
  | [] => Ok ("await " +:+ callee +:+ "()")
  | [ObjectLiteral properties] =>
      let paramNames := default [] (flowParameters st !! callee) in
      extractedArgs ← extractArgs callee properties paramNames;
      Ok ("await " +:+ callee +:+ "(" +:+ join ", " extractedArgs +:+ ")")
  | _ =>
      args' ← mapM gen args;
      Ok ("await " +:+ callee +:+ "(" +:+ join ", " args' +:+ ")")
  end.

(** Lines 408-417 and 486-495. *)
Definition generatePromptCall (callee : string) (args : list Expression)
  : result string :=
  match args with
  | [] => Ok ("await " +:+ callee +:+ "({})")
  | arg0 :: _ =>
      args' ← gen arg0;
      Ok ("await " +:+ callee +:+ "(" +:+ args' +:+ ")")
  end.

Definition generateFunctionCall (st : Generator) (callee : Identifier)
           (args : list Expression) : result string :=
  let callee := generateIdentifier callee in
  if hasPrompt st callee then generatePromptCall callee args
  else if hasFlow st callee then generateFlowCall st callee args
  else if isBuiltin callee then
    args' ← mapM gen args;
    Ok ("_builtins." +:+ callee +:+ "(" +:+ join ", " args' +:+ ")")
  else
    args' ← mapM gen args;
    Ok (callee +:+ "(" +:+ join ", " args' +:+ ")").

Definition generateAsyncCall (st : Generator) (callee : Identifier)
           (args : list Expression) : result string :=
  let callee := generateIdentifier callee in
  if hasPrompt st callee then generatePromptCall callee args
  else if hasFlow st callee then generateFlowCall st callee args
  else
    args' ← mapM gen args;
    Ok ("await " +:+ callee +:+ "(" +:+ join ", " args' +:+ ")").

Definition generateProperty (p : Property) : result string :=
  if prop_shorthand p then Ok (generateIdentifier (prop_key p))
  else
    v ← match prop_value p with
        | Some v => gen v
        | None => undefinedNode
        end;
    Ok (generateIdentifier (prop_key p) +:+ ": " +:+ v).

Definition generateObjectLiteral (properties : list Property)
  : result string :=
  match properties with
  | [] => Ok "{}"
  | _ =>
      props ← mapM generateProperty properties;
      Ok ("{ " +:+ join ", " props +:+ " }")
  end.

Definition generateArrayLiteral (elements : list Expression)
  : result string :=
  match elements with
  | [] => Ok "[]"
  | _ =>
      elements' ← mapM gen elements;
      Ok ("[" +:+ join ", " elements' +:+ "]")
  end.

Definition generateMethodCall (object : Expression) (method : Identifier)
           (args : list Expression) : result string :=
  object' ← gen object;
  args' ← mapM gen args;
  Ok (object' +:+ "." +:+ generateIdentifier method +:+
      "(" +:+ join ", " args' +:+ ")").

Definition generateMemberExpression (object : Expression)
           (property : Identifier) : result string :=
  object' ← gen object;
  Ok (object' +:+ "." +:+ generateIdentifier property).

Definition generateComparisonExpression (operator : ComparisonOperator)
           (left right : Expression) : result string :=
  left' ← gen left;
  right' ← gen right;
  Ok (left' +:+ " " +:+ comparisonOperatorText operator +:+ " " +:+ right').

Definition generateLogicalExpression (operator : LogicalOperator)
           (left right : Expression) : result string :=
  left' ← gen left;
  right' ← gen right;
  let operator' := match operator with OpAnd => "&&" | OpOr => "||" end in
  Ok (left' +:+ " " +:+ operator' +:+ " " +:+ right').

Definition generateUnaryExpression (argument : Expression)
  : result string :=
  argument' ← gen argument;
  Ok ("!" +:+ argument').
End Methods.

(** [generateNode] on the expression node types (lines 122-145). *)
Fixpoint generateNode (st : Generator) (node : Expression) {struct node}
  : result string :=
  match node with
  | FunctionCall callee args =>
      generateFunctionCall (generateNode st) st callee args
  | MethodCall object method args =>
      generateMethodCall (generateNode st) object method args
  | ObjectLiteral properties =>
      generateObjectLiteral (generateNode st) properties
  | ArrayLiteral elements => generateArrayLiteral (generateNode st) elements
  | MemberExpression object property =>
      generateMemberExpression (generateNode st) object property
  | Ident id => Ok (generateIdentifier id)
  | StringLiteral value => Ok (generateStringLiteral value)
  | NumberLiteral value => Ok (generateNumberLiteral value)
  | BooleanLiteral value => Ok (generateBooleanLiteral value)
  | ComparisonExpression operator lhs rhs =>
      generateComparisonExpression (generateNode st) operator lhs rhs
  | LogicalExpression operator lhs rhs =>
      generateLogicalExpression (generateNode st) operator lhs rhs
  | UnaryExpression argument =>
      generateUnaryExpression (generateNode st) argument
  end.

(** [isAsyncCall] (lines 470-479). *)
Definition isAsyncCall (st : Generator) (expr : Expression) : bool :=
  match expr with
  | FunctionCall callee _ =>
      hasPrompt st (generateIdentifier callee)
      || hasFlow st (generateIdentifier callee)
  | _ => false
  end.

(** The test that opens [generateReturnStatement], [generateAssignment],
    [generateDestructuringAssignment] and [generateExpressionStatement]
    (lines 288-292, 346-350, 373-377, 395-400): an async call goes to
    [generateAsyncCall], anything else to [generateNode]. *)
Definition generateAwaitable (st : Generator) (expr : Expression)
  : result string :=
  if isAsyncCall st expr then
    match expr with
    | FunctionCall callee args =>
        generateAsyncCall (generateNode st) st callee args
    | _ => generateNode st expr
    end
  else generateNode st expr.

(** ** Statements *)

(** A method that may write to the instance: the result and the instance
    afterwards. When it throws, the writes made so far stay. *)
Definition Gen (A : Type) : Type := Generator -> result A * Generator.

Definition set_declaredVariables (s : gset string) (st : Generator)
  : Generator :=
  mkGenerator (importedPrompts st) (importedSymbols st) (definedFlows st)
              (hasMainFlow st) s (flowParameters st).

Definition set_definedFlows (s : gset string) (st : Generator) : Generator :=
  mkGenerator (importedPrompts st) (importedSymbols st) s
              (hasMainFlow st) (declaredVariables st) (flowParameters st).

Definition set_hasMainFlow (b : bool) (st : Generator) : Generator :=
  mkGenerator (importedPrompts st) (importedSymbols st) (definedFlows st)
              b (declaredVariables st) (flowParameters st).

Definition set_importedPrompts (m : gmap string PromptImport)
           (st : Generator) : Generator :=
  mkGenerator m (importedSymbols st) (definedFlows st)
              (hasMainFlow st) (declaredVariables st) (flowParameters st).

Definition set_importedSymbols (m : gmap string string) (st : Generator)
  : Generator :=
  mkGenerator (importedPrompts st) m (definedFlows st)
              (hasMainFlow st) (declaredVariables st) (flowParameters st).

Definition set_flowParameters (m : gmap string (list string))
           (st : Generator) : Generator :=
  mkGenerator (importedPrompts st) (importedSymbols st) (definedFlows st)
              (hasMainFlow st) (declaredVariables st) m.

(** [this.declaredVariables.add(x)]. *)
Definition declare (x : string) (st : Generator) : Generator :=
  set_declaredVariables ({[ x ]} ∪ declaredVariables st) st.

Definition isDeclared (st : Generator) (x : string) : bool :=
  bool_decide (x ∈ declaredVariables st).

(** Lines 284-293. *)
Definition generateReturnStatement (expr : Expression) : Gen string :=
  fun st =>
    (code ← generateAwaitable st expr; Ok ("return " +:+ code), st).

(** Lines 338-363. *)
Definition generateAssignment (leftIdent : Identifier) (rhs : Expression)
  : Gen string :=
  fun st =>
    let lhs := generateIdentifier leftIdent in
    match generateAwaitable st rhs with
    | Throw msg => (Throw msg, st)
    | Ok rightCode =>
        if negb (isDeclared st (id_name leftIdent)) then
          (Ok ("let " +:+ lhs +:+ " = " +:+ rightCode),
           declare (id_name leftIdent) st)
        else (Ok (lhs +:+ " = " +:+ rightCode), st)
    end.

(** Lines 366-387. *)
Definition generateDestructuringAssignment (identifiers : list Identifier)
           (rhs : Expression) : Gen string :=
  fun st =>
    match generateAwaitable st rhs with
    | Throw msg => (Throw msg, st)
    | Ok rightCode =>
        let st' := foldl (fun s id => declare (id_name id) s) st identifiers in
        let lhs := join ", " (map generateIdentifier identifiers) in
        (Ok ("const { " +:+ lhs +:+ " } = " +:+ rightCode), st')
    end.

(** Lines 390-401. *)
Definition generateExpressionStatement (expr : Expression) : Gen string :=
  fun st => (generateAwaitable st expr, st).

Section StatementMethods.
Variable genStmt : Statement -> Gen string.

(** The body loops of lines 239-256, 300-302, 316-318 and 329-331:
    [code += '\n' + this.indent(k) + this.generateNode(stmt) + ';']. *)
Definition generateBody (level : nat)
  : list Statement -> string -> Gen string :=
  fix go (body : list Statement) (code : string) (st : Generator)
    : result string * Generator :=
    match body with
    | [] => (Ok code, st)
    | stmt :: rest =>
        match genStmt stmt st with
        | (Ok stmtCode, st') =>
            go rest (code +:+ nl +:+ indent level +:+ stmtCode +:+ ";") st'
        | (Throw msg, st') => (Throw msg, st')
        end
    end.

Definition closeBlock (r : result string * Generator)
  : result string * Generator :=
  match r with
  | (Ok code, st') => (Ok (code +:+ nl +:+ "}"), st')
  | (Throw msg, st') => (Throw msg, st')
  end.

(** Lines 296-306. *)
Definition generateIfStatement (condition : Expression)
           (body : list Statement) : Gen string :=
  fun st =>
    match generateNode st condition with
    | Throw msg => (Throw msg, st)
    | Ok condition' =>
        closeBlock (generateBody 1 body ("if (" +:+ condition' +:+ ") {") st)
    end.

(** Lines 309-322. *)
Definition generateForStatement (variable : Identifier)
           (iterable : Expression) (body : list Statement) : Gen string :=
  fun st =>
    let variable' := generateIdentifier variable in
    match generateNode st iterable with
    | Throw msg => (Throw msg, st)
    | Ok iterable' =>
        closeBlock
          (generateBody 1 body
             ("for (const " +:+ variable' +:+ " of " +:+ iterable' +:+ ") {")
             st)
    end.

(** Lines 325-335. *)
Definition generateLoopStatement (body : list Statement) : Gen string :=
  fun st => closeBlock (generateBody 1 body "while (true) {" st).
End StatementMethods.

(** [generateNode] on the statement node types (lines 108-121). *)
Fixpoint generateStatement (stmt : Statement) {struct stmt} : Gen string :=
  match stmt with
  | ReturnStatement expr => generateReturnStatement expr
  | IfStatement condition body =>
      generateIfStatement generateStatement condition body
  | ForStatement variable iterable body =>
      generateForStatement generateStatement variable iterable body
  | LoopStatement body => generateLoopStatement generateStatement body
  | Assignment lhs rhs => generateAssignment lhs rhs
  | DestructuringAssignment lhs rhs => generateDestructuringAssignment lhs rhs
  | ExpressionStatement expr => generateExpressionStatement expr
  end.

(** ** Top-level declarations *)

Definition backslash : string := String (Ascii.ascii_of_nat 92) EmptyString.

Definition hexDigit (n : nat) : string :=
  match n with
  | 0 => "0" | 1 => "1" | 2 => "2" | 3 => "3" | 4 => "4" | 5 => "5"
  | 6 => "6" | 7 => "7" | 8 => "8" | 9 => "9" | 10 => "a" | 11 => "b"
  | 12 => "c" | 13 => "d" | 14 => "e" | _ => "f"
  end%nat.

(** [JSON.stringify] of a string: the quote, the backslash and the control
    characters are escaped. *)
Definition jsonEscapeChar (c : Ascii.ascii) : string :=
  let n := Ascii.nat_of_ascii c in
  if (n =? 34)%nat then backslash +:+ dq
  else if (n =? 92)%nat then backslash +:+ backslash
  else if (n =? 8)%nat then backslash +:+ "b"
  else if (n =? 9)%nat then backslash +:+ "t"
  else if (n =? 10)%nat then backslash +:+ "n"
  else if (n =? 12)%nat then backslash +:+ "f"
  else if (n =? 13)%nat then backslash +:+ "r"
  else if (n <? 32)%nat then
    backslash +:+ "u00" +:+ hexDigit (n / 16) +:+ hexDigit (n mod 16)
  else String c EmptyString.

Fixpoint jsonEscape (s : string) : string :=
  match s with
  | EmptyString => EmptyString
  | String c s' => jsonEscapeChar c +:+ jsonEscape s'
  end.

Definition jsonString (s : string) : string := dq +:+ jsonEscape s +:+ dq.

Definition jsonField (k v : string) : string := dq +:+ k +:+ dq +:+ ":" +:+ v.

(** [JSON.stringify] of the schema nodes, keys in the order the transformer
    creates them; a [genericType] that is [undefined] is left out. *)
Definition jsonIdentifier (id : Identifier) : string :=
  "{" +:+ jsonField "type" (jsonString "Identifier") +:+ "," +:+
  jsonField "name" (jsonString (id_name id)) +:+ "}".

Fixpoint jsonType (t : TypeNode) : string :=
  match t with
  | mkType name genericType =>
      "{" +:+ jsonField "type" (jsonString "Type") +:+ "," +:+
      jsonField "name" (jsonIdentifier name) +:+
      match genericType with
      | Some g => "," +:+ jsonField "genericType" (jsonType g)
      | None => EmptyString
      end +:+ "}"
  end.

Definition jsonTypeObject (t : TypeObject) : string :=
  "{" +:+ jsonField "type" (jsonString "TypeObject") +:+ "," +:+
  jsonField "properties"
    ("[" +:+
     join ","
       (map (fun kv : Identifier * TypeNode =>
               "{" +:+ jsonField "key" (jsonIdentifier (fst kv)) +:+ "," +:+
               jsonField "value" (jsonType (snd kv)) +:+ "}")
            (to_properties t)) +:+
     "]") +:+ "}".

(** Lines 175-198. *)
Definition generatePromptImport (p : PromptImport) : Gen string :=
  fun st =>
    let st' :=
      set_importedPrompts (<[id_name (pi_name p) := p]> (importedPrompts st))
                          st in
    let promptName := id_name (pi_name p) in
    let promptPath := promptPath p in
    let inputType := jsonTypeObject (pi_input p) in
    let returnType := jsonTypeObject (pi_returns p) in
    (Ok ("// Prompt import: " +:+ promptName +:+ " from " +:+ promptPath +:+ nl
         +:+ "const " +:+ promptName +:+ " = async function(input) {" +:+ nl
         +:+ "  // Validate input against expected type" +:+ nl
         +:+ "  const validatedInput = _promptRuntime.validateType(input, "
         +:+ inputType +:+ ");" +:+ nl
         +:+ "  " +:+ nl
         +:+ "  // Call the prompt with validated input" +:+ nl
         +:+ "  return await _promptRuntime.callPrompt(" +:+ dq +:+ promptName
         +:+ dq +:+ ", " +:+ dq +:+ promptPath +:+ dq
         +:+ ", validatedInput, " +:+ returnType +:+ ");" +:+ nl
         +:+ "};" +:+ nl
         +:+ "_promptRegistry[" +:+ dq +:+ promptName +:+ dq +:+ "] = {" +:+ nl
         +:+ "  path: " +:+ dq +:+ promptPath +:+ dq +:+ "," +:+ nl
         +:+ "  inputType: " +:+ inputType +:+ "," +:+ nl
         +:+ "  returnType: " +:+ returnType +:+ nl
         +:+ "};"),
     st').

(** Lines 201-210. *)
Definition generateSymbolImport (s : SymbolImport) : Gen string :=
  fun st =>
    let st' :=
      set_importedSymbols
        (foldl (fun m symbol => <[id_name symbol := si_from s]> m)
               (importedSymbols st) (symbols s))
        st in
    let symbols' := join ", " (map id_name (symbols s)) in
    (Ok ("import { " +:+ symbols' +:+ " } from " +:+ dq +:+ si_from s +:+ dq
         +:+ ";"),
     st').

(** Lines 164-172. *)
Definition generateImportStatement (importStmt : ImportStatement)
  : Gen string :=
  fun st =>
    match importType importStmt, promptImport importStmt,
          symbolImport importStmt with
    | ImportPrompt, Some p, _ => generatePromptImport p st
    | ImportSymbol, _, Some s => generateSymbolImport s st
    | _, _, _ => (Ok EmptyString, st)
    end.

(** Lines 213-267. *)
Definition generateFlowDefinition (flow : FlowDefinition) : Gen string :=
  fun st =>
    let st := set_declaredVariables ∅ st in
    let st :=
      foldl (fun s param => declare (id_name (param_name param)) s)
            st (parameters flow) in
    let name := id_name (flow_name flow) in
    let params :=
      join ", " (map (fun p => id_name (param_name p)) (parameters flow)) in
    let st := set_definedFlows ({[ name ]} ∪ definedFlows st) st in
    let st := if String.eqb name "Main" then set_hasMainFlow true st else st in
    let code :=
      "// Flow: " +:+ name +:+ nl +:+
      "async function " +:+ name +:+ "(" +:+ params +:+ ") {" +:+ nl +:+
      indent 1 +:+ "try {" in
    match generateBody generateStatement 2 (flow_body flow) code st with
    | (Throw msg, st') => (Throw msg, st')
    | (Ok code, st') =>
        (Ok (code +:+ nl +:+
             indent 1 +:+ "} catch (error) {" +:+ nl +:+
             indent 2 +:+ "console.error(" +:+ backtick +:+ "Error in flow "
             +:+ name +:+ ": ${error.message}" +:+ backtick +:+ ");" +:+ nl +:+
             indent 2 +:+ "throw error;" +:+ nl +:+
             indent 1 +:+ "}" +:+ nl +:+
             "}"),
         st')
    end.

(** [generateNode] on the two top-level node types (lines 104-107). *)
Definition generateTopLevel (node : TopLevel) : Gen string :=
  match node with
  | TopImport i => generateImportStatement i
  | TopFlow f => generateFlowDefinition f
  end.

(** Lines 152-161: [code += this.generateNode(node) + '\n\n']. *)
Fixpoint generateProgramFrom (body : list TopLevel) (code : string)
  : Gen string :=
  fun st =>
    match body with
    | [] => (Ok code, st)
    | node :: rest =>
        match generateTopLevel node st with
        | (Ok nodeCode, st') =>
            generateProgramFrom rest (code +:+ nodeCode +:+ nl +:+ nl) st'
        | (Throw msg, st') => (Throw msg, st')
        end
    end.

Definition generateProgram (program : Program) : Gen string :=
  generateProgramFrom (program_body program) EmptyString.

(** Lines 86-97. *)
Definition collectDefinedFlows (ast : Program) (st : Generator) : Generator :=
  foldl (fun s node =>
           match node with
           | TopFlow flow =>
               let name := id_name (flow_name flow) in
               let paramNames :=
                 map (fun p => id_name (param_name p)) (parameters flow) in
               set_flowParameters (<[name := paramNames]> (flowParameters s))
                 (set_definedFlows ({[ name ]} ∪ definedFlows s) s)
           | TopImport _ => s
           end)
        st (program_body ast).

(** Lines 45-49: the fields [generate] clears. *)
Definition resetState (st : Generator) : Generator :=
  set_definedFlows ∅
    (set_declaredVariables ∅
       (set_importedSymbols ∅
          (set_importedPrompts ∅
             (set_hasMainFlow false st)))).

(** Lines 67-79. *)
Definition mainEpilogue : string :=
  nl +:+ "// Auto-execute Main flow" +:+ nl +:+
  "(async () => {" +:+ nl +:+
  "  try {" +:+ nl +:+
  "    console.log(" +:+ dq +:+ "Starting Main flow execution..." +:+ dq
  +:+ ");" +:+ nl +:+
  "    await Main();" +:+ nl +:+
  "    console.log(" +:+ dq +:+ "Main flow execution completed successfully."
  +:+ dq +:+ ");" +:+ nl +:+
  "  } catch (error) {" +:+ nl +:+
  "    console.error(" +:+ dq +:+ "Main flow execution failed:" +:+ dq
  +:+ ", error);" +:+ nl +:+
  "    process.exit(1);" +:+ nl +:+
  "  }" +:+ nl +:+
  "})();" +:+ nl.

(** [generate] (lines 43-83). [runtime] is what
    [fs.readFileSync(this.runtimePath, 'utf-8')] gives: the text of
    [runtime.js], or the exception it raises. *)
Definition generate (runtime : result string) (ast : Program) : Gen string :=
  fun st =>
    let st := resetState st in
    let st := collectDefinedFlows ast st in
    match runtime with
    | Throw error =>
        (Throw ("Failed to read runtime.js file: " +:+ error), st)
    | Ok code =>
        match generateProgram ast st with
        | (Throw msg, st') => (Throw msg, st')
        | (Ok nodes, st') =>
            let code := code +:+ nodes in
            (Ok (if hasMainFlow st' then code +:+ mainEpilogue else code), st')
        end
    end.

(** ** The destructuring gate of the parser ([parser.ts], lines 487-516) *)

Module Parser.

(** The token types [parser.ts] imports from the lexer, and Chevrotain's
    end-of-input token, which [LA] returns past the last token. *)
Inductive TokenType : Type :=
| Import | Prompt | As | With | Input | Returns | Flow | Return | If | For
| In | Loop | And | Or | Not | LCurly | RCurly | LParen | RParen
| LBracket | RBracket | Colon | Comma | Equals | Dot | LessThan
| GreaterThan | StringLiteral | Identifier | NumberLiteral | BooleanLiteral
| DoubleEquals | NotEquals | LessThanEquals | GreaterThanEquals | EOF.

#[global] Instance TokenType_eq_dec : EqDecision TokenType.
Proof. solve_decision. Defined.

(** [this.LA(i).tokenType] over the tokens not yet consumed, [i >= 1]. *)
Definition LA (input : list TokenType) (i : nat) : TokenType :=
  nth (i - 1) input EOF.

(** The bound of line 498. *)
Definition lookaheadLimit : nat := 20.

(** One turn of the loop of lines 498-508. *)
Definition scanStep (input : list TokenType) (s : nat * Z) : nat * Z :=
  let '(i, braceCount) := s in
  let tokenType := LA input i in
  let braceCount' :=
    if decide (tokenType = LCurly) then (braceCount + 1)%Z
    else if decide (tokenType = RCurly) then (braceCount - 1)%Z
    else braceCount in
  (S i, braceCount').

Definition scanCondition (s : nat * Z) : bool :=
  let '(i, braceCount) := s in
  bool_decide (0 < braceCount)%Z && bool_decide (i < lookaheadLimit).

(** [while (braceCount > 0 && i < 20) { ... }], unrolled [fuel] times. *)
Fixpoint scanLoop (fuel : nat) (input : list TokenType) (s : nat * Z)
  : nat * Z :=
  match fuel with
  | O => s
  | S fuel' =>
      if scanCondition s then scanLoop fuel' input (scanStep input s)
      else s
  end.

(** [isDestructuringAssignment]. The loop starts at [i = 2] and stops at
    [i = 20] at the latest, so [lookaheadLimit] turns are enough
    ([scanLoop_finished] below). *)
Definition isDestructuringAssignment (input : list TokenType) : bool :=
  if negb (bool_decide (LA input 1 = LCurly)) then false
  else
    let '(i, braceCount) := scanLoop lookaheadLimit input (2, 1%Z) in
    if bool_decide (braceCount = 0%Z)
    then bool_decide (LA input i = Equals)
    else false.

(** Rule [statement] (lines 216-229) offers [assignment] before the gated
    [destructuringAssignment]; [assignment] (lines 267-271) consumes
    [Identifier] and then [Equals]. *)
Definition opensAssignment (input : list TokenType) : bool :=
  bool_decide (LA input 1 = Identifier) && bool_decide (LA input 2 = Equals).

(** *** The rule as the specification words it *)

(** Brace-nesting depth after the first [k] tokens. *)
Definition braceDelta (t : TokenType) : Z :=
  match t with
  | LCurly => 1
  | RCurly => -1
  | _ => 0
  end%Z.

Fixpoint depthAfter (input : list TokenType) (k : nat) : Z :=
  match k with
  | O => 0%Z
  | S k' => (depthAfter input k' + braceDelta (LA input k))%Z
  end.

(** The depth returns to zero at token [k], for the first time. *)
Definition closesAt (input : list TokenType) (k : nat) : Prop :=
  depthAfter input k = 0%Z /\
  forall j, 1 <= j < k -> (0 < depthAfter input j)%Z.

(** The statement opens with a brace, the scan finds the matching brace at
    a lookahead index below the limit, and the very next token is [=]. *)
Definition destructuringShape (input : list TokenType) : Prop :=
  LA input 1 = LCurly /\
  exists k, k < lookaheadLimit /\ closesAt input k /\
            LA input (S k) = Equals.

(** What holds each time the loop test is evaluated: [braceCount] is the
    depth after the tokens before index [i], and the depth was positive all
    the way before that. *)
Definition scanInvariant (input : list TokenType) (s : nat * Z) : Prop :=
  let '(i, c) := s in
  2 <= i <= lookaheadLimit /\
  c = depthAfter input (i - 1) /\
  (0 <= c)%Z /\
  forall j, 1 <= j < i - 1 -> (0 < depthAfter input j)%Z.

(** The tokens of [{ a, b } = f()]. *)
Definition destructuringTokens : list TokenType :=
  [LCurly; Identifier; Comma; Identifier; RCurly; Equals;
   Identifier; LParen; RParen].

(** The tokens of [x = { a: 1 }]. *)
Definition objectAssignmentTokens : list TokenType :=
  [Identifier; Equals; LCurly; Identifier; Colon; NumberLiteral; RCurly].

End Parser.

(** ** The lexer ([lexer.ts])

    [PromptLangLexer] is Chevrotain's [Lexer] over [allTokens]. At each
    offset it tries the token types in the order of the list and takes the
    first whose pattern matches there; no token type declares a
    [longer_alt], so a longer match of a later type is not looked for. A
    token type of group [Lexer.SKIPPED] gives no token. When no pattern
    matches, the lexer records an error, drops characters until one does,
    and goes on. *)

Module Lexer.

Import Parser.

(** A character of the text is a UTF-16 code unit below 256. *)
Definition code (c : Ascii.ascii) : nat := Ascii.nat_of_ascii c.

Definition inRange (lo hi : nat) (c : Ascii.ascii) : bool :=
  (lo <=? code c)%nat && (code c <=? hi)%nat.

Definition isCode (n : nat) (c : Ascii.ascii) : bool := (code c =? n)%nat.

(** [\d], [a-zA-Z_], [a-zA-Z0-9_], [\s] and the line terminators [.] does
    not match. *)
Definition digit (c : Ascii.ascii) : bool := inRange 48 57 c.
Definition identifierStart (c : Ascii.ascii) : bool :=
  inRange 97 122 c || inRange 65 90 c || isCode 95 c.
Definition identifierPart (c : Ascii.ascii) : bool :=
  inRange 97 122 c || inRange 65 90 c || inRange 48 57 c || isCode 95 c.
Definition whiteSpace (c : Ascii.ascii) : bool :=
  inRange 9 13 c || isCode 32 c || isCode 160 c.
Definition lineTerminator (c : Ascii.ascii) : bool :=
  isCode 10 c || isCode 13 c.

(** The text after the first [n] characters. *)
Fixpoint skip (n : nat) (s : string) : string :=
  match n, s with
  | S n', String _ s' => skip n' s'
  | _, _ => s
  end.

(** The number of leading characters in a class: a greedy [c*]. *)
Fixpoint span (class : Ascii.ascii -> bool) (s : string) : nat :=
  match s with
  | String c s' => if class c then S (span class s') else 0
  | EmptyString => 0
  end.

(** A pattern, tried at the start of the text not yet consumed: the length
    of the match, if there is one. *)
Definition Pattern : Type := string -> option nat.

(** A pattern that is a plain word, such as [/import/]. *)
Definition word (w : string) : Pattern :=
  fun text => if String.prefix w text then Some (String.length w) else None.

(** [/\s+/]. *)
Definition whiteSpacePattern : Pattern :=
  fun text =>
    match span whiteSpace text with
    | O => None
    | n => Some n
    end.

(** The pattern of [StringLiteral] after the opening quote: any number of
    either a character other than the quote and the backslash, or a
    backslash and any character but a line terminator; then the closing
    quote. *)
Fixpoint stringTail (s : string) : option nat :=
  match s with
  | EmptyString => None
  | String c s' =>
      if isCode 34 c then Some 1
      else if isCode 92 c then
        match s' with
        | String d s'' =>
            if lineTerminator d then None
            else (fun n => S (S n)) <$> stringTail s''
        | EmptyString => None
        end
      else S <$> stringTail s'
  end.

Definition stringLiteralPattern : Pattern :=
  fun text =>
    match text with
    | String c s' => if isCode 34 c then S <$> stringTail s' else None
    | EmptyString => None
    end.

(** The integer part: [0], or a digit from 1 to 9 and any number of
    digits. *)
Definition integerPart (s : string) : option nat :=
  match s with
  | String c s' =>
      if isCode 48 c then Some 1
      else if inRange 49 57 c then Some (S (span digit s'))
      else None
  | EmptyString => None
  end.

(** The optional fraction: a dot and one or more digits. *)
Definition fractionPart (s : string) : nat :=
  match s with
  | String c s' =>
      if isCode 46 c then
        match span digit s' with
        | O => 0
        | n => S n
        end
      else 0
  | EmptyString => 0
  end.

(** The optional exponent: [e] or [E], an optional sign, one or more
    digits. *)
Definition exponentPart (s : string) : nat :=
  match s with
  | String c s' =>
      if isCode 101 c || isCode 69 c then
        let sign :=
          match s' with
          | String d _ => if isCode 43 d || isCode 45 d then 1 else 0
          | EmptyString => 0
          end in
        match span digit (skip sign s') with
        | O => 0
        | n => S (sign + n)
        end
      else 0
  | EmptyString => 0
  end.

(** The pattern of [NumberLiteral]: an optional minus sign, the integer
    part, the optional fraction, the optional exponent. *)
Definition numberLiteralPattern : Pattern :=
  fun text =>
    let sign :=
      match text with
      | String c _ => if isCode 45 c then 1 else 0
      | EmptyString => 0
      end in
    match integerPart (skip sign text) with
    | None => None
    | Some n =>
        let f := fractionPart (skip (sign + n) text) in
        let e := exponentPart (skip (sign + n + f) text) in
        Some (sign + n + f + e)
    end.

(** [/true|false/]. *)
Definition booleanLiteralPattern : Pattern :=
  fun text =>
    if String.prefix "true" text then Some 4
    else if String.prefix "false" text then Some 5
    else None.

(** [/[a-zA-Z_][a-zA-Z0-9_]*/]. *)
Definition identifierPattern : Pattern :=
  fun text =>
    match text with
    | String c s' =>
        if identifierStart c then Some (S (span identifierPart s')) else None
    | EmptyString => None
    end.

(** [createToken]: the token type and its pattern; [None] is [WhiteSpace],
    whose group is [Lexer.SKIPPED]. *)
Definition TokenDefinition : Type := option TokenType * Pattern.

(** [allTokens], in the order of the source. *)
Definition allTokens : list TokenDefinition :=
  [ (None, whiteSpacePattern);
    (Some Import, word "import");
    (Some Prompt, word "prompt");
    (Some As, word "as");
    (Some With, word "with");
    (Some Input, word "input");
    (Some Returns, word "returns");
    (Some Flow, word "flow");
    (Some Return, word "return");
    (Some If, word "if");
    (Some For, word "for");
    (Some In, word "in");
    (Some Loop, word "loop");
    (Some And, word "and");
    (Some Or, word "or");
    (Some Not, word "not");
    (Some LCurly, word "{");
    (Some RCurly, word "}");
    (Some LParen, word "(");
    (Some RParen, word ")");
    (Some LBracket, word "[");
    (Some RBracket, word "]");
    (Some Colon, word ":");
    (Some Comma, word ",");
    (Some DoubleEquals, word "==");
    (Some Equals, word "=");
    (Some NotEquals, word "!=");
    (Some LessThanEquals, word "<=");
    (Some GreaterThanEquals, word ">=");
    (Some LessThan, word "<");
    (Some GreaterThan, word ">");
    (Some Dot, word ".");
    (Some StringLiteral, stringLiteralPattern);
    (Some NumberLiteral, numberLiteralPattern);
    (Some BooleanLiteral, booleanLiteralPattern);
    (Some Identifier, identifierPattern) ].

(** The first token type of the list whose pattern matches at the start of
    the text. *)
Fixpoint matchFirst (definitions : list TokenDefinition) (text : string)
  : option (option TokenType * nat) :=
  match definitions with
  | [] => None
  | (type, pattern) :: rest =>
      match pattern text with
      | Some n => Some (type, n)
      | None => matchFirst rest text
      end
  end.

(** What the lexer makes of a stretch of the text: a token, skipped white
    space, or a character no pattern matches at, which it drops and reports
    as an error. *)
Inductive Lexeme : Type :=
| Matched (type : option TokenType) (image : string)
| Dropped (c : Ascii.ascii).

(** The loop of [Lexer.tokenize]: while text is left, take the first token
    type that matches and move past its image; when none matches, drop one
    character and try again. Every match is at least one character long
    ([matchFirst_progress]), so [fuel] equal to the length of the text is
    enough. *)
Fixpoint tokenizeFrom (fuel : nat) (text : string) : list Lexeme :=
  match fuel with
  | O => []
  | S fuel' =>
      match text with
      | EmptyString => []
      | String c rest =>
          match matchFirst allTokens text with
          | Some (type, n) =>
              Matched type (String.substring 0 n text)
              :: tokenizeFrom fuel' (skip n text)
          | None => Dropped c :: tokenizeFrom fuel' rest
          end
      end
  end.

Definition lexemes (text : string) : list Lexeme :=
  tokenizeFrom (String.length text) text.

(** [lexResult.tokens]: the tokens that are not skipped. *)
Definition tokens (ls : list Lexeme) : list (TokenType * string) :=
  omap (fun l => match l with
                 | Matched (Some type) image => Some (type, image)
                 | _ => None
                 end) ls.

(** [lexResult.errors.length > 0]. *)
Definition hasErrors (ls : list Lexeme) : bool :=
  existsb (fun l => match l with Dropped _ => true | _ => false end) ls.

Definition lexemeText (l : Lexeme) : string :=
  match l with
  | Matched _ image => image
  | Dropped c => String c EmptyString
  end.

End Lexer.

(** ** The concrete syntax tree

    Chevrotain's [CstParser] gives each rule invocation a node whose
    [children] dictionary maps the name of every token and sub-rule the rule
    body met to the array of its occurrences, in the order they were met; a
    name that was never met has no entry. Here each rule has a constructor
    with one list per name, the empty list standing for the missing entry. *)

Record Token : Type := mkToken { image : string }.

Inductive TypeCst : Type :=
| CstType (IdentifierTok : list Token) (type : list TypeCst).

Record TypeObjectCst : Type := CstTypeObject {
  typeObject_Identifier : list Token;
  typeObject_type : list TypeCst
}.

Inductive ExpressionCst : Type :=
| CstExpression (logicalExpression : list LogicalExpressionCst)
with LogicalExpressionCst : Type :=
| CstLogicalExpression (notExpression : list NotExpressionCst)
                       (AndTok OrTok : list Token)
with NotExpressionCst : Type :=
| CstNotExpression (NotTok : list Token)
                   (comparisonExpression : list ComparisonExpressionCst)
with ComparisonExpressionCst : Type :=
| CstComparisonExpression
    (primaryExpression : list PrimaryExpressionCst)
    (DoubleEqualsTok NotEqualsTok LessThanEqualsTok GreaterThanEqualsTok
       LessThanTok GreaterThanTok : list Token)
    (dotAccess : list DotAccessCst)
with PrimaryExpressionCst : Type :=
| CstPrimaryExpression
    (functionCall : list FunctionCallCst)
    (objectLiteral : list ObjectLiteralCst)
    (arrayLiteral : list ArrayLiteralCst)
    (StringLiteralTok NumberLiteralTok BooleanLiteralTok IdentifierTok
       : list Token)
with FunctionCallCst : Type :=
| CstFunctionCall (IdentifierTok : list Token)
                  (argumentList : list ArgumentListCst)
with ArgumentListCst : Type :=
| CstArgumentList (expression : list ExpressionCst)
with ObjectLiteralCst : Type :=
| CstObjectLiteral (propertyName : list Token)
                   (expression : list ExpressionCst)
                   (shorthandProperty : list Token)
with ArrayLiteralCst : Type :=
| CstArrayLiteral (expression : list ExpressionCst)
with DotAccessCst : Type :=
| CstDotAccess (IdentifierTok LParenTok : list Token)
               (argumentList : list ArgumentListCst)
               (dotAccess : list DotAccessCst).

Record ReturnStatementCst : Type := CstReturnStatement {
  return_expression : list ExpressionCst
}.

Record AssignmentCst : Type := CstAssignment {
  assignment_Identifier : list Token;
  assignment_expression : list ExpressionCst
}.

Record DestructuringAssignmentCst : Type := CstDestructuringAssignment {
  destructuring_Identifier : list Token;
  destructuring_expression : list ExpressionCst
}.

Record ExpressionStatementCst : Type := CstExpressionStatement {
  expressionStatement_expression : list ExpressionCst
}.

Inductive StatementCst : Type :=
| CstStatement (returnStatement : list ReturnStatementCst)
               (ifStatement : list IfStatementCst)
               (forStatement : list ForStatementCst)
               (loopStatement : list LoopStatementCst)
               (assignment : list AssignmentCst)
               (destructuringAssignment : list DestructuringAssignmentCst)
               (expressionStatement : list ExpressionStatementCst)
with IfStatementCst : Type :=
| CstIfStatement (expression : list ExpressionCst)
                 (statement : list StatementCst)
with ForStatementCst : Type :=
| CstForStatement (IdentifierTok : list Token)
                  (expression : list ExpressionCst)
                  (statement : list StatementCst)
with LoopStatementCst : Type :=
| CstLoopStatement (statement : list StatementCst).

Record ParameterListCst : Type := CstParameterList {
  parameterList_Identifier : list Token;
  parameterList_type : list TypeCst
}.

Record FlowDefinitionCst : Type := CstFlowDefinition {
  flowDefinition_Identifier : list Token;
  flowDefinition_parameterList : list ParameterListCst;
  flowDefinition_statement : list StatementCst
}.

Record PromptImportCst : Type := CstPromptImport {
  promptImport_StringLiteral : list Token;
  promptImport_Identifier : list Token;
  promptImport_typeObject : list TypeObjectCst
}.

Record SymbolImportCst : Type := CstSymbolImport {
  symbolImport_Identifier : list Token;
  symbolImport_StringLiteral : list Token
}.

Record ImportStatementCst : Type := CstImportStatement {
  importStatement_promptImport : list PromptImportCst;
  importStatement_symbolImport : list SymbolImportCst
}.

Record ScriptCst : Type := CstScript {
  script_importStatement : list ImportStatementCst;
  script_flowDefinition : list FlowDefinitionCst
}.

(** *** How the parser fills the children of [script] and of
    [logicalExpression] *)

(** Rule [script] (lines 144-155) repeats a choice between [importStatement]
    and [flowDefinition]; a source file is the sequence of its declarations
    in the order they are written. *)
Inductive Declaration : Type :=
| DeclImport (i : ImportStatementCst)
| DeclFlow (f : FlowDefinitionCst).

Definition declImports (decls : list Declaration) : list ImportStatementCst :=
  omap (fun d => match d with DeclImport i => Some i | DeclFlow _ => None end)
       decls.

Definition declFlows (decls : list Declaration) : list FlowDefinitionCst :=
  omap (fun d => match d with DeclFlow f => Some f | DeclImport _ => None end)
       decls.

Definition scriptCst (decls : list Declaration) : ScriptCst :=
  CstScript (declImports decls) (declFlows decls).

(** Rule [logicalExpression] (lines 294-312): a first [notExpression], then
    any number of [And notExpression] or [Or notExpression]. Every operand
    goes to [children.notExpression], every [and] token to [children.And] and
    every [or] token to [children.Or]. *)
Definition operatorImage (op : LogicalOperator) : string :=
  match op with OpAnd => "and" | OpOr => "or" end.

Definition operatorTokens (op : LogicalOperator)
           (chain : list (LogicalOperator * NotExpressionCst)) : list Token :=
  omap (fun step : LogicalOperator * NotExpressionCst =>
          match op, fst step with
          | OpAnd, OpAnd | OpOr, OpOr => Some (mkToken (operatorImage op))
          | _, _ => None
          end) chain.

Definition logicalExpressionCst (first : NotExpressionCst)
           (chain : list (LogicalOperator * NotExpressionCst))
  : LogicalExpressionCst :=
  CstLogicalExpression (first :: map snd chain)
                       (operatorTokens OpAnd chain)
                       (operatorTokens OpOr chain).

(** ** The AST transformer ([ast.ts], lines 227-712) *)

(** Reading a property of [undefined]: a child the tree does not have. *)
Definition typeError : string :=
  "TypeError: Cannot read properties of undefined".

Definition present {A : Type} (l : list A) : bool :=
  match l with
  | [] => false
  | _ :: _ => true
  end.

(** [image.slice(1, -1)]. *)
Definition sliceQuotes (s : string) : string :=
  String.substring 1 (String.length s - 2) s.

(** [image.substring(1, image.length - 1)]; [substring] swaps its bounds when
    the first is the larger, which happens for a one-character image. *)
Definition getImageWithoutQuotes (token : Token) : string :=
  let s := image token in
  if (String.length s =? 1)%nat then s
  else String.substring 1 (String.length s - 2) s.

Definition isDigit (c : Ascii.ascii) : bool :=
  let n := Ascii.nat_of_ascii c in (48 <=? n)%nat && (n <=? 57)%nat.

Fixpoint readDigits (s : string) (acc : Z) : Z :=
  match s with
  | String c s' =>
      if isDigit c
      then readDigits s' (10 * acc + Z.of_nat (Ascii.nat_of_ascii c - 48))%Z
      else acc
  | EmptyString => acc
  end.

(** [Number(image)] for the numerals that have a value in [Z]: an optional
    minus sign and decimal digits. *)
Definition Number (s : string) : Z :=
  match s with
  | String c s' =>
      if (Ascii.nat_of_ascii c =? 45)%nat then (- readDigits s' 0)%Z
      else readDigits s 0
  | EmptyString => 0%Z
  end.

Definition transformIdentifier (token : Token) : Identifier :=
  mkIdentifier (image token).

Definition transformStringLiteral (token : Token) : Expression :=
  StringLiteral (sliceQuotes (image token)).

Definition transformNumberLiteral (token : Token) : Expression :=
  NumberLiteral (Number (image token)).

Definition transformBooleanLiteral (token : Token) : Expression :=
  BooleanLiteral (String.eqb (image token) "true").

(** Lines 625-633. *)
Fixpoint transformType (cst : TypeCst) {struct cst} : result TypeNode :=
  match cst with
  | CstType IdentifierTok type =>
      match IdentifierTok with
      | [] => Throw typeError
      | id :: _ =>
          match type with
          | [] => Ok (mkType (transformIdentifier id) None)
          | t :: _ =>
              genericType ← transformType t;
              Ok (mkType (transformIdentifier id) (Some genericType))
          end
      end
  end.

(** The loops of lines 311-317 and 640-645: [Identifier[i]] paired with
    [type[i]]. *)
Fixpoint transformTypedNames (ids : list Token) (types : list TypeCst)
  : result (list (Identifier * TypeNode)) :=
  match ids with
  | [] => Ok []
  | id :: ids' =>
      match types with
      | [] => Throw typeError
      | t :: types' =>
          value ← transformType t;
          rest ← transformTypedNames ids' types';
          Ok ((transformIdentifier id, value) :: rest)
      end
  end.

(** Lines 635-652. *)
Definition transformTypeObject (cst : TypeObjectCst) : result TypeObject :=
  properties ← transformTypedNames (typeObject_Identifier cst)
                                   (typeObject_type cst);
  Ok (mkTypeObject properties).

(** [children.notExpression[i]] once transformed; an index past the end is
    [transformNotExpression(undefined)]. *)
Definition operandAt (operands : list (result Expression)) (i : nat)
  : result Expression :=
  match operands !! i with
  | Some r => r
  | None => Throw typeError
  end.

(** The body of [transformLogicalExpression] (lines 417-436) over the
    transformed operands: the loop runs [i] from 0 below
    [And.length + Or.length], takes ['and'] while [i < And.length] and
    ['or'] afterwards, and pairs it with operand [i + 1]. An operand's
    exception is raised when the loop reaches it. *)
Definition chainOperators (operands : list (result Expression))
           (nAnd nOr : nat) : result Expression :=
  foldl (fun (acc : result Expression) (i : nat) =>
           expr ← acc;
           let isAnd := bool_decide (i < nAnd) in
           let operator := if isAnd then OpAnd else OpOr in
           rightExpr ← operandAt operands (i + 1);
           Ok (LogicalExpression operator expr rightExpr))
        (operandAt operands 0) (seq 0 (nAnd + nOr)).

(** The loop of lines 571-578 over the transformed values. *)
Definition regularProperties (propertyName : list Token)
           (values : list (result Expression)) : result (list Property) :=
  mapM (fun entry : nat * Token =>
          match values with
          | [] => Throw typeError
          | _ :: _ =>
              match values !! fst entry with
              | Some r =>
                  value ← r;
                  Ok (mkProperty (transformIdentifier (snd entry))
                                 (Some value) false)
              | None =>
                  Ok (mkProperty (transformIdentifier (snd entry)) None false)
              end
          end)
       (zip (seq 0 (length propertyName)) propertyName).

Definition shorthandProperties (shorthandProperty : list Token)
  : list Property :=
  map (fun prop => mkProperty (transformIdentifier prop) None true)
      shorthandProperty.

Fixpoint transformExpression (cst : ExpressionCst) {struct cst}
  : result Expression :=
  match cst with
  | CstExpression logicalExpression =>
      match logicalExpression with
      | l :: _ => transformLogicalExpression l
      | [] => Throw "Unknown expression type"
      end
  end
with transformLogicalExpression (cst : LogicalExpressionCst) {struct cst}
  : result Expression :=
  match cst with
  | CstLogicalExpression notExpression AndTok OrTok =>
      chainOperators (map transformNotExpression notExpression)
                     (length AndTok) (length OrTok)
  end
with transformNotExpression (cst : NotExpressionCst) {struct cst}
  : result Expression :=
  match cst with
  | CstNotExpression NotTok comparisonExpression =>
      match comparisonExpression with
      | [] => Throw typeError
      | c :: _ =>
          if present NotTok then
            argument ← transformComparisonExpression c;
            Ok (UnaryExpression argument)
          else transformComparisonExpression c
      end
  end
with transformComparisonExpression (cst : ComparisonExpressionCst)
                                   {struct cst} : result Expression :=
  match cst with
  | CstComparisonExpression primaryExpression DoubleEqualsTok NotEqualsTok
      LessThanEqualsTok GreaterThanEqualsTok LessThanTok GreaterThanTok
      dotAccess =>
      match primaryExpression with
      | [] => Throw typeError
      | p0 :: rest =>
          expr ← transformPrimaryExpression p0;
          let second :=
            match rest with
            | p1 :: _ => transformPrimaryExpression p1
            | [] => Throw typeError
            end in
          let comparison (operator : ComparisonOperator) :=
            rhs ← second; Ok (ComparisonExpression operator expr rhs) in
          if present DoubleEqualsTok then comparison OpEq
          else if present NotEqualsTok then comparison OpNe
          else if present LessThanEqualsTok then comparison OpLe
          else if present GreaterThanEqualsTok then comparison OpGe
          else if present LessThanTok then comparison OpLt
          else if present GreaterThanTok then comparison OpGt
          else match dotAccess with
               | d :: _ => transformDotAccess expr d
               | [] => Ok expr
               end
      end
  end
with transformPrimaryExpression (cst : PrimaryExpressionCst) {struct cst}
  : result Expression :=
  match cst with
  | CstPrimaryExpression functionCall objectLiteral arrayLiteral
      StringLiteralTok NumberLiteralTok BooleanLiteralTok IdentifierTok =>
      match functionCall, objectLiteral, arrayLiteral, StringLiteralTok,
            NumberLiteralTok, BooleanLiteralTok, IdentifierTok with
      | f :: _, _, _, _, _, _, _ => transformFunctionCall f
      | [], o :: _, _, _, _, _, _ => transformObjectLiteral o
      | [], [], a :: _, _, _, _, _ => transformArrayLiteral a
      | [], [], [], s :: _, _, _, _ => Ok (transformStringLiteral s)
      | [], [], [], [], n :: _, _, _ => Ok (transformNumberLiteral n)
      | [], [], [], [], [], b :: _, _ => Ok (transformBooleanLiteral b)
      | [], [], [], [], [], [], id :: _ => Ok (Ident (transformIdentifier id))
      | [], [], [], [], [], [], [] => Throw "Unknown primary expression type"
      end
  end
with transformFunctionCall (cst : FunctionCallCst) {struct cst}
  : result Expression :=
  match cst with
  | CstFunctionCall IdentifierTok argumentList =>
      match IdentifierTok with
      | [] => Throw typeError
      | id :: _ =>
          args ← match argumentList with
                 | a :: _ => transformArgumentList a
                 | [] => Ok []
                 end;
          Ok (FunctionCall (transformIdentifier id) args)
      end
  end
with transformArgumentList (cst : ArgumentListCst) {struct cst}
  : result (list Expression) :=
  match cst with
  | CstArgumentList expression => mapM transformExpression expression
  end
with transformObjectLiteral (cst : ObjectLiteralCst) {struct cst}
  : result Expression :=
  match cst with
  | CstObjectLiteral propertyName expression shorthandProperty =>
      regular ← regularProperties propertyName
                                  (map transformExpression expression);
      Ok (ObjectLiteral (regular ++ shorthandProperties shorthandProperty))
  end
with transformArrayLiteral (cst : ArrayLiteralCst) {struct cst}
  : result Expression :=
  match cst with
  | CstArrayLiteral expression =>
      elements ← mapM transformExpression expression;
      Ok (ArrayLiteral elements)
  end
with transformDotAccess (object : Expression) (cst : DotAccessCst)
                        {struct cst} : result Expression :=
  match cst with
  | CstDotAccess IdentifierTok LParenTok argumentList dotAccess =>
      match IdentifierTok with
      | [] => Throw typeError
      | id :: _ =>
          let propName := transformIdentifier id in
          if present LParenTok then
            args ← match argumentList with
                   | a :: _ => transformArgumentList a
                   | [] => Ok []
                   end;
            let methodCall := MethodCall object propName args in
            match dotAccess with
            | d :: _ => transformDotAccess methodCall d
            | [] => Ok methodCall
            end
          else
            let memberExpr := MemberExpression object propName in
            match dotAccess with
            | d :: _ => transformDotAccess memberExpr d
            | [] => Ok memberExpr
            end
      end
  end.

(** [this.transformExpression(children.expression[0])]. *)
Definition firstExpression (expression : list ExpressionCst)
  : result Expression :=
  match expression with
  | e :: _ => transformExpression e
  | [] => Throw typeError
  end.

(** Lines 342-348. *)
Definition transformReturnStatement (cst : ReturnStatementCst)
  : result Statement :=
  expression ← firstExpression (return_expression cst);
  Ok (ReturnStatement expression).

(** Lines 377-384. *)
Definition transformAssignment (cst : AssignmentCst) : result Statement :=
  match assignment_Identifier cst with
  | [] => Throw typeError
  | id :: _ =>
      rhs ← firstExpression (assignment_expression cst);
      Ok (Assignment (transformIdentifier id) rhs)
  end.

(** Lines 386-393. *)
Definition transformDestructuringAssignment (cst : DestructuringAssignmentCst)
  : result Statement :=
  match destructuring_Identifier cst with
  | [] => Throw typeError
  | ids =>
      rhs ← firstExpression (destructuring_expression cst);
      Ok (DestructuringAssignment (map transformIdentifier ids) rhs)
  end.

(** Lines 395-401. *)
Definition transformExpressionStatement (cst : ExpressionStatementCst)
  : result Statement :=
  expression ← firstExpression (expressionStatement_expression cst);
  Ok (ExpressionStatement expression).

(** Lines 321-375. *)
Fixpoint transformStatement (cst : StatementCst) {struct cst}
  : result Statement :=
  match cst with
  | CstStatement returnStatement ifStatement forStatement loopStatement
      assignment destructuringAssignment expressionStatement =>
      match returnStatement, ifStatement, forStatement, loopStatement,
            assignment, destructuringAssignment, expressionStatement with
      | r :: _, _, _, _, _, _, _ => transformReturnStatement r
      | [], i :: _, _, _, _, _, _ => transformIfStatement i
      | [], [], f :: _, _, _, _, _ => transformForStatement f
      | [], [], [], l :: _, _, _, _ => transformLoopStatement l
      | [], [], [], [], a :: _, _, _ => transformAssignment a
      | [], [], [], [], [], d :: _, _ => transformDestructuringAssignment d
      | [], [], [], [], [], [], e :: _ => transformExpressionStatement e
      | [], [], [], [], [], [], [] => Throw "Unknown statement type"
      end
  end
with transformIfStatement (cst : IfStatementCst) {struct cst}
  : result Statement :=
  match cst with
  | CstIfStatement expression statement =>
      condition ← firstExpression expression;
      body ← mapM transformStatement statement;
      Ok (IfStatement condition body)
  end
with transformForStatement (cst : ForStatementCst) {struct cst}
  : result Statement :=
  match cst with
  | CstForStatement IdentifierTok expression statement =>
      match IdentifierTok with
      | [] => Throw typeError
      | id :: _ =>
          iterable ← firstExpression expression;
          body ← mapM transformStatement statement;
          Ok (ForStatement (transformIdentifier id) iterable body)
      end
  end
with transformLoopStatement (cst : LoopStatementCst) {struct cst}
  : result Statement :=
  match cst with
  | CstLoopStatement statement =>
      body ← mapM transformStatement statement;
      Ok (LoopStatement body)
  end.

(** Lines 305-319. *)
Definition transformParameterList (cst : ParameterListCst)
  : result (list ParameterNode) :=
  params ← transformTypedNames (parameterList_Identifier cst)
                               (parameterList_type cst);
  Ok (map (fun p : Identifier * TypeNode => mkParameter (fst p) (snd p))
          params).

(** Lines 295-303. *)
Definition transformFlowDefinition (cst : FlowDefinitionCst)
  : result FlowDefinition :=
  match flowDefinition_Identifier cst with
  | [] => Throw typeError
  | id :: _ =>
      params ← match flowDefinition_parameterList cst with
               | p :: _ => transformParameterList p
               | [] => Ok []
               end;
      body ← mapM transformStatement (flowDefinition_statement cst);
      Ok (mkFlowDefinition (transformIdentifier id) params body)
  end.

(** Lines 275-284. *)
Definition transformPromptImport (cst : PromptImportCst)
  : result PromptImport :=
  match promptImport_StringLiteral cst, promptImport_Identifier cst with
  | path :: _, id :: _ =>
      match promptImport_typeObject cst with
      | input :: rest =>
          input' ← transformTypeObject input;
          match rest with
          | returns :: _ =>
              returns' ← transformTypeObject returns;
              Ok (mkPromptImport (getImageWithoutQuotes path)
                                 (transformIdentifier id) input' returns')
          | [] => Throw typeError
          end
      | [] => Throw typeError
      end
  | _, _ => Throw typeError
  end.

(** Lines 286-293; [slice(0, -1)] drops the last identifier. *)
Definition transformSymbolImport (cst : SymbolImportCst)
  : result SymbolImport :=
  match symbolImport_Identifier cst, symbolImport_StringLiteral cst with
  | (_ :: _) as ids, path :: _ =>
      Ok (mkSymbolImport (map transformIdentifier (removelast ids))
                         (getImageWithoutQuotes path))
  | _, _ => Throw typeError
  end.

(** Lines 255-273. *)
Definition transformImportStatement (cst : ImportStatementCst)
  : result ImportStatement :=
  match importStatement_promptImport cst, importStatement_symbolImport cst with
  | p :: _, _ =>
      p' ← transformPromptImport p;
      Ok (mkImportStatement ImportPrompt (Some p') None)
  | [], s :: _ =>
      s' ← transformSymbolImport s;
      Ok (mkImportStatement ImportSymbol None (Some s'))
  | [], [] => Throw "Invalid import statement structure"
  end.

(** [transform] (lines 228-253): every import statement is pushed to [body]
    first, then every flow definition. *)
Definition transform (cst : ScriptCst) : result Program :=
  imports ← mapM transformImportStatement (script_importStatement cst);
  flows ← mapM transformFlowDefinition (script_flowDefinition cst);
  Ok (mkProgram (map TopImport imports ++ map TopFlow flows)).

(** The compiler's last two phases on a parsed file ([index.ts]: the
    transformer, then a new [CodeGenerator]'s [generate]). *)
Definition compileCst (runtime : result string) (cst : ScriptCst)
  : result string :=
  ast ← transform cst;
  fst (generate runtime ast newGenerator).

(** ** Error reports ([error-handling.ts]) *)










(** ** The command line ([index.ts]) *)

(** The [options] object of [parseArgs]; a field that was never assigned, or
    was assigned [undefined], is [None]. [help] is only tested for truth. *)
Record Options : Type := mkOptions {
  command : option string;
  inputFile : option string;
  outputFile : option string;
  help : bool
}.

(** A string or [undefined] used as a condition: [undefined] and the empty
    string are false. *)
Definition truthy (value : option string) : bool :=
  match value with
  | Some s => negb (String.eqb s EmptyString)
  | None => false
  end.

(** The loop of lines 653-669 over the arguments left; [args[++i]] is the
    next argument, or [undefined] after the last one. *)
Fixpoint parseLoop (args : list string) (options : Options) : Options :=
  match args with
  | [] => options
  | arg :: rest =>
      if String.eqb arg "-i" || String.eqb arg "--input" then
        match rest with
        | value :: rest' =>
            parseLoop rest'
              (mkOptions (command options) (Some value) (outputFile options)
                         (help options))
        | [] =>
            mkOptions (command options) None (outputFile options)
                      (help options)
        end
      else if String.eqb arg "-o" || String.eqb arg "--output" then
        match rest with
        | value :: rest' =>
            parseLoop rest'
              (mkOptions (command options) (inputFile options) (Some value)
                         (help options))
        | [] =>
            mkOptions (command options) (inputFile options) None
                      (help options)
        end
      else if String.eqb arg "-h" || String.eqb arg "--help" then
        parseLoop rest
          (mkOptions (command options) (inputFile options)
                     (outputFile options) true)
      else if negb (truthy (inputFile options)) then
        parseLoop rest
          (mkOptions (command options) (Some arg) (outputFile options)
                     (help options))
      else if negb (truthy (outputFile options)) then
        parseLoop rest
          (mkOptions (command options) (inputFile options) (Some arg)
                     (help options))
      else parseLoop rest options
  end.

(** [parseArgs] (lines 638-672) on [process.argv]. *)
Definition parseArgs (argv : list string) : Options :=
  let args := drop 2 argv in
  let options := mkOptions None None None false in
  match args with
  | first :: rest =>
      if negb (String.prefix "-" first) then
        parseLoop rest (mkOptions (Some first) None None false)
      else parseLoop args options
  | [] => parseLoop args options
  end.

(** What [main] (lines 694-759) does with the arguments. *)
Inductive Outcome : Type :=
| ShowHelp
| InputFileRequired
| SourceUnreadable
| Compile (source sourceFilePath outputPath : string)
| RunNotImplemented
| UnknownCommand (command : string).

(** [main]. [getSourceFile] stands for the function of that name, which
    reads the file or throws, and [defaultOutputPath] for
    [path.join('dist', inputBase + '.js')]. *)
Definition main (getSourceFile : string -> result string)
           (defaultOutputPath : string -> string) (argv : list string)
  : Outcome :=
  let options := parseArgs argv in
  let command :=
    match command options with
    | Some c => if String.eqb c EmptyString then "compile" else c
    | None => "compile"
    end in
  if help options then ShowHelp
  else
    match inputFile options with
    | None => InputFileRequired
    | Some inputFile =>
        if String.eqb inputFile EmptyString then InputFileRequired
        else
          match getSourceFile inputFile with
          | Throw _ => SourceUnreadable
          | Ok source =>
              let outputPath :=
                match outputFile options with
                | Some o =>
                    if String.eqb o EmptyString
                    then defaultOutputPath inputFile else o
                | None => defaultOutputPath inputFile
                end in
              if String.eqb command "compile" then
                Compile source inputFile outputPath
              else if String.eqb command "run" then RunNotImplemented
              else UnknownCommand command
          end
    end.

(** * Definitions the properties are stated with *)

(** ** Registries and instances *)

(** Two instances agree on the registries when they classify every callee
    alike and give every declared flow the same parameter list. *)
Definition registryAgree (a b : Generator) : Prop :=
  (forall n, hasPrompt a n = hasPrompt b n) /\
  (forall n, hasFlow a n = hasFlow b n) /\
  (forall n, hasFlow a n = true ->
             flowParameters a !! n = flowParameters b !! n).

(** Only [declaredVariables] differs. *)
Definition declaredOnly (st st' : Generator) : Prop :=
  st' = set_declaredVariables (declaredVariables st') st.

Definition declaredGrows (st st' : Generator) : Prop :=
  declaredVariables st ⊆ declaredVariables st'.

Definition stateAgree (a b : Generator) : Prop :=
  registryAgree a b /\ declaredVariables a = declaredVariables b.

Definition agreesOn (genStmt : Statement -> Gen string) (s : Statement)
  : Prop :=
  forall a b, stateAgree a b ->
              fst (genStmt s a) = fst (genStmt s b) /\
              stateAgree (snd (genStmt s a)) (snd (genStmt s b)).

(** The instance at the point where the body loop of
    [generateFlowDefinition] starts (lines 215-232). *)
Definition flowEntryState (flow : FlowDefinition) (st : Generator)
  : Generator :=
  let st := set_declaredVariables ∅ st in
  let st :=
    foldl (fun s param => declare (id_name (param_name param)) s)
          st (parameters flow) in
  let st :=
    set_definedFlows ({[ id_name (flow_name flow) ]} ∪ definedFlows st) st in
  if String.eqb (id_name (flow_name flow)) "Main"
  then set_hasMainFlow true st else st.

Definition paramNames (flow : FlowDefinition) : list string :=
  map (fun p => id_name (param_name p)) (parameters flow).

(** [this.importedPrompts.set] of line 177, reached from
    [generateImportStatement] for a prompt import. *)
Definition registerPrompt (m : gmap string PromptImport)
           (i : ImportStatement) : gmap string PromptImport :=
  match importType i, promptImport i with
  | ImportPrompt, Some p => <[id_name (pi_name p) := p]> m
  | _, _ => m
  end.

(** The prompt import an import statement registers, if any. *)
Definition importedPrompt (i : ImportStatement) : option PromptImport :=
  match importType i, promptImport i with
  | ImportPrompt, Some p => Some p
  | _, _ => None
  end.

(** The text of an import block; it does not depend on the instance. *)
Definition importBlock (i : ImportStatement) : string :=
  match fst (generateImportStatement i newGenerator) with
  | Ok code => code
  | Throw _ => EmptyString
  end.

Definition isMain (flow : FlowDefinition) : bool :=
  String.eqb (id_name (flow_name flow)) "Main".

Definition flowNames (flows : list FlowDefinition) : list string :=
  map (fun f => id_name (flow_name f)) flows.

(** The names of the prompt imports among the import statements. *)
Definition promptNames (imports : list ImportStatement) : list string :=
  omap (fun i => match importType i, promptImport i with
                 | ImportPrompt, Some p => Some (id_name (pi_name p))
                 | _, _ => None
                 end) imports.

(** One turn of the loop of [collectDefinedFlows] on a flow definition. *)
Definition registerFlow (st : Generator) (flow : FlowDefinition) : Generator :=
  set_flowParameters
    (<[id_name (flow_name flow) := paramNames flow]> (flowParameters st))
    (set_definedFlows ({[ id_name (flow_name flow) ]} ∪ definedFlows st) st).

(** The last flow definition with a given name. *)
Fixpoint lastDeclared (flows : list FlowDefinition) (n : string)
  : option FlowDefinition :=
  match flows with
  | [] => None
  | f :: rest =>
      match lastDeclared rest n with
      | Some g => Some g
      | None => if String.eqb (id_name (flow_name f)) n then Some f else None
      end
  end.

(** The last prompt import registered under a given name. *)
Fixpoint lastImported (imports : list ImportStatement) (n : string)
  : option PromptImport :=
  match imports with
  | [] => None
  | i :: rest =>
      match lastImported rest n with
      | Some p => Some p
      | None =>
          match importedPrompt i with
          | Some p => if String.eqb (id_name (pi_name p)) n then Some p
                      else None
          | None => None
          end
      end
  end.

(** The registries of a program whose body is [imports] then [flows]: every
    flow registered by the registry pass, every prompt import by its import
    block. *)
Definition declaredRegistry (imports : list ImportStatement)
           (flows : list FlowDefinition) : Generator :=
  set_importedPrompts (foldl registerPrompt ∅ imports)
                      (foldl registerFlow newGenerator flows).

(** ** Output text *)

(** The declaration blocks in output order, each followed by a blank
    line. *)
Definition blocksText (blocks : list string) : string :=
  foldr (fun block rest => block +:+ nl +:+ nl +:+ rest) EmptyString blocks.

(** The text [generate] returns: the runtime, the blocks, and the epilogue
    when a flow is named Main. *)
Definition programText (runtime : string) (blocks : list string)
           (main : bool) : string :=
  let code := runtime +:+ blocksText blocks in
  if main then code +:+ mainEpilogue else code.

(** The block of one declaration of the source file, generated under given
    registries. *)
Definition declarationBlock (reg : Generator) (d : Declaration)
  : result string :=
  match d with
  | DeclImport i =>
      ast ← transformImportStatement i;
      fst (generateImportStatement ast reg)
  | DeclFlow f =>
      ast ← transformFlowDefinition f;
      fst (generateFlowDefinition ast reg)
  end.

(** The declarations of a source file, imports moved before flows, each
    group in source order. *)
Definition importsFirst (decls : list Declaration) : list Declaration :=
  map DeclImport (declImports decls) ++ map DeclFlow (declFlows decls).

(** [text] occurs in [out]. *)
Definition contains (out text : string) : Prop :=
  exists pre post, out = pre +:+ text +:+ post.

(** ** Calls *)

(** [propsMap] of lines 434-438: the properties of the object literal by key
    name, a later property replacing an earlier one of the same name. *)
Definition propsMap (properties : list Property) : gmap string Property :=
  foldl (fun m p => <[id_name (prop_key p) := p]> m) ∅ properties.

(** [this.flowParameters.get(callee) || []]. *)
Definition declaredParameters (st : Generator) (callee : Identifier)
  : list string :=
  default [] (flowParameters st !! id_name callee).

Definition hasProperty (properties : list Property) (paramName : string)
  : bool :=
  bool_decide (is_Some (propsMap properties !! paramName)).


(** The properties the parameter names select, in the order of the
    parameters. *)
Definition matchingProperties (properties : list Property)
           (params : list string) : list Property :=
  omap (fun q => propsMap properties !! q) params.

(** Text of an awaited call: ["await NAME(ARGS)"]. *)
Definition awaitCallText (callee : Identifier) (args : list string) : string :=
  "await " +:+ id_name callee +:+ "(" +:+ join ", " args +:+ ")".

(** The generated text of a call is awaited: ["await NAME(" ...]. *)
Definition awaitedCall (callee : Identifier) (out : string) : Prop :=
  exists rest, out = "await " +:+ id_name callee +:+ "(" +:+ rest.

(** The text of a call that is not awaited: the call itself, through the
    builtin namespace for a builtin name. *)
Definition plainCallText (callee : Identifier) (args : list string) : string :=
  (if isBuiltin (id_name callee) then "_builtins." else EmptyString)
  +:+ id_name callee +:+ "(" +:+ join ", " args +:+ ")".

(** ** Statements inside statements *)

(** [Encloses outer inner]: [inner] is [outer] itself or stands in the body
    of an if, for or loop statement of [outer], at any depth. *)
Inductive Encloses : Statement -> Statement -> Prop :=
| Encloses_here s : Encloses s s
| Encloses_if condition body s inner :
    In s body -> Encloses s inner ->
    Encloses (IfStatement condition body) inner
| Encloses_for variable iterable body s inner :
    In s body -> Encloses s inner ->
    Encloses (ForStatement variable iterable body) inner
| Encloses_loop body s inner :
    In s body -> Encloses s inner -> Encloses (LoopStatement body) inner.

(** The expression a statement generates at its own level: the returned
    value, the right side of an assignment or of a destructuring assignment,
    the expression of an expression statement, the condition of an if, the
    iterable of a for. *)
Definition carries (s : Statement) (e : Expression) : Prop :=
  match s with
  | ReturnStatement e' => e' = e
  | IfStatement condition _ => condition = e
  | ForStatement _ iterable _ => iterable = e
  | LoopStatement _ => False
  | Assignment _ e' => e' = e
  | DestructuringAssignment _ e' => e' = e
  | ExpressionStatement e' => e' = e
  end.


(** ** Chains of [and] and [or] *)

Definition applyLogical (op : LogicalOperator) (a b : bool) : bool :=
  match op with
  | OpAnd => a && b
  | OpOr => a || b
  end.

(** Flat left-to-right evaluation of a source chain
    [b0 op1 b1 op2 b2 ...]: each operator is applied, in the order it is
    written, to the value so far and the next operand. *)
Definition evalFlat (first : bool) (chain : list (LogicalOperator * bool))
  : bool :=
  foldl (fun acc step => applyLogical (fst step) acc (snd step)) first chain.

(** The value of a tree of boolean literals, [and] as conjunction, [or] as
    disjunction, [not] as negation. *)
Fixpoint evalBoolean (e : Expression) : option bool :=
  match e with
  | BooleanLiteral b => Some b
  | LogicalExpression op lhs rhs =>
      a ← evalBoolean lhs; b ← evalBoolean rhs; Some (applyLogical op a b)
  | UnaryExpression argument => negb <$> evalBoolean argument
  | _ => None
  end.

(** The left-associated tree with the operators in the order given. *)
Definition leftTree (first : result Expression)
           (chain : list (LogicalOperator * result Expression))
  : result Expression :=
  foldl (fun acc step =>
           expr ← acc;
           rightExpr ← snd step;
           Ok (LogicalExpression (fst step) expr rightExpr))
        first chain.

(** The operators as [transformLogicalExpression] hands them out: one
    ['and'] per [and] token, then one ['or'] per [or] token. *)
Definition andsThenOrs (nAnd nOr : nat) : list LogicalOperator :=
  replicate nAnd OpAnd ++ replicate nOr OpOr.

(** The parse tree of the literal [true] or [false] as an operand of a
    logical chain. *)
Definition booleanOperand (b : bool) : NotExpressionCst :=
  CstNotExpression []
    [CstComparisonExpression
       [CstPrimaryExpression [] [] [] [] []
          [mkToken (if b then "true" else "false")] []]
       [] [] [] [] [] [] []].

(** ** Example programs *)

(** The registries after the registry pass over
    [flow F(x: number, y: string) { }]. *)
Definition flowF : FlowDefinition :=
  mkFlowDefinition (mkIdentifier "F")
    [mkParameter (mkIdentifier "x") (mkType (mkIdentifier "number") None);
     mkParameter (mkIdentifier "y") (mkType (mkIdentifier "string") None)]
    [].

Definition registryF : Generator := declaredRegistry [] [flowF].

(** [{ y: "q", x: 5 }]. *)
Definition propertiesYX : list Property :=
  [mkProperty (mkIdentifier "y") (Some (StringLiteral "q")) false;
   mkProperty (mkIdentifier "x") (Some (NumberLiteral 5)) false].

(** [{ x: 5 }]. *)
Definition propertiesX : list Property :=
  [mkProperty (mkIdentifier "x") (Some (NumberLiteral 5)) false].

(** [import prompt "ideas.njk" as Ideas with input { company: string }
    returns { ideas: list<string> }]. *)
Definition promptIdeas : PromptImport :=
  mkPromptImport "ideas.njk" (mkIdentifier "Ideas")
    (mkTypeObject [(mkIdentifier "company",
                    mkType (mkIdentifier "string") None)])
    (mkTypeObject [(mkIdentifier "ideas",
                    mkType (mkIdentifier "list")
                           (Some (mkType (mkIdentifier "string") None)))]).

Definition importIdeas : ImportStatement :=
  mkImportStatement ImportPrompt (Some promptIdeas) None.

Definition registryIdeasF : Generator := declaredRegistry [importIdeas] [flowF].

(** [for idea in ideas { result = Ideas({ company }) }]. *)
Definition callIdeas : Expression :=
  FunctionCall (mkIdentifier "Ideas")
    [ObjectLiteral [mkProperty (mkIdentifier "company") None true]].

Definition forWithCall : Statement :=
  ForStatement (mkIdentifier "idea") (Ident (mkIdentifier "ideas"))
    [Assignment (mkIdentifier "result") callIdeas].


(** A first call on [flow F(x: number, y: string) { }], then a call on the
    empty program with the same instance. *)
Definition afterFlowF : Generator :=
  snd (generate (Ok EmptyString) (mkProgram [TopFlow flowF]) newGenerator).

(** [true or true and false]. *)
Definition chainOrAnd : list (LogicalOperator * bool) :=
  [(OpOr, true); (OpAnd, false)].

Definition chainOrAndCst : LogicalExpressionCst :=
  logicalExpressionCst (booleanOperand true)
    (map (fun step : LogicalOperator * bool =>
            (fst step, booleanOperand (snd step))) chainOrAnd).

Definition primaryExpr (p : PrimaryExpressionCst) : ExpressionCst :=
  CstExpression
    [CstLogicalExpression
       [CstNotExpression []
          [CstComparisonExpression [p] [] [] [] [] [] [] []]]
       [] []].

Definition callCst (name : string) (args : list ExpressionCst)
  : ExpressionCst :=
  primaryExpr
    (CstPrimaryExpression
       [CstFunctionCall [mkToken name]
          (match args with
           | [] => []
           | _ :: _ => [CstArgumentList args]
           end)]
       [] [] [] [] [] []).

Definition shorthandObjectCst (names : list string) : ExpressionCst :=
  primaryExpr
    (CstPrimaryExpression []
       [CstObjectLiteral [] [] (map mkToken names)] [] [] [] [] []).

Definition numberCst (digits : string) : ExpressionCst :=
  primaryExpr (CstPrimaryExpression [] [] [] [] [mkToken digits] [] []).

Definition assignmentCst (name : string) (e : ExpressionCst) : StatementCst :=
  CstStatement [] [] [] [] [CstAssignment [mkToken name] [e]] [] [].

Definition returnCst (e : ExpressionCst) : StatementCst :=
  CstStatement [CstReturnStatement [e]] [] [] [] [] [] [].

Definition flowCst (name : string) (body : list StatementCst)
  : FlowDefinitionCst :=
  CstFlowDefinition [mkToken name] [] body.

Definition namedTypeCst (name : string) : TypeCst := CstType [mkToken name] [].

(** [import prompt "ideas.njk" as Ideas with input { company: string }
    returns { ideas: list<string> }]. *)
Definition importIdeasCst : ImportStatementCst :=
  CstImportStatement
    [CstPromptImport
       [mkToken (dq +:+ "ideas.njk" +:+ dq)] [mkToken "Ideas"]
       [CstTypeObject [mkToken "company"] [namedTypeCst "string"];
        CstTypeObject [mkToken "ideas"]
          [CstType [mkToken "list"] [namedTypeCst "string"]]]]
    [].

(** The source file
    [flow Main() { r = Later()  i = Ideas({ company }) }
     flow Later() { return 1 }
     import prompt "ideas.njk" as Ideas ...]:
    both callees of [Main] are declared after it. *)
Definition forwardDecls : list Declaration :=
  [DeclFlow (flowCst "Main"
               [assignmentCst "r" (callCst "Later" []);
                assignmentCst "i"
                  (callCst "Ideas" [shorthandObjectCst ["company"]])]);
   DeclFlow (flowCst "Later" [returnCst (numberCst "1")]);
   DeclImport importIdeasCst].

(** The source file [flow A() { }  import { x } from "./y.js"]. *)
Definition flowThenImportDecls : list Declaration :=
  [DeclFlow (flowCst "A" []);
   DeclImport
     (CstImportStatement []
        [CstSymbolImport [mkToken "x"; mkToken "from"]
                         [mkToken (dq +:+ "./y.js" +:+ dq)]])].


(** The text of [flow Main() { r = Later()  i = Ideas({ company }) }] with
    both calls awaited. *)
Definition mainBlockAwaited : string :=
  "// Flow: Main" +:+ nl +:+
  "async function Main() {" +:+ nl +:+
  "  try {" +:+ nl +:+
  "    let r = await Later();" +:+ nl +:+
  "    let i = await Ideas({ company });" +:+ nl +:+
  "  } catch (error) {" +:+ nl +:+
  "    console.error(" +:+ backtick +:+ "Error in flow Main: ${error.message}"
  +:+ backtick +:+ ");" +:+ nl +:+
  "    throw error;" +:+ nl +:+
  "  }" +:+ nl +:+
  "}".

(** ** Parse trees of literals, object literals and imports *)

(** The parse tree of a string literal standing as an expression. *)
Definition stringLiteralCst (image : string) : ExpressionCst :=
  primaryExpr (CstPrimaryExpression [] [] [] [mkToken image] [] [] []).

(** Rule [objectLiteral] (lines 402-426): the entries of the literal in the
    order they are written, each [name: expression] or a lone [name]. The
    names of the first kind go to [children.propertyName] and their
    expressions to [children.expression]; the names of the second kind go to
    [children.shorthandProperty]. *)
Inductive ObjectEntry : Type :=
| RegularEntry (name : string) (value : ExpressionCst)
| ShorthandEntry (name : string).

Definition regularEntries (entries : list ObjectEntry)
  : list (string * ExpressionCst) :=
  omap (fun e => match e with
                 | RegularEntry n v => Some (n, v)
                 | ShorthandEntry _ => None
                 end) entries.

Definition shorthandEntries (entries : list ObjectEntry) : list string :=
  omap (fun e => match e with
                 | ShorthandEntry n => Some n
                 | RegularEntry _ _ => None
                 end) entries.

Definition objectLiteralCst (entries : list ObjectEntry) : ObjectLiteralCst :=
  CstObjectLiteral (map (fun e => mkToken (fst e)) (regularEntries entries))
                   (map snd (regularEntries entries))
                   (map mkToken (shorthandEntries entries)).

(** Rule [symbolImport] (lines 177-188): the braces hold the names, then
    comes one more [Identifier], which the grammar does not require to be
    the word [from], then the path. All the identifiers go to
    [children.Identifier]. *)
Definition symbolImportCst (names : list string) (word path : string)
  : ImportStatementCst :=
  CstImportStatement []
    [CstSymbolImport (map mkToken names ++ [mkToken word])
                     [mkToken (dq +:+ path +:+ dq)]].

(** The parse tree of a chain of boolean literals. *)
Definition booleanChainCst (first : bool)
           (chain : list (LogicalOperator * bool)) : LogicalExpressionCst :=
  logicalExpressionCst (booleanOperand first)
    (map (fun step : LogicalOperator * bool =>
            (fst step, booleanOperand (snd step))) chain).

(** No [and] is written after an [or]. *)
Definition andsBeforeOrs (chain : list (LogicalOperator * bool)) : Prop :=
  exists nAnd nOr, map fst chain = andsThenOrs nAnd nOr.

(** ** The last property of a name *)

(** The last property with a given key. *)
Fixpoint lastProperty (properties : list Property) (q : string)
  : option Property :=
  match properties with
  | [] => None
  | p :: rest =>
      match lastProperty rest q with
      | Some p' => Some p'
      | None => if String.eqb (id_name (prop_key p)) q then Some p else None
      end
  end.

(** ** Programs whose properties have their values *)

(** Every property that is not a shorthand has a value, at any depth. *)
Fixpoint valuesPresent (e : Expression) {struct e} : bool :=
  match e with
  | FunctionCall _ args => forallb valuesPresent args
  | MethodCall object _ args =>
      valuesPresent object && forallb valuesPresent args
  | ObjectLiteral properties =>
      forallb (fun p =>
                 match p with
                 | mkProperty _ (Some v) _ => valuesPresent v
                 | mkProperty _ None shorthand => shorthand
                 end) properties
  | ArrayLiteral elements => forallb valuesPresent elements
  | MemberExpression object _ => valuesPresent object
  | ComparisonExpression _ lhs rhs => valuesPresent lhs && valuesPresent rhs
  | LogicalExpression _ lhs rhs => valuesPresent lhs && valuesPresent rhs
  | UnaryExpression argument => valuesPresent argument
  | Ident _ | StringLiteral _ | NumberLiteral _ | BooleanLiteral _ => true
  end.

Fixpoint statementValuesPresent (s : Statement) {struct s} : bool :=
  match s with
  | ReturnStatement e => valuesPresent e
  | IfStatement condition body =>
      valuesPresent condition && forallb statementValuesPresent body
  | ForStatement _ iterable body =>
      valuesPresent iterable && forallb statementValuesPresent body
  | LoopStatement body => forallb statementValuesPresent body
  | Assignment _ e => valuesPresent e
  | DestructuringAssignment _ e => valuesPresent e
  | ExpressionStatement e => valuesPresent e
  end.

Definition programValuesPresent (p : Program) : bool :=
  forallb (fun node =>
             match node with
             | TopImport _ => true
             | TopFlow f => forallb statementValuesPresent (flow_body f)
             end) (program_body p).





(** ** Assignments, parameter types, access chains *)

(** [s] assigns to [x]: by an assignment or by a destructuring
    assignment. *)
Definition assigns (s : Statement) (x : string) : Prop :=
  match s with
  | Assignment y _ => id_name y = x
  | DestructuringAssignment ids _ => In x (map id_name ids)
  | _ => False
  end.

(** Two top-level nodes that differ at most in the types of the parameters
    of a flow. *)
Definition sameUpToTypes (a b : TopLevel) : Prop :=
  match a, b with
  | TopImport i, TopImport j => i = j
  | TopFlow f, TopFlow g =>
      flow_name f = flow_name g /\ paramNames f = paramNames g /\
      flow_body f = flow_body g
  | _, _ => False
  end.

(** The text of a chain [.name], [.name(args)], ... as it is written, the
    arguments generated under [st]. *)
Fixpoint dotAccessText (st : Generator) (cst : DotAccessCst) {struct cst}
  : result string :=
  match cst with
  | CstDotAccess IdentifierTok LParenTok argumentList dotAccess =>
      match IdentifierTok with
      | [] => Throw typeError
      | id :: _ =>
          segment ←
            (if present LParenTok then
               args ← match argumentList with
                      | a :: _ => transformArgumentList a
                      | [] => Ok []
                      end;
               args' ← mapM (generateNode st) args;
               Ok ("." +:+ image id +:+ "(" +:+ join ", " args' +:+ ")")
             else Ok ("." +:+ image id));
          match dotAccess with
          | d :: _ => rest ← dotAccessText st d; Ok (segment +:+ rest)
          | [] => Ok segment
          end
      end
  end.

(** ** Trees that follow the grammar

    What a parse without errors leaves in [children], rule by rule
    ([parser.ts], lines 144-481): [CONSUME] and [SUBRULE] add one entry under
    the name of the token or rule, [OPTION] adds its content once or not at
    all, [MANY] and the separated lists add it any number of times, [OR] adds
    the content of one alternative. *)

Definition single {A : Type} (l : list A) : bool :=
  match l with
  | [_] => true
  | _ => false
  end.

Definition atMostOne {A : Type} (l : list A) : bool :=
  match l with
  | [] | [_] => true
  | _ => false
  end.

(** Rule [type] (lines 443-450). *)
Fixpoint followsType (cst : TypeCst) {struct cst} : bool :=
  match cst with
  | CstType IdentifierTok type =>
      single IdentifierTok && atMostOne type && forallb followsType type
  end.

(** The separated lists of rules [typeObject] and [parameterList]: as many
    types as names. *)
Definition followsTypedNames (ids : list Token) (types : list TypeCst)
  : bool :=
  (length ids =? length types)%nat && forallb followsType types.

Fixpoint followsExpression (cst : ExpressionCst) {struct cst} : bool :=
  match cst with
  | CstExpression [l] => followsLogicalExpression l
  | CstExpression _ => false
  end
with followsLogicalExpression (cst : LogicalExpressionCst) {struct cst}
  : bool :=
  match cst with
  | CstLogicalExpression notExpression AndTok OrTok =>
      (length notExpression =? S (length AndTok + length OrTok))%nat &&
      forallb followsNotExpression notExpression
  end
with followsNotExpression (cst : NotExpressionCst) {struct cst} : bool :=
  match cst with
  | CstNotExpression NotTok [c] =>
      atMostOne NotTok && followsComparisonExpression c
  | CstNotExpression _ _ => false
  end
with followsComparisonExpression (cst : ComparisonExpressionCst)
                                 {struct cst} : bool :=
  match cst with
  | CstComparisonExpression [p] [] [] [] [] [] [] [] =>
      followsPrimaryExpression p
  | CstComparisonExpression [p] [] [] [] [] [] [] [d] =>
      followsPrimaryExpression p && followsDotAccess d
  | CstComparisonExpression [p; q] [_] [] [] [] [] [] []
  | CstComparisonExpression [p; q] [] [_] [] [] [] [] []
  | CstComparisonExpression [p; q] [] [] [_] [] [] [] []
  | CstComparisonExpression [p; q] [] [] [] [_] [] [] []
  | CstComparisonExpression [p; q] [] [] [] [] [_] [] []
  | CstComparisonExpression [p; q] [] [] [] [] [] [_] [] =>
      followsPrimaryExpression p && followsPrimaryExpression q
  | CstComparisonExpression _ _ _ _ _ _ _ _ => false
  end
with followsPrimaryExpression (cst : PrimaryExpressionCst) {struct cst}
  : bool :=
  match cst with
  | CstPrimaryExpression [f] [] [] [] [] [] [] => followsFunctionCall f
  | CstPrimaryExpression [] [o] [] [] [] [] [] => followsObjectLiteral o
  | CstPrimaryExpression [] [] [a] [] [] [] [] => followsArrayLiteral a
  | CstPrimaryExpression [] [] [] [_] [] [] [] => true
  | CstPrimaryExpression [] [] [] [] [_] [] [] => true
  | CstPrimaryExpression [] [] [] [] [] [_] [] => true
  | CstPrimaryExpression [] [] [] [] [] [] [_] => true
  | CstPrimaryExpression _ _ _ _ _ _ _ => false
  end
with followsFunctionCall (cst : FunctionCallCst) {struct cst} : bool :=
  match cst with
  | CstFunctionCall IdentifierTok argumentList =>
      single IdentifierTok && atMostOne argumentList &&
      forallb followsArgumentList argumentList
  end
with followsArgumentList (cst : ArgumentListCst) {struct cst} : bool :=
  match cst with
  | CstArgumentList expression =>
      present expression && forallb followsExpression expression
  end
with followsObjectLiteral (cst : ObjectLiteralCst) {struct cst} : bool :=
  match cst with
  | CstObjectLiteral propertyName expression shorthandProperty =>
      (length propertyName =? length expression)%nat &&
      forallb followsExpression expression
  end
with followsArrayLiteral (cst : ArrayLiteralCst) {struct cst} : bool :=
  match cst with
  | CstArrayLiteral expression => forallb followsExpression expression
  end
with followsDotAccess (cst : DotAccessCst) {struct cst} : bool :=
  match cst with
  | CstDotAccess IdentifierTok LParenTok argumentList dotAccess =>
      single IdentifierTok && atMostOne LParenTok &&
      atMostOne argumentList &&
      (present LParenTok || negb (present argumentList)) &&
      forallb followsArgumentList argumentList &&
      atMostOne dotAccess && forallb followsDotAccess dotAccess
  end.

Definition followsFirstExpression (expression : list ExpressionCst) : bool :=
  match expression with
  | [e] => followsExpression e
  | _ => false
  end.

Fixpoint followsStatement (cst : StatementCst) {struct cst} : bool :=
  match cst with
  | CstStatement [r] [] [] [] [] [] [] =>
      followsFirstExpression (return_expression r)
  | CstStatement [] [i] [] [] [] [] [] => followsIfStatement i
  | CstStatement [] [] [f] [] [] [] [] => followsForStatement f
  | CstStatement [] [] [] [l] [] [] [] => followsLoopStatement l
  | CstStatement [] [] [] [] [a] [] [] =>
      single (assignment_Identifier a) &&
      followsFirstExpression (assignment_expression a)
  | CstStatement [] [] [] [] [] [d] [] =>
      present (destructuring_Identifier d) &&
      followsFirstExpression (destructuring_expression d)
  | CstStatement [] [] [] [] [] [] [e] =>
      followsFirstExpression (expressionStatement_expression e)
  | CstStatement _ _ _ _ _ _ _ => false
  end
with followsIfStatement (cst : IfStatementCst) {struct cst} : bool :=
  match cst with
  | CstIfStatement expression statement =>
      followsFirstExpression expression && forallb followsStatement statement
  end
with followsForStatement (cst : ForStatementCst) {struct cst} : bool :=
  match cst with
  | CstForStatement IdentifierTok expression statement =>
      single IdentifierTok && followsFirstExpression expression &&
      forallb followsStatement statement
  end
with followsLoopStatement (cst : LoopStatementCst) {struct cst} : bool :=
  match cst with
  | CstLoopStatement statement => forallb followsStatement statement
  end.

Definition followsParameterList (cst : ParameterListCst) : bool :=
  followsTypedNames (parameterList_Identifier cst) (parameterList_type cst).

Definition followsTypeObject (cst : TypeObjectCst) : bool :=
  followsTypedNames (typeObject_Identifier cst) (typeObject_type cst).

Definition followsFlowDefinition (cst : FlowDefinitionCst) : bool :=
  single (flowDefinition_Identifier cst) &&
  atMostOne (flowDefinition_parameterList cst) &&
  forallb followsParameterList (flowDefinition_parameterList cst) &&
  forallb followsStatement (flowDefinition_statement cst).

Definition followsPromptImport (cst : PromptImportCst) : bool :=
  single (promptImport_StringLiteral cst) &&
  single (promptImport_Identifier cst) &&
  match promptImport_typeObject cst with
  | [input; returns] => followsTypeObject input && followsTypeObject returns
  | _ => false
  end.

Definition followsSymbolImport (cst : SymbolImportCst) : bool :=
  (2 <=? length (symbolImport_Identifier cst))%nat &&
  single (symbolImport_StringLiteral cst).

Definition followsImportStatement (cst : ImportStatementCst) : bool :=
  match importStatement_promptImport cst, importStatement_symbolImport cst
  with
  | [p], [] => followsPromptImport p
  | [], [s] => followsSymbolImport s
  | _, _ => false
  end.

Definition followsScript (cst : ScriptCst) : bool :=
  forallb followsImportStatement (script_importStatement cst) &&
  forallb followsFlowDefinition (script_flowDefinition cst).

(** [f] returns on [x], with a result that is [good]. *)
Definition transformsTo {A B : Type} (f : A -> result B) (good : B -> Prop)
           (x : A) : Prop :=
  exists y, f x = Ok y /\ good y.

Definition goodExpression (e : Expression) : Prop := valuesPresent e = true.

Definition goodStatement (s : Statement) : Prop :=
  statementValuesPresent s = true.

(** ** Destructuring patterns *)

(** The tokens of [a1, a2, ..., an]. *)
Fixpoint identifierList (n : nat) : list Parser.TokenType :=
  match n with
  | O => []
  | S O => [Parser.Identifier]
  | S n' => Parser.Identifier :: Parser.Comma :: identifierList n'
  end.

Definition braceFree (tokens : list Parser.TokenType) : Prop :=
  Forall (fun t => t <> Parser.LCurly /\ t <> Parser.RCurly) tokens.

(** ** Lexemes *)

(** The words no identifier can begin with: the keywords and the boolean
    literals, whose token types precede [Identifier] in [allTokens]. *)
Definition reservedWords : list string :=
  ["import"; "prompt"; "as"; "with"; "input"; "returns"; "flow"; "return";
   "if"; "for"; "in"; "loop"; "and"; "or"; "not"; "true"; "false"].

Definition textOf (ls : list Lexer.Lexeme) : string :=
  foldr (fun l rest => Lexer.lexemeText l +:+ rest) EmptyString ls.

(** [p] never matches the empty text. *)
Definition progresses (p : Lexer.Pattern) : Prop :=
  forall text n, p text = Some n -> 1 <= n.

(** ** Command-line arguments *)

(** An argument that is not empty and does not start with a dash. *)
Definition positional (arg : string) : Prop :=
  arg <> EmptyString /\ String.prefix "-" arg = false.

(** [-i], [--input], [-o] or [--output]: the flags that take the next
    argument as their value. *)
Definition takesValue (arg : string) : bool :=
  String.eqb arg "-i" || String.eqb arg "--input" ||
  String.eqb arg "-o" || String.eqb arg "--output".

Definition helpFlag (arg : string) : bool :=
  String.eqb arg "-h" || String.eqb arg "--help".

(** ** More example programs *)

(** The source text of [say] followed by a string literal that holds the
    three characters a, backslash-quote and b. *)
Definition escapedQuoteText : string :=
  "say " +:+ dq +:+ "a\" +:+ dq +:+ "b" +:+ dq.

(** The chain [.trim().length]. *)
Definition trimLengthCst : DotAccessCst :=
  CstDotAccess [mkToken "trim"] [mkToken "("] []
    [CstDotAccess [mkToken "length"] [] [] []].

(** [{ z: F({}), y: "q", x: 5 }]: generating the value of [z] would
    throw. *)
Definition propertiesZYX : list Property :=
  mkProperty (mkIdentifier "z")
             (Some (FunctionCall (mkIdentifier "F") [ObjectLiteral []]))
             false
  :: propertiesYX.

(** [if ok { loop { r = 1 } }] and its text. *)
Definition ifLoopAssign : Statement :=
  IfStatement (Ident (mkIdentifier "ok"))
    [LoopStatement [Assignment (mkIdentifier "r") (NumberLiteral 1)]].

Definition ifLoopAssignText : string :=
  "if (ok) {" +:+ nl +:+
  "  while (true) {" +:+ nl +:+
  "  let r = 1;" +:+ nl +:+
  "};" +:+ nl +:+
  "}".

(** [flow F(x: text, y: text) { }]. *)
Definition flowFText : FlowDefinition :=
  mkFlowDefinition (mkIdentifier "F")
    [mkParameter (mkIdentifier "x") (mkType (mkIdentifier "text") None);
     mkParameter (mkIdentifier "y") (mkType (mkIdentifier "text") None)]
    [].



(** * Properties *)

(** ** Induction over the nested node types *)

Section ExpressionInduction.
Variable P : Expression -> Prop.

Definition PropertyHolds (p : Property) : Prop :=
  match prop_value p with
  | Some v => P v
  | None => True
  end.

Hypothesis H_FunctionCall :
  forall callee args, Forall P args -> P (FunctionCall callee args).
Hypothesis H_MethodCall :
  forall object method args,
    P object -> Forall P args -> P (MethodCall object method args).
Hypothesis H_ObjectLiteral :
  forall properties,
    Forall PropertyHolds properties -> P (ObjectLiteral properties).
Hypothesis H_ArrayLiteral :
  forall elements, Forall P elements -> P (ArrayLiteral elements).
Hypothesis H_MemberExpression :
  forall object property, P object -> P (MemberExpression object property).
Hypothesis H_Ident : forall id, P (Ident id).
Hypothesis H_StringLiteral : forall value, P (StringLiteral value).
Hypothesis H_NumberLiteral : forall value, P (NumberLiteral value).
Hypothesis H_BooleanLiteral : forall value, P (BooleanLiteral value).
Hypothesis H_ComparisonExpression :
  forall operator lhs rhs,
    P lhs -> P rhs -> P (ComparisonExpression operator lhs rhs).
Hypothesis H_LogicalExpression :
  forall operator lhs rhs,
    P lhs -> P rhs -> P (LogicalExpression operator lhs rhs).
Hypothesis H_UnaryExpression :
  forall argument, P argument -> P (UnaryExpression argument).

Fixpoint Expression_nested_ind (e : Expression) {struct e} : P e :=
  let all :=
    fix all (l : list Expression) : Forall P l :=
      match l with
      | [] => List.Forall_nil P
      | x :: l' =>
          List.Forall_cons P x l' (Expression_nested_ind x) (all l')
      end in
  match e with
  | FunctionCall callee args => H_FunctionCall callee args (all args)
  | MethodCall object method args =>
      H_MethodCall object method args (Expression_nested_ind object)
                   (all args)
  | ObjectLiteral properties =>
      H_ObjectLiteral properties
        ((fix allp (l : list Property) : Forall PropertyHolds l :=
            match l with
            | [] => List.Forall_nil PropertyHolds
            | p :: l' =>
                List.Forall_cons PropertyHolds p l'
                  (match p return PropertyHolds p with
                   | mkProperty k (Some v) s => Expression_nested_ind v
                   | mkProperty k None s => I
                   end)
                  (allp l')
            end) properties)
  | ArrayLiteral elements => H_ArrayLiteral elements (all elements)
  | MemberExpression object property =>
      H_MemberExpression object property (Expression_nested_ind object)
  | Ident id => H_Ident id
  | StringLiteral value => H_StringLiteral value
  | NumberLiteral value => H_NumberLiteral value
  | BooleanLiteral value => H_BooleanLiteral value
  | ComparisonExpression operator lhs rhs =>
      H_ComparisonExpression operator lhs rhs (Expression_nested_ind lhs)
                             (Expression_nested_ind rhs)
  | LogicalExpression operator lhs rhs =>
      H_LogicalExpression operator lhs rhs (Expression_nested_ind lhs)
                          (Expression_nested_ind rhs)
  | UnaryExpression argument =>
      H_UnaryExpression argument (Expression_nested_ind argument)
  end.
End ExpressionInduction.

Section StatementInduction.
Variable P : Statement -> Prop.

Hypothesis H_Return : forall e, P (ReturnStatement e).
Hypothesis H_If :
  forall condition body, Forall P body -> P (IfStatement condition body).
Hypothesis H_For :
  forall variable iterable body,
    Forall P body -> P (ForStatement variable iterable body).
Hypothesis H_Loop : forall body, Forall P body -> P (LoopStatement body).
Hypothesis H_Assignment : forall lhs rhs, P (Assignment lhs rhs).
Hypothesis H_Destructuring :
  forall lhs rhs, P (DestructuringAssignment lhs rhs).
Hypothesis H_ExpressionStatement : forall e, P (ExpressionStatement e).

Fixpoint Statement_nested_ind (s : Statement) {struct s} : P s :=
  let all :=
    fix all (l : list Statement) : Forall P l :=
      match l with
      | [] => List.Forall_nil P
      | x :: l' =>
          List.Forall_cons P x l' (Statement_nested_ind x) (all l')
      end in
  match s with
  | ReturnStatement e => H_Return e
  | IfStatement condition body => H_If condition body (all body)
  | ForStatement variable iterable body =>
      H_For variable iterable body (all body)
  | LoopStatement body => H_Loop body (all body)
  | Assignment lhs rhs => H_Assignment lhs rhs
  | DestructuringAssignment lhs rhs => H_Destructuring lhs rhs
  | ExpressionStatement e => H_ExpressionStatement e
  end.
End StatementInduction.

(** ** Supporting lemmas *)

Lemma registryAgree_refl a : registryAgree a a.
Proof. repeat split; auto. Qed.

Lemma registryAgree_sym a b : registryAgree a b -> registryAgree b a.
Proof.
  intros (Hp & Hf & Hq). repeat split; intros.
  - symmetry; apply Hp.
  - symmetry; apply Hf.
  - symmetry; apply Hq. rewrite Hf. assumption.
Qed.

Lemma registryAgree_trans a b c :
  registryAgree a b -> registryAgree b c -> registryAgree a c.
Proof.
  intros (Hp & Hf & Hq) (Hp' & Hf' & Hq'). repeat split; intros.
  - rewrite Hp. apply Hp'.
  - rewrite Hf. apply Hf'.
  - rewrite Hq by assumption. apply Hq'. rewrite <- Hf. assumption.
Qed.

Lemma mapM_ext {A B : Type} (f g : A -> result B) (l : list A) :
  Forall (fun x => f x = g x) l -> mapM f l = mapM g l.
Proof.
  induction 1 as [|x l Hx _ IH]; simpl; [reflexivity|].
  rewrite Hx, IH. reflexivity.
Qed.

Lemma generatedPropsMap_ext (f g : Expression -> result string) properties :
  Forall (PropertyHolds (fun e => f e = g e)) properties ->
  generatedPropsMap f properties = generatedPropsMap g properties.
Proof.
  unfold generatedPropsMap. generalize (∅ : gmap string (result string)).
  intros m H. revert m.
  induction H as [|p l Hp _ IH]; intros m; simpl; [reflexivity|].
  rewrite IH. f_equal. f_equal.
  unfold generatePropertyValue. unfold PropertyHolds in Hp.
  destruct (prop_value p); auto.
Qed.

Lemma generateNode_agree_props a b :
  registryAgree a b ->
  forall e,
    generateNode a e = generateNode b e /\
    match e with
    | ObjectLiteral properties =>
        generatedPropsMap (generateNode a) properties
        = generatedPropsMap (generateNode b) properties
    | _ => True
    end.
Proof.
  intros (Hp & Hf & Hq) e.
  induction e as [callee args IH|object method args IHo IH|properties IH
                 |elements IH|object property IHo| | | |
                 |operator lhs rhs IHl IHr|operator lhs rhs IHl IHr
                 |argument IHa] using Expression_nested_ind;
    simpl; try (split; [reflexivity|exact I]).
  - (* FunctionCall *)
    split; [|exact I].
    assert (Hargs : Forall (fun x => generateNode a x = generateNode b x) args).
    { eapply Forall_impl; [exact IH|]. intros x [Hx _]. exact Hx. }
    unfold generateFunctionCall.
    rewrite <- Hp, <- Hf.
    destruct (hasPrompt a (generateIdentifier callee)) eqn:Ep.
    { unfold generatePromptCall. destruct args as [|a0 rest]; [reflexivity|].
      inversion Hargs as [|? ? H0 _]; subst. rewrite H0. reflexivity. }
    destruct (hasFlow a (generateIdentifier callee)) eqn:Ef.
    { unfold generateFlowCall.
      rewrite <- (Hq _ Ef).
      rewrite (mapM_ext _ _ _ Hargs).
      destruct args as [|a0 rest]; [reflexivity|].
      destruct a0; try reflexivity.
      destruct rest; [|reflexivity].
      unfold extractArgs.
      inversion IH as [|? ? [_ E] _]; subst.
      rewrite E. reflexivity. }
    rewrite (mapM_ext _ _ _ Hargs). reflexivity.
  - split; [|exact I].
    assert (Hargs : Forall (fun x => generateNode a x = generateNode b x) args).
    { eapply Forall_impl; [exact IH|]. intros x [Hx _]. exact Hx. }
    unfold generateMethodCall.
    destruct IHo as [-> _]. rewrite (mapM_ext _ _ _ Hargs). reflexivity.
  - assert (Hprops : Forall (PropertyHolds
                               (fun e => generateNode a e = generateNode b e))
                            properties).
    { eapply Forall_impl; [exact IH|].
      intros p Hpp. unfold PropertyHolds in *.
      destruct (prop_value p); [apply Hpp|exact I]. }
    split; [|apply generatedPropsMap_ext; exact Hprops].
    unfold generateObjectLiteral.
    assert (E : mapM (generateProperty (generateNode a)) properties
                = mapM (generateProperty (generateNode b)) properties).
    { apply mapM_ext. eapply Forall_impl; [exact Hprops|].
      intros p Hpp. unfold generateProperty, PropertyHolds in *.
      destruct (prop_shorthand p); [reflexivity|].
      destruct (prop_value p); [rewrite Hpp|]; reflexivity. }
    rewrite E. reflexivity.
  - split; [|exact I].
    assert (Hels : Forall (fun x => generateNode a x = generateNode b x)
                          elements).
    { eapply Forall_impl; [exact IH|]. intros x [Hx _]. exact Hx. }
    unfold generateArrayLiteral. rewrite (mapM_ext _ _ _ Hels). reflexivity.
  - split; [|exact I].
    unfold generateMemberExpression. destruct IHo as [-> _]. reflexivity.
  - split; [|exact I].
    unfold generateComparisonExpression.
    destruct IHl as [-> _], IHr as [-> _]. reflexivity.
  - split; [|exact I].
    unfold generateLogicalExpression.
    destruct IHl as [-> _], IHr as [-> _]. reflexivity.
  - split; [|exact I].
    unfold generateUnaryExpression. destruct IHa as [-> _]. reflexivity.
Qed.

Lemma generateNode_agree a b :
  registryAgree a b -> forall e, generateNode a e = generateNode b e.
Proof. intros H e. apply (generateNode_agree_props a b H e). Qed.

Lemma isAsyncCall_agree a b e :
  registryAgree a b -> isAsyncCall a e = isAsyncCall b e.
Proof.
  intros (Hp & Hf & _). destruct e; simpl; try reflexivity.
  rewrite Hp, Hf. reflexivity.
Qed.

(** A relation between the instance before and after that holds across
    [declaredVariables.add], is reflexive and is transitive, holds across the
    generation of any statement. *)
Section StatementFrame.
Variable R : Generator -> Generator -> Prop.
Hypothesis R_refl : forall st, R st st.
Hypothesis R_trans : forall a b c, R a b -> R b c -> R a c.
Hypothesis R_declare : forall x st, R st (declare x st).

Lemma generateBody_frame genStmt level body :
  Forall (fun s => forall st, R st (snd (genStmt s st))) body ->
  forall code st, R st (snd (generateBody genStmt level body code st)).
Proof.
  induction 1 as [|s body Hs _ IH]; intros code st; simpl; [apply R_refl|].
  specialize (Hs st).
  destruct (genStmt s st) as [[stmtCode|msg] st']; simpl in *.
  - eapply R_trans; [exact Hs|apply IH].
  - exact Hs.
Qed.

Lemma closeBlock_snd r : snd (closeBlock r) = snd r.
Proof. destruct r as [[code|msg] st]; reflexivity. Qed.

Lemma foldl_declare_frame {A : Type} (f : A -> string) (l : list A) st :
  R st (foldl (fun s x => declare (f x) s) st l).
Proof.
  revert st. induction l as [|x l IH]; intros st; simpl; [apply R_refl|].
  eapply R_trans; [apply R_declare|apply IH].
Qed.

Lemma generateStatement_frame s :
  forall st, R st (snd (generateStatement s st)).
Proof.
  induction s as [e|condition body IH|variable iterable body IH|body IH
                 |lhs rhs|lhs rhs|e] using Statement_nested_ind;
    intros st; simpl.
  - apply R_refl.
  - unfold generateIfStatement.
    destruct (generateNode st condition); simpl; [|apply R_refl].
    rewrite closeBlock_snd. apply generateBody_frame. exact IH.
  - unfold generateForStatement.
    destruct (generateNode st iterable); simpl; [|apply R_refl].
    rewrite closeBlock_snd. apply generateBody_frame. exact IH.
  - unfold generateLoopStatement.
    rewrite closeBlock_snd. apply generateBody_frame. exact IH.
  - unfold generateAssignment.
    destruct (generateAwaitable st rhs); simpl; [|apply R_refl].
    destruct (negb (isDeclared st (id_name lhs))); simpl;
      [apply R_declare|apply R_refl].
  - unfold generateDestructuringAssignment.
    destruct (generateAwaitable st rhs); simpl; [|apply R_refl].
    apply foldl_declare_frame.
  - apply R_refl.
Qed.

Lemma generateStatements_frame level body code st :
  R st (snd (generateBody generateStatement level body code st)).
Proof.
  apply generateBody_frame. apply Forall_forall.
  intros s _. apply generateStatement_frame.
Qed.
End StatementFrame.

Lemma declaredOnly_refl st : declaredOnly st st.
Proof. destruct st; reflexivity. Qed.

Lemma declaredOnly_trans a b c :
  declaredOnly a b -> declaredOnly b c -> declaredOnly a c.
Proof.
  unfold declaredOnly. intros Hab Hbc. rewrite Hbc at 1. rewrite Hab at 1.
  destruct a; reflexivity.
Qed.

Lemma declaredOnly_declare x st : declaredOnly st (declare x st).
Proof. destruct st; reflexivity. Qed.

Lemma declaredOnly_registryAgree st st' :
  declaredOnly st st' -> registryAgree st st'.
Proof.
  intros H. rewrite H. unfold registryAgree, hasPrompt, hasFlow. simpl. auto.
Qed.

Lemma generateStatement_declaredOnly s st :
  declaredOnly st (snd (generateStatement s st)).
Proof.
  apply generateStatement_frame.
  - apply declaredOnly_refl.
  - apply declaredOnly_trans.
  - apply declaredOnly_declare.
Qed.


Lemma generateStatements_declaredGrows level body code st :
  declaredGrows st (snd (generateBody generateStatement level body code st)).
Proof.
  apply generateStatements_frame; unfold declaredGrows.
  - set_solver.
  - set_solver.
  - intros x st0. destruct st0; simpl. set_solver.
Qed.

Lemma generateAwaitable_generateNode st e :
  generateAwaitable st e = generateNode st e.
Proof.
  unfold generateAwaitable.
  destruct (isAsyncCall st e) eqn:E; [|reflexivity].
  destruct e; try reflexivity.
  simpl in *. unfold generateAsyncCall, generateFunctionCall.
  destruct (hasPrompt st (generateIdentifier callee)); [reflexivity|].
  destruct (hasFlow st (generateIdentifier callee)); [reflexivity|].
  discriminate E.
Qed.

Lemma generateAwaitable_agree a b e :
  registryAgree a b -> generateAwaitable a e = generateAwaitable b e.
Proof.
  intros H. rewrite !generateAwaitable_generateNode.
  apply generateNode_agree. exact H.
Qed.

Lemma stateAgree_declare x a b :
  stateAgree a b -> stateAgree (declare x a) (declare x b).
Proof.
  unfold stateAgree, registryAgree, hasPrompt, hasFlow, declare. simpl.
  intros [(Hp & Hf & Hq) ->]. auto.
Qed.

Lemma stateAgree_foldl_declare {A : Type} (f : A -> string) (l : list A) a b :
  stateAgree a b ->
  stateAgree (foldl (fun s x => declare (f x) s) a l)
             (foldl (fun s x => declare (f x) s) b l).
Proof.
  revert a b. induction l as [|x l IH]; intros a b H; simpl; [exact H|].
  apply IH. apply stateAgree_declare. exact H.
Qed.

Lemma generateBody_agree genStmt level body :
  Forall (agreesOn genStmt) body ->
  forall code a b,
    stateAgree a b ->
    fst (generateBody genStmt level body code a)
    = fst (generateBody genStmt level body code b) /\
    stateAgree (snd (generateBody genStmt level body code a))
               (snd (generateBody genStmt level body code b)).
Proof.
  induction 1 as [|s body Hs _ IH]; intros code a b Hab; simpl.
  - split; [reflexivity|exact Hab].
  - destruct (Hs a b Hab) as [E1 E2].
    destruct (genStmt s a) as [ra a'], (genStmt s b) as [rb b'].
    simpl in *. subst rb.
    destruct ra as [stmtCode|msg]; simpl.
    + apply IH. exact E2.
    + split; [reflexivity|exact E2].
Qed.

Lemma closeBlock_agree r1 r2 :
  fst r1 = fst r2 -> stateAgree (snd r1) (snd r2) ->
  fst (closeBlock r1) = fst (closeBlock r2) /\
  stateAgree (snd (closeBlock r1)) (snd (closeBlock r2)).
Proof.
  destruct r1 as [[c1|m1] s1], r2 as [[c2|m2] s2]; simpl;
    intros E H; inversion E; subst; auto.
Qed.

Lemma generateStatement_agree s : agreesOn generateStatement s.
Proof.
  induction s as [e|condition body IH|variable iterable body IH|body IH
                 |lhs rhs|lhs rhs|e] using Statement_nested_ind;
    intros a b Hab; pose proof Hab as [Hreg Hdecl]; simpl.
  - rewrite (generateAwaitable_agree a b e Hreg). auto.
  - unfold generateIfStatement.
    rewrite (generateNode_agree a b Hreg condition).
    destruct (generateNode b condition); simpl; [|auto].
    apply closeBlock_agree; apply generateBody_agree; assumption.
  - unfold generateForStatement.
    rewrite (generateNode_agree a b Hreg iterable).
    destruct (generateNode b iterable); simpl; [|auto].
    apply closeBlock_agree; apply generateBody_agree; assumption.
  - unfold generateLoopStatement.
    apply closeBlock_agree; apply generateBody_agree; assumption.
  - unfold generateAssignment.
    rewrite (generateAwaitable_agree a b rhs Hreg).
    destruct (generateAwaitable b rhs); simpl; [|auto].
    unfold isDeclared. rewrite Hdecl.
    destruct (negb (bool_decide (id_name lhs ∈ declaredVariables b))); simpl.
    + split; [reflexivity|]. apply stateAgree_declare. exact Hab.
    + auto.
  - unfold generateDestructuringAssignment.
    rewrite (generateAwaitable_agree a b rhs Hreg).
    destruct (generateAwaitable b rhs); simpl; [|auto].
    split; [reflexivity|]. apply stateAgree_foldl_declare. exact Hab.
  - unfold generateExpressionStatement. simpl.
    rewrite (generateAwaitable_agree a b e Hreg). auto.
Qed.

Lemma generateStatements_agree level body code a b :
  stateAgree a b ->
  fst (generateBody generateStatement level body code a)
  = fst (generateBody generateStatement level body code b).
Proof.
  intros H. apply generateBody_agree; [|exact H].
  apply Forall_forall. intros s _. apply generateStatement_agree.
Qed.

Lemma foldl_declare_fields {A : Type} (f : A -> string) (l : list A) st :
  foldl (fun s x => declare (f x) s) st l
  = set_declaredVariables
      (list_to_set (reverse (map f l)) ∪ declaredVariables st) st.
Proof.
  revert st. induction l as [|x l IH]; intros st; simpl.
  - destruct st; unfold set_declaredVariables; simpl. f_equal. set_solver.
  - rewrite IH. rewrite reverse_cons.
    destruct st; unfold set_declaredVariables, declare; simpl. f_equal.
    rewrite list_to_set_app_L. simpl. set_solver.
Qed.

Lemma flowEntryState_declared flow st :
  declaredVariables (flowEntryState flow st) = list_to_set (paramNames flow).
Proof.
  unfold flowEntryState, paramNames. rewrite foldl_declare_fields. simpl.
  destruct (String.eqb _ _); simpl; apply set_eq; intros x;
    rewrite elem_of_union, !elem_of_list_to_set, elem_of_reverse;
    set_solver.
Qed.

Lemma flowEntryState_registry flow st :
  hasFlow st (id_name (flow_name flow)) = true ->
  registryAgree st (flowEntryState flow st).
Proof.
  intros H. unfold flowEntryState. rewrite foldl_declare_fields.
  unfold registryAgree, hasPrompt, hasFlow in *.
  apply bool_decide_eq_true in H.
  destruct (String.eqb _ _); simpl; repeat split; auto; intros n;
    apply bool_decide_ext; set_solver.
Qed.

Lemma flowEntryState_agree flow a b :
  hasFlow a (id_name (flow_name flow)) = true ->
  registryAgree a b ->
  stateAgree (flowEntryState flow a) (flowEntryState flow b).
Proof.
  intros Hin Hab. split.
  - eapply registryAgree_trans;
      [apply registryAgree_sym, flowEntryState_registry; exact Hin|].
    eapply registryAgree_trans; [exact Hab|].
    apply flowEntryState_registry.
    destruct Hab as (_ & Hf & _). rewrite <- Hf. exact Hin.
  - rewrite !flowEntryState_declared. reflexivity.
Qed.

Lemma generateFlowDefinition_agree flow a b :
  hasFlow a (id_name (flow_name flow)) = true ->
  registryAgree a b ->
  fst (generateFlowDefinition flow a) = fst (generateFlowDefinition flow b).
Proof.
  intros Hin Hab.
  pose proof (flowEntryState_agree flow a b Hin Hab) as Hentry.
  unfold generateFlowDefinition. fold (flowEntryState flow a).
  fold (flowEntryState flow b).
  match goal with
  | |- fst (match generateBody _ _ _ ?c _ with _ => _ end) = _ =>
      pose proof (generateStatements_agree 2 (flow_body flow) c _ _ Hentry)
        as E
  end.
  destruct (generateBody generateStatement 2 (flow_body flow) _
                         (flowEntryState flow a)) as [ra a'].
  destruct (generateBody generateStatement 2 (flow_body flow) _
                         (flowEntryState flow b)) as [rb b'].
  simpl in E. subst rb. destruct ra; reflexivity.
Qed.

Lemma append_String c a b : String c a +:+ b = String c (a +:+ b).
Proof. reflexivity. Qed.

Lemma append_assoc (a b c : string) : (a +:+ b) +:+ c = a +:+ b +:+ c.
Proof.
  induction a as [|x a IH]; [reflexivity|].
  rewrite !append_String, IH. reflexivity.
Qed.

Lemma append_nil_r (a : string) : a +:+ EmptyString = a.
Proof.
  induction a as [|x a IH]; [reflexivity|].
  rewrite append_String, IH. reflexivity.
Qed.

Lemma blocksText_app l k :
  blocksText (l ++ k) = blocksText l +:+ blocksText k.
Proof.
  induction l as [|b l IH]; simpl; [reflexivity|].
  rewrite IH, !append_assoc. reflexivity.
Qed.

Lemma generateImportStatement_text i st :
  fst (generateImportStatement i st) = Ok (importBlock i).
Proof.
  unfold importBlock, generateImportStatement.
  destruct (importType i), (promptImport i), (symbolImport i); reflexivity.
Qed.

Lemma generateImportStatement_state i st :
  let st' := snd (generateImportStatement i st) in
  importedPrompts st' = registerPrompt (importedPrompts st) i /\
  definedFlows st' = definedFlows st /\
  flowParameters st' = flowParameters st /\
  hasMainFlow st' = hasMainFlow st.
Proof.
  unfold generateImportStatement, registerPrompt.
  destruct (importType i), (promptImport i), (symbolImport i); simpl; auto.
Qed.

Lemma generateImports_result imports code st :
  let r := generateProgramFrom (map TopImport imports) code st in
  fst r = Ok (code +:+ blocksText (map importBlock imports)) /\
  importedPrompts (snd r) = foldl registerPrompt (importedPrompts st) imports /\
  definedFlows (snd r) = definedFlows st /\
  flowParameters (snd r) = flowParameters st /\
  hasMainFlow (snd r) = hasMainFlow st.
Proof.
  revert code st. induction imports as [|i imports IH]; intros code st; simpl.
  - rewrite append_nil_r. auto.
  - pose proof (generateImportStatement_text i st) as Ht.
    pose proof (generateImportStatement_state i st) as (Hp & Hf & Hq & Hm).
    destruct (generateImportStatement i st) as [r st']. simpl in *. subst r.
    specialize (IH (code +:+ importBlock i +:+ nl +:+ nl) st').
    simpl in IH. destruct IH as (E & Hp' & Hf' & Hq' & Hm').
    rewrite E, Hp', Hf', Hq', Hm', Hp, Hf, Hq, Hm.
    rewrite !append_assoc. auto.
Qed.

Lemma generateFlowDefinition_state flow st :
  hasFlow st (id_name (flow_name flow)) = true ->
  let st' := snd (generateFlowDefinition flow st) in
  registryAgree st st' /\
  hasMainFlow st' = hasMainFlow st || isMain flow.
Proof.
  intros Hin. unfold generateFlowDefinition. fold (flowEntryState flow st).
  match goal with
  | |- context [generateBody generateStatement 2 (flow_body flow) ?c _] =>
      pose proof (generateStatements_frame declaredOnly declaredOnly_refl
                    declaredOnly_trans declaredOnly_declare
                    2 (flow_body flow) c (flowEntryState flow st)) as Hd
  end.
  destruct (generateBody generateStatement 2 (flow_body flow) _
                         (flowEntryState flow st)) as [r st'].
  simpl in Hd. cbv zeta.
  assert (registryAgree st st' /\
          hasMainFlow st' = hasMainFlow st || isMain flow) as Hgoal.
  { split.
    - eapply registryAgree_trans;
        [apply flowEntryState_registry; exact Hin|].
      apply declaredOnly_registryAgree. exact Hd.
    - rewrite Hd. simpl. unfold flowEntryState, isMain.
      rewrite foldl_declare_fields.
      destruct (String.eqb _ _); simpl;
        [rewrite orb_true_r|rewrite orb_false_r]; reflexivity. }
  destruct r; exact Hgoal.
Qed.

Lemma generateFlows_result reg flows :
  forall code st,
    registryAgree reg st ->
    Forall (fun f => hasFlow reg (id_name (flow_name f)) = true) flows ->
    let r := generateProgramFrom (map TopFlow flows) code st in
    fst r
    = (blocks ← mapM (fun f => fst (generateFlowDefinition f reg)) flows;
       Ok (code +:+ blocksText blocks)) /\
    (forall out, fst r = Ok out ->
                 hasMainFlow (snd r) = hasMainFlow st || existsb isMain flows).
Proof.
  induction flows as [|f flows IH]; intros code st Hreg Hall; simpl.
  - rewrite append_nil_r, orb_false_r. auto.
  - inversion Hall as [|? ? Hf Hrest]; subst.
    assert (Hin : hasFlow st (id_name (flow_name f)) = true).
    { destruct Hreg as (_ & Hfl & _). rewrite <- Hfl. exact Hf. }
    pose proof (generateFlowDefinition_agree f reg st Hf Hreg) as Etext.
    pose proof (generateFlowDefinition_state f st Hin) as [Hst Hmain].
    destruct (generateFlowDefinition f st) as [r st']. simpl in *.
    rewrite Etext.
    destruct r as [nodeCode|msg]; simpl.
    + assert (Hreg' : registryAgree reg st')
        by (eapply registryAgree_trans; eassumption).
      destruct (IH (code +:+ nodeCode +:+ nl +:+ nl) st' Hreg' Hrest)
        as [E Hm].
      simpl in E, Hm. split.
      * rewrite E. unfold mbind, result_bind.
        destruct (mapM _ flows); [|reflexivity].
        rewrite !append_assoc. reflexivity.
      * intros out Hout. rewrite (Hm out Hout), Hmain, orb_assoc. reflexivity.
    + split; [reflexivity|]. intros out Hout. discriminate Hout.
Qed.

Lemma foldl_map {A B C : Type} (f : A -> B -> A) (g : C -> B) (l : list C) a :
  foldl f a (map g l) = foldl (fun x c => f x (g c)) a l.
Proof. revert a. induction l as [|c l IH]; intros a; simpl; auto. Qed.

Lemma foldl_id {A B : Type} (l : list B) (a : A) :
  foldl (fun x _ => x) a l = a.
Proof. induction l; simpl; auto. Qed.

Lemma collectDefinedFlows_body imports flows st :
  collectDefinedFlows (mkProgram (map TopImport imports ++ map TopFlow flows))
                      st
  = foldl registerFlow st flows.
Proof.
  unfold collectDefinedFlows. simpl.
  rewrite foldl_app, !foldl_map. simpl. rewrite foldl_id. reflexivity.
Qed.

Lemma registerFlows_fields flows : forall st,
  let st' := foldl registerFlow st flows in
  importedPrompts st' = importedPrompts st /\
  hasMainFlow st' = hasMainFlow st /\
  (forall n, n ∈ definedFlows st' <->
             n ∈ definedFlows st \/ In n (flowNames flows)) /\
  (forall n, flowParameters st' !! n
             = match lastDeclared flows n with
               | Some f => Some (paramNames f)
               | None => flowParameters st !! n
               end).
Proof.
  induction flows as [|f flows IH]; intros st; simpl.
  - repeat split; auto. intros [H|[]]; exact H.
  - destruct (IH (registerFlow st f)) as (Hp & Hm & Hd & Hq).
    repeat split.
    + rewrite Hp. reflexivity.
    + rewrite Hm. reflexivity.
    + rewrite Hd. simpl. set_solver.
    + rewrite Hd. simpl. set_solver.
    + intros n. rewrite Hq. destruct (lastDeclared flows n); [reflexivity|].
      simpl. destruct (String.eqb_spec (id_name (flow_name f)) n) as [->|Hne].
      * apply lookup_insert_eq.
      * apply lookup_insert_ne. exact Hne.
Qed.

Lemma lastDeclared_In flows n :
  In n (flowNames flows) -> exists f, lastDeclared flows n = Some f.
Proof.
  induction flows as [|f flows IH]; simpl; [intros []|].
  intros [E|H].
  - destruct (lastDeclared flows n); [eauto|].
    rewrite E, String.eqb_refl. eauto.
  - destruct (IH H) as [g ->]. eauto.
Qed.

Lemma lastDeclared_Some flows n f :
  lastDeclared flows n = Some f ->
  In f flows /\ id_name (flow_name f) = n.
Proof.
  induction flows as [|g flows IH]; simpl; [discriminate|].
  destruct (lastDeclared flows n) as [h|].
  - intros E. injection E as ->. destruct (IH eq_refl). auto.
  - destruct (String.eqb_spec (id_name (flow_name g)) n); [|discriminate].
    intros E. injection E as ->. auto.
Qed.

Lemma registerPrompts_lookup imports : forall m n,
  is_Some (foldl registerPrompt m imports !! n) <->
  is_Some (m !! n) \/ In n (promptNames imports).
Proof.
  induction imports as [|i imports IH]; intros m n; simpl.
  - tauto.
  - rewrite IH. unfold registerPrompt, promptNames. simpl.
    destruct (importType i), (promptImport i) as [p|]; simpl; try tauto.
    destruct (decide (id_name (pi_name p) = n)) as [->|Hne].
    + rewrite lookup_insert_eq. split; [intros _; right; left; reflexivity|].
      intros _. left. eauto.
    + rewrite lookup_insert_ne by exact Hne. tauto.
Qed.

Lemma declaredRegistry_hasPrompt imports flows n :
  hasPrompt (declaredRegistry imports flows) n = true <->
  In n (promptNames imports).
Proof.
  unfold hasPrompt, declaredRegistry. simpl.
  rewrite bool_decide_eq_true, registerPrompts_lookup, lookup_empty.
  split; [intros [[x Hx]|H]; [discriminate|exact H]|auto].
Qed.

Lemma declaredRegistry_hasFlow imports flows n :
  hasFlow (declaredRegistry imports flows) n = true <->
  In n (flowNames flows).
Proof.
  unfold hasFlow, declaredRegistry. simpl.
  destruct (registerFlows_fields flows newGenerator) as (_ & _ & Hd & _).
  rewrite bool_decide_eq_true, Hd. simpl. set_solver.
Qed.

Lemma declaredRegistry_flowParameters imports flows n :
  flowParameters (declaredRegistry imports flows) !! n
  = paramNames <$> lastDeclared flows n.
Proof.
  unfold declaredRegistry. simpl.
  destruct (registerFlows_fields flows newGenerator) as (_ & _ & _ & Hq).
  rewrite Hq. destruct (lastDeclared flows n); reflexivity.
Qed.

Lemma registerPrompts_lastImported imports : forall m n,
  foldl registerPrompt m imports !! n
  = match lastImported imports n with
    | Some p => Some p
    | None => m !! n
    end.
Proof.
  induction imports as [|i imports IH]; intros m n; simpl; [reflexivity|].
  rewrite IH. destruct (lastImported imports n); [reflexivity|].
  unfold registerPrompt, importedPrompt.
  destruct (importType i), (promptImport i) as [p|]; try reflexivity.
  destruct (String.eqb_spec (id_name (pi_name p)) n) as [->|Hne].
  - apply lookup_insert_eq.
  - apply lookup_insert_ne. exact Hne.
Qed.

Lemma declaredRegistry_importedPrompts imports flows n :
  importedPrompts (declaredRegistry imports flows) !! n
  = lastImported imports n.
Proof.
  unfold declaredRegistry. simpl. rewrite registerPrompts_lastImported.
  destruct (lastImported imports n); [reflexivity|apply lookup_empty].
Qed.

Lemma resetState_fields st :
  importedPrompts (resetState st) = ∅ /\
  importedSymbols (resetState st) = ∅ /\
  definedFlows (resetState st) = ∅ /\
  declaredVariables (resetState st) = ∅ /\
  hasMainFlow (resetState st) = false /\
  flowParameters (resetState st) = flowParameters st.
Proof. repeat split. Qed.

Lemma generateProgramFrom_app l k : forall code st,
  generateProgramFrom (l ++ k) code st
  = match generateProgramFrom l code st with
    | (Ok code', st') => generateProgramFrom k code' st'
    | (Throw msg, st') => (Throw msg, st')
    end.
Proof.
  induction l as [|x l IH]; intros code st; simpl; [reflexivity|].
  destruct (generateTopLevel x st) as [[c|m] st']; [apply IH|reflexivity].
Qed.

(** The registries in force when the first flow definition is reached. *)
Lemma registry_before_flows imports flows st :
  let p := mkProgram (map TopImport imports ++ map TopFlow flows) in
  let st1 := snd (generateProgramFrom (map TopImport imports) EmptyString
                    (collectDefinedFlows p (resetState st))) in
  registryAgree (declaredRegistry imports flows) st1 /\
  hasMainFlow st1 = false /\
  importedPrompts st1 = importedPrompts (declaredRegistry imports flows).
Proof.
  intros p st1. subst p st1.
  rewrite collectDefinedFlows_body.
  destruct (generateImports_result imports EmptyString
              (foldl registerFlow (resetState st) flows))
    as (_ & Hp & Hf & Hq & Hm).
  destruct (registerFlows_fields flows (resetState st))
    as (Hp0 & Hm0 & Hd0 & Hq0).
  destruct (registerFlows_fields flows newGenerator)
    as (_ & _ & Hd1 & Hq1).
  split; [|split; [rewrite Hm, Hm0; reflexivity|rewrite Hp, Hp0; reflexivity]].
  unfold registryAgree, hasPrompt, hasFlow, declaredRegistry. simpl.
  rewrite Hp, Hf, Hq, Hp0. simpl. repeat split.
  - intros n. apply bool_decide_ext. rewrite Hd0, Hd1. simpl. set_solver.
  - intros n Hn. apply bool_decide_eq_true in Hn. apply Hd1 in Hn.
    destruct Hn as [Hn|Hn]; [set_solver|].
    rewrite Hq0, Hq1. destruct (lastDeclared_In flows n Hn) as [f ->].
    reflexivity.
Qed.

(** [generate] on a program whose body is [imports] then [flows], from any
    instance: every flow block is the text [generateFlowDefinition] gives
    under the registries of the whole program. *)
Lemma generate_declaredRegistry runtime imports flows st :
  fst (generate (Ok runtime)
                (mkProgram (map TopImport imports ++ map TopFlow flows)) st)
  = (blocks ← mapM (fun f => fst (generateFlowDefinition
                                    f (declaredRegistry imports flows)))
                   flows;
     Ok (programText runtime (map importBlock imports ++ blocks)
                     (existsb isMain flows))).
Proof.
  pose proof (registry_before_flows imports flows st) as (Hreg & Hmain & _).
  unfold generate, generateProgram. simpl program_body.
  rewrite generateProgramFrom_app.
  destruct (generateImports_result imports EmptyString
              (collectDefinedFlows
                 (mkProgram (map TopImport imports ++ map TopFlow flows))
                 (resetState st))) as (Etext & _).
  simpl in Hreg, Hmain.
  destruct (generateProgramFrom (map TopImport imports) EmptyString _)
    as [r st1]. simpl in Etext, Hreg, Hmain. subst r.
  assert (Hall : Forall (fun f => hasFlow (declaredRegistry imports flows)
                                          (id_name (flow_name f)) = true)
                        flows).
  { apply Forall_forall. intros f Hf. apply declaredRegistry_hasFlow.
    unfold flowNames. apply in_map_iff. exists f. split; [reflexivity|].
    apply list_elem_of_In. exact Hf. }
  destruct (generateFlows_result _ flows
              (EmptyString +:+ blocksText (map importBlock imports)) st1
              Hreg Hall) as [E Hm].
  simpl in E, Hm.
  destruct (generateProgramFrom (map TopFlow flows) _ st1) as [r st2].
  simpl in E, Hm. subst r.
  destruct (mapM _ flows) as [blocks|msg]; simpl; [|reflexivity].
  rewrite (Hm _ eq_refl), Hmain. simpl.
  unfold programText. rewrite blocksText_app.
  destruct (existsb isMain flows); reflexivity.
Qed.

Lemma generatedPropsMap_fmap gen properties :
  generatedPropsMap gen properties
  = generatePropertyValue gen <$> propsMap properties.
Proof.
  unfold generatedPropsMap, propsMap.
  rewrite <- (fmap_empty (generatePropertyValue gen)).
  generalize (∅ : gmap string Property).
  induction properties as [|p l IH]; intros m; simpl; [reflexivity|].
  rewrite <- IH, fmap_insert. reflexivity.
Qed.

(** Lines 441-447 as they are written: each parameter name is looked up, a
    missing one throws, a found one has its argument generated. *)
Lemma extractArgs_lookup gen callee properties params :
  extractArgs gen callee properties params
  = mapM (fun paramName =>
            match propsMap properties !! paramName with
            | None => Throw (missingParameter paramName callee)
            | Some prop => generatePropertyValue gen prop
            end) params.
Proof.
  unfold extractArgs. apply mapM_ext. apply Forall_forall. intros q _.
  rewrite generatedPropsMap_fmap, lookup_fmap.
  destruct (propsMap properties !! q); reflexivity.
Qed.

Lemma propsMap_snoc properties p :
  propsMap (properties ++ [p])
  = <[id_name (prop_key p) := p]> (propsMap properties).
Proof. unfold propsMap. rewrite foldl_app. reflexivity. Qed.

Lemma propsMap_list_to_map properties :
  propsMap properties
  = list_to_map (reverse (map (fun p => (id_name (prop_key p), p)) properties)).
Proof.
  induction properties as [|p l IH] using rev_ind; [reflexivity|].
  rewrite propsMap_snoc, IH, map_app, reverse_app. reflexivity.
Qed.

Lemma propsMap_lookup_In properties n p :
  propsMap properties !! n = Some p ->
  In p properties /\ id_name (prop_key p) = n.
Proof.
  induction properties as [|q l IH] using rev_ind; [discriminate|].
  rewrite propsMap_snoc, in_app_iff. simpl.
  destruct (decide (id_name (prop_key q) = n)) as [E|Hne].
  - rewrite E, lookup_insert_eq. intros H. injection H as ->. auto.
  - rewrite lookup_insert_ne by exact Hne. intros H.
    destruct (IH H). auto.
Qed.

(** Without two properties of the same name, the order in which the
    properties are written does not matter. *)
Lemma propsMap_Permutation l k :
  NoDup (map (fun p => id_name (prop_key p)) l) ->
  Permutation l k -> propsMap l = propsMap k.
Proof.
  intros Hnd Hperm. rewrite !propsMap_list_to_map.
  apply list_to_map_proper.
  - rewrite fmap_reverse, reverse_Permutation.
    assert (E : (map (fun p => (id_name (prop_key p), p)) l).*1
                = map (fun p => id_name (prop_key p)) l).
    { clear. induction l; simpl; f_equal; auto. }
    rewrite E. exact Hnd.
  - rewrite !reverse_Permutation. apply Permutation_map. exact Hperm.
Qed.

Lemma mapM_lookup_present properties params :
  forallb (hasProperty properties) params = true ->
  exists props,
    mapM (fun q => match propsMap properties !! q with
                   | Some prop => Ok prop
                   | None => Throw (A:=Property) q
                   end) params = Ok props /\
    Forall2 (fun q prop => propsMap properties !! q = Some prop) params props.
Proof.
  induction params as [|q params IH]; simpl; intros H.
  - exists []. split; [reflexivity|constructor].
  - apply andb_true_iff in H as [Hq Hrest].
    unfold hasProperty in Hq. apply bool_decide_eq_true in Hq.
    destruct Hq as [prop Hprop]. destruct (IH Hrest) as (props & E & F).
    exists (prop :: props). rewrite Hprop, E. split; [reflexivity|].
    constructor; assumption.
Qed.

Lemma generateNode_FunctionCall st callee args :
  generateNode st (FunctionCall callee args)
  = generateFunctionCall (generateNode st) st callee args.
Proof. reflexivity. Qed.

Lemma generateFunctionCall_flow gen st callee args :
  hasPrompt st (id_name callee) = false ->
  hasFlow st (id_name callee) = true ->
  generateFunctionCall gen st callee args
  = generateFlowCall gen st (id_name callee) args.
Proof.
  intros Hp Hf. unfold generateFunctionCall, generateIdentifier.
  rewrite Hp, Hf. reflexivity.
Qed.

Lemma extractArgs_present gen callee properties params :
  forallb (hasProperty properties) params = true ->
  extractArgs gen callee properties params
  = mapM (generatePropertyValue gen) (matchingProperties properties params).
Proof.
  rewrite extractArgs_lookup. unfold matchingProperties.
  induction params as [|q params IH]; simpl; [reflexivity|].
  intros H. apply andb_true_iff in H as [Hq Hrest].
  unfold hasProperty in Hq. apply bool_decide_eq_true in Hq.
  destruct Hq as [prop Hprop]. rewrite Hprop. simpl.
  rewrite (IH Hrest). reflexivity.
Qed.

Lemma matchingProperties_spec properties params :
  forallb (hasProperty properties) params = true ->
  Forall2 (fun q prop => id_name (prop_key prop) = q /\ In prop properties)
          params (matchingProperties properties params).
Proof.
  unfold matchingProperties.
  induction params as [|q params IH]; simpl; intros H; [constructor|].
  apply andb_true_iff in H as [Hq Hrest].
  unfold hasProperty in Hq. apply bool_decide_eq_true in Hq.
  destruct Hq as [prop Hprop]. rewrite Hprop. simpl.
  constructor; [|apply IH; exact Hrest].
  destruct (propsMap_lookup_In _ _ _ Hprop). auto.
Qed.


Lemma append_nil_l (s : string) : EmptyString +:+ s = s.
Proof. reflexivity. Qed.

Lemma name_paren_not_await_name n : forall c x y,
  String.length c <= n -> c +:+ "(" +:+ x <> "await " +:+ c +:+ y.
Proof.
  induction n as [|n IH]; intros c x y Hlen H.
  - destruct c; [discriminate H|simpl in Hlen; lia].
  - destruct c as [|a1 [|a2 [|a3 [|a4 [|a5 [|a6 c]]]]]];
      rewrite ?append_String, ?append_nil_l in H;
      try (simplify_eq; fail).
    injection H as E1 E2 E3 E4 E5 E6 H. subst.
    apply (IH c x y); [simpl in Hlen; lia|exact H].
Qed.

Lemma plainCallText_not_awaited callee args :
  ~ awaitedCall callee (plainCallText callee args).
Proof.
  intros [rest H]. unfold plainCallText in H.
  destruct (isBuiltin (id_name callee)); [discriminate H|].
  change (EmptyString +:+ id_name callee +:+ "(" +:+ join ", " args +:+ ")")
    with (id_name callee +:+ "(" +:+ join ", " args +:+ ")") in H.
  apply (name_paren_not_await_name _ _ _ _ (le_n _) H).
Qed.

Lemma generateFlowCall_awaited gen st callee args out :
  generateFlowCall gen st (id_name callee) args = Ok out ->
  awaitedCall callee out.
Proof.
  unfold generateFlowCall, awaitedCall, mbind, result_bind. intros H.
  repeat match type of H with
         | context [match ?x with _ => _ end] => destruct x
         end;
    try discriminate H; injection H as <-; eexists; reflexivity.
Qed.

Lemma generatePromptCall_awaited gen callee args out :
  generatePromptCall gen (id_name callee) args = Ok out ->
  awaitedCall callee out.
Proof.
  unfold generatePromptCall, awaitedCall, mbind, result_bind. intros H.
  repeat match type of H with
         | context [match ?x with _ => _ end] => destruct x
         end;
    try discriminate H; injection H as <-; eexists; reflexivity.
Qed.

Lemma generateNode_call_cases st callee args out :
  generateNode st (FunctionCall callee args) = Ok out ->
  (isAsyncCall st (FunctionCall callee args) = true /\ awaitedCall callee out)
  \/
  (isAsyncCall st (FunctionCall callee args) = false /\
   exists args', mapM (generateNode st) args = Ok args' /\
                 out = plainCallText callee args').
Proof.
  rewrite generateNode_FunctionCall. unfold generateFunctionCall. simpl.
  unfold generateIdentifier, plainCallText.
  destruct (hasPrompt st (id_name callee)); simpl.
  { intros H. left. split; [reflexivity|].
    eapply generatePromptCall_awaited. exact H. }
  destruct (hasFlow st (id_name callee)); simpl.
  { intros H. left. split; [reflexivity|].
    eapply generateFlowCall_awaited. exact H. }
  unfold mbind, result_bind.
  destruct (isBuiltin (id_name callee));
    destruct (mapM (generateNode st) args) as [args'|]; intros H;
    try discriminate H; injection H as <-;
    right; (split; [reflexivity|]); exists args'; auto.
Qed.

Module ParserProperties.
Import Parser.

Lemma depthAfter_S input k :
  depthAfter input (S k) = (depthAfter input k + braceDelta (LA input (S k)))%Z.
Proof. reflexivity. Qed.

Lemma scanStep_delta input i c :
  scanStep input (i, c) = (S i, (c + braceDelta (LA input i))%Z).
Proof.
  unfold scanStep, braceDelta.
  destruct (LA input i); simpl; f_equal; lia.
Qed.

(** With fuel for every index up to the limit the loop has run to its end:
    the invariant holds and the loop test is false. *)
Lemma scanLoop_finished input fuel : forall s,
  scanInvariant input s ->
  lookaheadLimit - fst s <= fuel ->
  scanInvariant input (scanLoop fuel input s) /\
  scanCondition (scanLoop fuel input s) = false.
Proof.
  unfold scanInvariant, scanCondition, lookaheadLimit.
  induction fuel as [|fuel IH]; intros [i c] Hinv Hfuel; cbn [scanLoop].
  - split; [exact Hinv|].
    destruct Hinv as ((_ & Hi) & _). simpl in Hfuel.
    apply andb_false_iff. right. apply bool_decide_eq_false. lia.
  - fold (scanCondition (i, c)).
    destruct (scanCondition (i, c)) eqn:Hcond; [|split; assumption].
    unfold scanCondition, lookaheadLimit in Hcond.
    apply andb_true_iff in Hcond as [Hc Hi].
    apply bool_decide_eq_true in Hc. apply bool_decide_eq_true in Hi.
    rewrite scanStep_delta. simpl in Hfuel. apply IH; [|simpl; lia].
    destruct Hinv as ((Hi2 & _) & Hdepth & _ & Hpos).
    assert (Ei : S i - 1 = S (i - 1)) by lia.
    assert (Ei' : S (i - 1) = i) by lia.
    split; [lia|].
    rewrite Ei, depthAfter_S, Ei', <- Hdepth.
    split; [reflexivity|]. split.
    + unfold braceDelta. destruct (LA input i); lia.
    + intros j Hj. destruct (decide (j = i - 1)) as [->|Hne].
      * rewrite <- Hdepth. exact Hc.
      * apply Hpos. lia.
Qed.

Lemma closesAt_unique input k k' :
  1 <= k -> 1 <= k' -> closesAt input k -> closesAt input k' -> k = k'.
Proof.
  intros Hk Hk' [Hz Hpos] [Hz' Hpos'].
  destruct (lt_eq_lt_dec k k') as [[Hlt|Heq]|Hgt]; [|exact Heq|].
  - specialize (Hpos' k ltac:(lia)). lia.
  - specialize (Hpos k' ltac:(lia)). lia.
Qed.

Lemma isDestructuringAssignment_shape input :
  isDestructuringAssignment input = true <-> destructuringShape input.
Proof.
  unfold isDestructuringAssignment, destructuringShape.
  pose proof (eq_refl : lookaheadLimit = 20) as Hlimit.
  destruct (decide (LA input 1 = LCurly)) as [Hopen|Hopen].
  2:{ rewrite bool_decide_false by exact Hopen. simpl.
      split; [discriminate|]. intros [H _]. contradiction. }
  rewrite bool_decide_true by exact Hopen. simpl negb. cbv iota.
  assert (Hinit : scanInvariant input (2, 1%Z)).
  { simpl. split; [lia|]. split.
    - rewrite Hopen. reflexivity.
    - split; [lia|]. intros j Hj. lia. }
  destruct (scanLoop_finished input lookaheadLimit (2, 1%Z) Hinit
              ltac:(simpl; lia)) as [Hinv Hexit].
  destruct (scanLoop lookaheadLimit input (2, 1%Z)) as [i c].
  simpl in Hinv. destruct Hinv as ((Hi2 & Hi20) & Hdepth & Hc0 & Hpos).
  simpl in Hexit. apply andb_false_iff in Hexit.
  rewrite !bool_decide_eq_false in Hexit.
  assert (Ei : S (i - 1) = i) by lia.
  split.
  - destruct (decide (c = 0%Z)) as [Hc|Hc].
    + rewrite bool_decide_true by exact Hc.
      intros HLA. apply bool_decide_eq_true in HLA.
      split; [exact Hopen|]. exists (i - 1).
      split; [lia|]. split; [|rewrite Ei; exact HLA].
      split; [congruence|exact Hpos].
    + rewrite bool_decide_false by exact Hc. discriminate.
  - intros (_ & k & Hk & Hclose & HLA).
    assert (Hk1 : 1 <= k).
    { destruct k; [|lia]. simpl in HLA. congruence. }
    destruct (decide (c = 0%Z)) as [Hc|Hc].
    + rewrite bool_decide_true by exact Hc. apply bool_decide_eq_true.
      assert (Hclose' : closesAt input (i - 1))
        by (split; [congruence|exact Hpos]).
      assert (E : k = i - 1)
        by (apply (closesAt_unique input); [lia|lia|assumption|assumption]).
      rewrite E, Ei in HLA. exact HLA.
    + exfalso. destruct Hexit as [Hexit|Hexit]; [lia|].
      destruct Hclose as [Hz Hposk].
      destruct (decide (k = i - 1)) as [E|Hne].
      * rewrite E in Hz. lia.
      * specialize (Hpos k ltac:(lia)). lia.
Qed.

End ParserProperties.

Lemma transformNotExpression_booleanOperand b :
  transformNotExpression (booleanOperand b) = Ok (BooleanLiteral b).
Proof. destruct b; reflexivity. Qed.

Lemma chainOperators_leftTree r0 rs nAnd nOr :
  length rs = nAnd + nOr ->
  chainOperators (r0 :: rs) nAnd nOr
  = leftTree r0 (zip (andsThenOrs nAnd nOr) rs).
Proof.
  intros Hlen. unfold chainOperators, leftTree.
  assert (Hzip : length (zip (andsThenOrs nAnd nOr) rs) = nAnd + nOr).
  { rewrite length_zip_with. unfold andsThenOrs.
    rewrite length_app, !length_replicate. lia. }
  rewrite <- (take_ge (zip (andsThenOrs nAnd nOr) rs) (nAnd + nOr))
    by (rewrite Hzip; lia).
  assert (Hn : nAnd + nOr <= nAnd + nOr) by lia.
  revert Hn. generalize (nAnd + nOr) at 1 3 4 as n.
  induction n as [|n IH]; intros Hn; [reflexivity|].
  rewrite seq_S, foldl_app. simpl.
  assert (Hlt : n < length rs) by lia.
  destruct (lookup_lt_is_Some_2 rs n Hlt) as [r Hr].
  assert (Hop : andsThenOrs nAnd nOr !! n
                = Some (if bool_decide (n < nAnd) then OpAnd else OpOr)).
  { unfold andsThenOrs. destruct (decide (n < nAnd)) as [Hlt'|Hge].
    - rewrite bool_decide_true by exact Hlt'.
      rewrite lookup_app_l by (rewrite length_replicate; exact Hlt').
      apply lookup_replicate_2. exact Hlt'.
    - rewrite bool_decide_false by exact Hge.
      rewrite lookup_app_r by (rewrite length_replicate; lia).
      apply lookup_replicate_2. rewrite length_replicate. lia. }
  rewrite (take_S_r _ n (if bool_decide (n < nAnd) then OpAnd else OpOr, r)).
  2:{ rewrite lookup_zip_with, Hop, Hr. reflexivity. }
  rewrite foldl_app. simpl. rewrite IH by lia.
  unfold operandAt. replace (n + 1) with (S n) by lia. simpl. rewrite Hr.
  reflexivity.
Qed.

Lemma operatorTokens_length chain :
  length (operatorTokens OpAnd chain) + length (operatorTokens OpOr chain)
  = length chain.
Proof.
  induction chain as [|[op c] chain IH]; [reflexivity|].
  destruct op; simpl.
  - f_equal. exact IH.
  - rewrite Nat.add_succ_r. f_equal. exact IH.
Qed.

(** What [transformLogicalExpression] builds from a parsed chain: the
    left-associated tree over the operands in source order, with all the
    [and] operators placed before all the [or] operators. *)
Lemma transformLogicalExpression_andsThenOrs first chain :
  transformLogicalExpression (logicalExpressionCst first chain)
  = leftTree (transformNotExpression first)
             (zip (andsThenOrs (length (operatorTokens OpAnd chain))
                               (length (operatorTokens OpOr chain)))
                  (map (fun step => transformNotExpression (snd step)) chain)).
Proof.
  unfold logicalExpressionCst. simpl.
  rewrite chainOperators_leftTree.
  - rewrite map_map. reflexivity.
  - rewrite !length_map. symmetry. apply operatorTokens_length.
Qed.

Lemma zip_map_same {A B C : Type} (f : A -> B) (g : A -> C) (l : list A) :
  zip (map f l) (map g l) = map (fun x => (f x, g x)) l.
Proof.
  induction l as [|x l IH]; simpl; [reflexivity|].
  rewrite IH. reflexivity.
Qed.

(** When every [and] of the chain is written before every [or], the
    transformer's tree has the operators in source order. *)
Lemma transformLogicalExpression_source_order first chain :
  map fst chain = andsThenOrs (length (operatorTokens OpAnd chain))
                              (length (operatorTokens OpOr chain)) ->
  transformLogicalExpression (logicalExpressionCst first chain)
  = leftTree (transformNotExpression first)
             (map (fun step => (fst step, transformNotExpression (snd step)))
                  chain).
Proof.
  intros Hsorted. rewrite transformLogicalExpression_andsThenOrs.
  rewrite <- Hsorted, zip_map_same. reflexivity.
Qed.

Lemma leftTree_booleans chain : forall e b,
  evalBoolean e = Some b ->
  match leftTree (Ok e)
          (map (fun step : LogicalOperator * bool =>
                  (fst step, Ok (BooleanLiteral (snd step)))) chain)
  with
  | Ok tree => evalBoolean tree
  | Throw _ => None
  end = Some (evalFlat b chain).
Proof.
  unfold leftTree, evalFlat.
  induction chain as [|[op c] chain IH]; intros e b He; simpl; [exact He|].
  apply IH. simpl. rewrite He. reflexivity.
Qed.

Lemma generateFlowDefinition_flowParameters flow st :
  flowParameters (snd (generateFlowDefinition flow st)) = flowParameters st.
Proof.
  unfold generateFlowDefinition. fold (flowEntryState flow st).
  match goal with
  | |- context [generateBody generateStatement 2 (flow_body flow) ?c _] =>
      pose proof
        (generateStatements_frame
           (fun s1 s2 => flowParameters s2 = flowParameters s1)
           (fun s1 => eq_refl)
           (fun s1 s2 s3 H12 H23 => eq_trans H23 H12)
           (fun x s1 => eq_refl)
           2 (flow_body flow) c (flowEntryState flow st)) as Hd
  end.
  destruct (generateBody generateStatement 2 (flow_body flow) _
                         (flowEntryState flow st)) as [r st'].
  simpl in Hd.
  assert (E : flowParameters st' = flowParameters st).
  { rewrite Hd. unfold flowEntryState. rewrite foldl_declare_fields.
    destruct (String.eqb _ _); reflexivity. }
  destruct r; exact E.
Qed.

Lemma generateTopLevel_flowParameters node st :
  flowParameters (snd (generateTopLevel node st)) = flowParameters st.
Proof.
  destruct node as [i|f]; simpl.
  - apply (generateImportStatement_state i st).
  - apply generateFlowDefinition_flowParameters.
Qed.

Lemma generateProgramFrom_flowParameters body : forall code st,
  flowParameters (snd (generateProgramFrom body code st)) = flowParameters st.
Proof.
  induction body as [|node body IH]; intros code st; simpl; [reflexivity|].
  pose proof (generateTopLevel_flowParameters node st) as E.
  destruct (generateTopLevel node st) as [[c|m] st']; simpl in *.
  - rewrite IH. exact E.
  - exact E.
Qed.

Lemma collectDefinedFlows_stale p st n :
  (forall f, In (TopFlow f) (program_body p) -> id_name (flow_name f) <> n) ->
  flowParameters (collectDefinedFlows p st) !! n = flowParameters st !! n.
Proof.
  unfold collectDefinedFlows. destruct p as [body]. simpl. revert st.
  induction body as [|node body IH]; intros st H; simpl; [reflexivity|].
  rewrite IH by (intros f Hf; apply H; right; exact Hf).
  destruct node as [i|f]; [reflexivity|]. simpl.
  apply lookup_insert_ne. apply H. left. reflexivity.
Qed.

(** The stale entries are never read: the text [generate] returns for a
    program as the transformer builds it does not depend on the instance it
    starts from. *)
Lemma generate_output_independent runtime imports flows st1 st2 :
  let p := mkProgram (map TopImport imports ++ map TopFlow flows) in
  fst (generate (Ok runtime) p st1) = fst (generate (Ok runtime) p st2).
Proof. intros p. subst p. rewrite !generate_declaredRegistry. reflexivity. Qed.

Lemma mapM_app {A B : Type} (f : A -> result B) (l k : list A) :
  mapM f (l ++ k) = (a ← mapM f l; b ← mapM f k; Ok (a ++ b)%list).
Proof.
  induction l as [|x l IH]; simpl.
  - destruct (mapM f k); reflexivity.
  - destruct (f x); [|reflexivity]. rewrite IH.
    destruct (mapM f l); [|reflexivity]. simpl.
    destruct (mapM f k); reflexivity.
Qed.

Lemma mapM_length {A B : Type} (f : A -> result B) (l : list A) ys :
  mapM f l = Ok ys -> length ys = length l.
Proof.
  revert ys. induction l as [|x l IH]; intros ys; simpl.
  - intros H. injection H as <-. reflexivity.
  - destruct (f x); [|discriminate]. destruct (mapM f l); [|discriminate].
    intros H. injection H as <-. simpl. f_equal. apply IH. reflexivity.
Qed.

Lemma declarationBlock_imports reg cs : forall imports,
  mapM transformImportStatement cs = Ok imports ->
  mapM (declarationBlock reg) (map DeclImport cs)
  = Ok (map importBlock imports).
Proof.
  induction cs as [|c cs IH]; intros imports; simpl.
  - intros H. injection H as <-. reflexivity.
  - destruct (transformImportStatement c) as [i|]; [|discriminate]. simpl.
    destruct (mapM transformImportStatement cs) as [imps|]; [|discriminate].
    intros H. injection H as <-.
    rewrite generateImportStatement_text, (IH imps eq_refl). reflexivity.
Qed.

Lemma declarationBlock_flows reg cs : forall flows,
  mapM transformFlowDefinition cs = Ok flows ->
  mapM (declarationBlock reg) (map DeclFlow cs)
  = mapM (fun f => fst (generateFlowDefinition f reg)) flows.
Proof.
  induction cs as [|c cs IH]; intros flows; simpl.
  - intros H. injection H as <-. reflexivity.
  - destruct (transformFlowDefinition c) as [f|]; [|discriminate]. simpl.
    destruct (mapM transformFlowDefinition cs) as [fs|]; [|discriminate].
    intros H. injection H as <-. simpl.
    rewrite (IH fs eq_refl). reflexivity.
Qed.

Lemma declImports_declFlows_length decls :
  length (declImports decls) + length (declFlows decls) = length decls.
Proof.
  unfold declImports, declFlows.
  induction decls as [|[i|f] decls IH]; simpl.
  - reflexivity.
  - f_equal. exact IH.
  - rewrite Nat.add_succ_r. f_equal. exact IH.
Qed.

(** The whole pipeline after parsing, on a source file given by its
    declarations in source order. *)
Lemma compileCst_declaredRegistry runtime decls imports flows :
  mapM transformImportStatement (declImports decls) = Ok imports ->
  mapM transformFlowDefinition (declFlows decls) = Ok flows ->
  compileCst (Ok runtime) (scriptCst decls)
  = (blocks ← mapM (fun f => fst (generateFlowDefinition
                                    f (declaredRegistry imports flows)))
                   flows;
     Ok (programText runtime (map importBlock imports ++ blocks)
                     (existsb isMain flows))).
Proof.
  intros Hi Hf. unfold compileCst, transform, scriptCst. simpl.
  rewrite Hi, Hf. simpl. apply generate_declaredRegistry.
Qed.

Lemma contains_refl s : contains s s.
Proof. exists EmptyString, EmptyString. rewrite append_nil_r. reflexivity. Qed.

Lemma contains_trans a b c : contains a b -> contains b c -> contains a c.
Proof.
  intros (p1 & q1 & ->) (p2 & q2 & ->).
  exists (p1 +:+ p2), (q2 +:+ q1). rewrite !append_assoc. reflexivity.
Qed.

Lemma contains_middle pre text post : contains (pre +:+ text +:+ post) text.
Proof. exists pre, post. reflexivity. Qed.

Lemma generateBody_prefix genStmt level body : forall code st out,
  fst (generateBody genStmt level body code st) = Ok out ->
  exists rest, out = code +:+ rest.
Proof.
  induction body as [|s body IH]; intros code st out; simpl.
  - intros H. injection H as <-. exists EmptyString.
    rewrite append_nil_r. reflexivity.
  - destruct (genStmt s st) as [[c|m] st1]; [|discriminate].
    intros H. destruct (IH _ _ _ H) as [rest ->].
    eexists. rewrite !append_assoc. reflexivity.
Qed.

Lemma generateBody_contains level body s : forall code st out,
  In s body ->
  fst (generateBody generateStatement level body code st) = Ok out ->
  exists st' text,
    declaredOnly st st' /\
    fst (generateStatement s st') = Ok text /\
    contains out text.
Proof.
  induction body as [|s0 body IH]; intros code st out Hin; simpl;
    [destruct Hin|].
  pose proof (generateStatement_declaredOnly s0 st) as Hd.
  destruct (generateStatement s0 st) as [[c|m] st1] eqn:E0; [|discriminate].
  simpl in Hd. intros H. destruct Hin as [->|Hin].
  - exists st, c. split; [apply declaredOnly_refl|].
    rewrite E0. split; [reflexivity|].
    destruct (generateBody_prefix _ _ _ _ _ _ H) as [rest ->].
    exists (code +:+ nl +:+ indent level), (";" +:+ rest).
    rewrite !append_assoc. reflexivity.
  - destruct (IH _ _ _ Hin H) as (st' & text & Hd' & Ht & Hc).
    exists st', text. split; [|auto].
    eapply declaredOnly_trans; eassumption.
Qed.

Lemma closeBlock_Ok r out :
  fst (closeBlock r) = Ok out ->
  exists code, fst r = Ok code /\ out = code +:+ nl +:+ "}".
Proof.
  destruct r as [[code|m] st]; simpl; [|discriminate].
  intros H. injection H as <-. eauto.
Qed.

Lemma generateStatement_body_contains outer body s st out :
  (exists condition, outer = IfStatement condition body) \/
  (exists variable iterable, outer = ForStatement variable iterable body) \/
  outer = LoopStatement body ->
  In s body ->
  fst (generateStatement outer st) = Ok out ->
  exists st' text,
    declaredOnly st st' /\
    fst (generateStatement s st') = Ok text /\
    contains out text.
Proof.
  intros Houter Hin H.
  assert (Hbody : exists code bodyOut,
             fst (generateBody generateStatement 1 body code st) = Ok bodyOut
             /\ out = bodyOut +:+ nl +:+ "}").
  { destruct Houter as [[c ->]|[(v & it & ->)| ->]]; simpl in H.
    - unfold generateIfStatement in H.
      destruct (generateNode st c); [|discriminate H].
      destruct (closeBlock_Ok _ _ H) as (bodyOut & E & ->). eauto.
    - unfold generateForStatement in H.
      destruct (generateNode st it); [|discriminate H].
      destruct (closeBlock_Ok _ _ H) as (bodyOut & E & ->). eauto.
    - unfold generateLoopStatement in H.
      destruct (closeBlock_Ok _ _ H) as (bodyOut & E & ->). eauto. }
  destruct Hbody as (code & bodyOut & E & ->).
  destruct (generateBody_contains _ _ _ _ _ _ Hin E)
    as (st' & text & Hd & Ht & Hc).
  exists st', text. split; [exact Hd|]. split; [exact Ht|].
  eapply contains_trans; [|exact Hc].
  exists EmptyString, (nl +:+ "}"). reflexivity.
Qed.

(** One level of nesting: the statement [s] of the body is found in the
    text, then the induction hypothesis finds [inner] in the text of [s]. *)
Ltac descend_into_body IH Hshape Hin H :=
  let st1 := fresh "st1" in
  let t1 := fresh "t1" in
  let Hd1 := fresh "Hd1" in
  let Ht1 := fresh "Ht1" in
  let Hc1 := fresh "Hc1" in
  let st2 := fresh "st2" in
  let t2 := fresh "t2" in
  let Hd2 := fresh "Hd2" in
  let Ht2 := fresh "Ht2" in
  let Hc2 := fresh "Hc2" in
  destruct (generateStatement_body_contains _ _ _ _ _ Hshape Hin H)
    as (st1 & t1 & Hd1 & Ht1 & Hc1);
  destruct (IH _ _ Ht1) as (st2 & t2 & Hd2 & Ht2 & Hc2);
  exists st2, t2;
  split; [eapply declaredOnly_trans; eassumption|];
  split; [exact Ht2|eapply contains_trans; eassumption].

(** The text of a statement contains the text of every statement it
    encloses, generated under the same registries. *)
Lemma enclosed_statement_text outer inner :
  Encloses outer inner ->
  forall st out,
    fst (generateStatement outer st) = Ok out ->
    exists st' text,
      declaredOnly st st' /\
      fst (generateStatement inner st') = Ok text /\
      contains out text.
Proof.
  induction 1 as [s|c body s inner Hin _ IH|v it body s inner Hin _ IH
                 |body s inner Hin _ IH]; intros st out H.
  - exists st, out. split; [apply declaredOnly_refl|].
    split; [exact H|apply contains_refl].
  - assert (Hshape :
              (exists condition,
                  IfStatement c body = IfStatement condition body) \/
              (exists variable iterable,
                  IfStatement c body = ForStatement variable iterable body) \/
              IfStatement c body = LoopStatement body) by eauto.
    descend_into_body IH Hshape Hin H.
  - assert (Hshape :
              (exists condition,
                  ForStatement v it body = IfStatement condition body) \/
              (exists variable iterable,
                  ForStatement v it body
                  = ForStatement variable iterable body) \/
              ForStatement v it body = LoopStatement body) by eauto.
    descend_into_body IH Hshape Hin H.
  - assert (Hshape :
              (exists condition,
                  LoopStatement body = IfStatement condition body) \/
              (exists variable iterable,
                  LoopStatement body = ForStatement variable iterable body) \/
              LoopStatement body = LoopStatement body) by auto.
    descend_into_body IH Hshape Hin H.
Qed.

(** The text of a statement contains the text [generateNode] gives the
    expression the statement carries. *)
Lemma carried_expression_text s e st out :
  carries s e ->
  fst (generateStatement s st) = Ok out ->
  exists text, generateNode st e = Ok text /\ contains out text.
Proof.
  destruct s as [e'|c body|v it body|body|x e'|ids e'|e']; simpl;
    intros Hc H; try destruct Hc.
  - unfold generateReturnStatement in H. simpl in H.
    rewrite generateAwaitable_generateNode in H.
    destruct (generateNode st e') as [text|]; [|discriminate H].
    injection H as <-. exists text. split; [reflexivity|].
    exists "return ", EmptyString. rewrite append_nil_r. reflexivity.
  - unfold generateIfStatement in H.
    destruct (generateNode st c) as [text|]; [|discriminate H].
    destruct (closeBlock_Ok _ _ H) as (bodyOut & E & ->).
    destruct (generateBody_prefix _ _ _ _ _ _ E) as [rest ->].
    exists text. split; [reflexivity|].
    exists "if (", (") {" +:+ rest +:+ nl +:+ "}").
    rewrite !append_assoc. reflexivity.
  - unfold generateForStatement in H.
    destruct (generateNode st it) as [text|]; [|discriminate H].
    destruct (closeBlock_Ok _ _ H) as (bodyOut & E & ->).
    destruct (generateBody_prefix _ _ _ _ _ _ E) as [rest ->].
    exists text. split; [reflexivity|].
    exists ("for (const " +:+ generateIdentifier v +:+ " of "),
           (") {" +:+ rest +:+ nl +:+ "}").
    rewrite !append_assoc. reflexivity.
  - unfold generateAssignment in H.
    rewrite generateAwaitable_generateNode in H.
    destruct (generateNode st e') as [text|]; [|discriminate H].
    exists text. split; [reflexivity|].
    destruct (negb (isDeclared st (id_name x))); simpl in H;
      injection H as <-.
    + exists ("let " +:+ generateIdentifier x +:+ " = "), EmptyString.
      rewrite !append_assoc, append_nil_r. reflexivity.
    + exists (generateIdentifier x +:+ " = "), EmptyString.
      rewrite !append_assoc, append_nil_r. reflexivity.
  - unfold generateDestructuringAssignment in H.
    rewrite generateAwaitable_generateNode in H.
    destruct (generateNode st e') as [text|]; [|discriminate H].
    simpl in H. injection H as <-. exists text. split; [reflexivity|].
    exists ("const { " +:+ join ", " (map generateIdentifier ids) +:+ " } = "),
           EmptyString.
    rewrite !append_assoc, append_nil_r. reflexivity.
  - unfold generateExpressionStatement in H. simpl in H.
    rewrite generateAwaitable_generateNode in H.
    exists out. split; [exact H|apply contains_refl].
Qed.

(** An expression carried by a statement at any depth of [outer] is in the
    text of [outer] as [generateNode] generates it under the registries of
    the instance that generates [outer]. *)
Lemma enclosed_expression_text outer inner e st out :
  Encloses outer inner -> carries inner e ->
  fst (generateStatement outer st) = Ok out ->
  exists text, generateNode st e = Ok text /\ contains out text.
Proof.
  intros Henc Hcar H.
  destruct (enclosed_statement_text _ _ Henc _ _ H)
    as (st' & t & Hd & Ht & Hc).
  destruct (carried_expression_text _ _ _ _ Hcar Ht) as (text & He & Hc').
  exists text. split; [|eapply contains_trans; eassumption].
  rewrite (generateNode_agree st st' (declaredOnly_registryAgree _ _ Hd)).
  exact He.
Qed.








(** The block of a flow contains, as [generateNode] generates it under the
    registries, every expression carried by a statement at any depth of the
    flow's body. *)
Lemma flow_block_expression_text reg flow outer inner e block :
  hasFlow reg (id_name (flow_name flow)) = true ->
  In outer (flow_body flow) -> Encloses outer inner -> carries inner e ->
  fst (generateFlowDefinition flow reg) = Ok block ->
  exists text, generateNode reg e = Ok text /\ contains block text.
Proof.
  intros Hflow Hin Henc Hcar. unfold generateFlowDefinition.
  fold (flowEntryState flow reg).
  destruct (generateBody generateStatement 2 (flow_body flow) _
                         (flowEntryState flow reg)) as [[code|m] st'] eqn:E;
    [|discriminate].
  intros H. simpl in H. injection H as <-.
  apply (f_equal fst) in E. simpl in E.
  destruct (generateBody_contains _ _ _ _ _ _ Hin E)
    as (st1 & t1 & Hd1 & Ht1 & Hc1).
  destruct (enclosed_expression_text _ _ _ _ _ Henc Hcar Ht1)
    as (text & He & Hc).
  exists text. split.
  - rewrite <- He. apply generateNode_agree.
    eapply registryAgree_trans;
      [apply flowEntryState_registry; exact Hflow|].
    apply declaredOnly_registryAgree. exact Hd1.
  - eapply contains_trans; [|exact Hc].
    eapply contains_trans; [|exact Hc1].
    match goal with
    | |- contains (code +:+ ?post) code =>
        exists EmptyString, post; reflexivity
    end.
Qed.

Lemma call_awaited_iff st callee args out :
  generateNode st (FunctionCall callee args) = Ok out ->
  (awaitedCall callee out <->
   (is_Some (importedPrompts st !! id_name callee) \/
    id_name callee ∈ definedFlows st)).
Proof.
  intros H.
  assert (Hasync : isAsyncCall st (FunctionCall callee args) = true <->
                   (is_Some (importedPrompts st !! id_name callee) \/
                    id_name callee ∈ definedFlows st)).
  { simpl. unfold hasPrompt, hasFlow, generateIdentifier.
    rewrite orb_true_iff, !bool_decide_eq_true. reflexivity. }
  rewrite <- Hasync.
  destruct (generateNode_call_cases st callee args out H)
    as [[Ha Hout]|[Ha (args' & _ & ->)]].
  - split; auto.
  - split.
    + intros Hw. exfalso. apply (plainCallText_not_awaited _ _ Hw).
    + rewrite Ha. discriminate.
Qed.

(** * Main theorems *)

(** C1. On the source expression [true or true and false] the transformer
    builds the tree [(true and true) or false]: the [and] written second is
    applied first. In source order the tree would be
    [(true or true) and false]. The tree of the transformer is worth true,
    and so is the text generated from it, [true && true || false]; flat
    left-to-right evaluation of the source expression gives false. *)
Theorem logical_chain_ands_before_ors :
  transformLogicalExpression chainOrAndCst
  = Ok (LogicalExpression OpOr
          (LogicalExpression OpAnd (BooleanLiteral true) (BooleanLiteral true))
          (BooleanLiteral false)) /\
  leftTree (Ok (BooleanLiteral true))
           (map (fun step : LogicalOperator * bool =>
                   (fst step, Ok (BooleanLiteral (snd step)))) chainOrAnd)
  = Ok (LogicalExpression OpAnd
          (LogicalExpression OpOr (BooleanLiteral true) (BooleanLiteral true))
          (BooleanLiteral false)) /\
  (e ← transformLogicalExpression chainOrAndCst; generateNode newGenerator e)
  = Ok "true && true || false" /\
  (match transformLogicalExpression chainOrAndCst with
   | Ok e => evalBoolean e
   | Throw _ => None
   end) = Some true /\
  evalFlat true chainOrAnd = false.
Proof. repeat split. Qed.

(** C2 as amended. When a source file compiles, the output is the runtime
    text, then one block per import statement in source order, then one
    block per flow definition in source order, each block followed by a
    blank line, then the Main epilogue exactly when a flow is named Main.
    The imports come before the flows wherever they stand in the source. *)
Theorem output_layout_imports_first runtime decls out :
  compileCst (Ok runtime) (scriptCst decls) = Ok out ->
  exists imports flows blocks,
    mapM transformImportStatement (declImports decls) = Ok imports /\
    mapM transformFlowDefinition (declFlows decls) = Ok flows /\
    mapM (declarationBlock (declaredRegistry imports flows))
         (importsFirst decls) = Ok blocks /\
    length blocks = length decls /\
    out = programText runtime blocks (existsb isMain flows).
Proof.
  intros H.
  destruct (mapM transformImportStatement (declImports decls))
    as [imports|m] eqn:Hi.
  2:{ unfold compileCst, transform, scriptCst in H. simpl in H.
      rewrite Hi in H. discriminate H. }
  destruct (mapM transformFlowDefinition (declFlows decls))
    as [flows|m] eqn:Hf.
  2:{ unfold compileCst, transform, scriptCst in H. simpl in H.
      rewrite Hi, Hf in H. discriminate H. }
  rewrite (compileCst_declaredRegistry _ _ _ _ Hi Hf) in H.
  destruct (mapM (fun f => fst (generateFlowDefinition
                                  f (declaredRegistry imports flows))) flows)
    as [blocks|m] eqn:Hb; [|discriminate H].
  simpl in H. injection H as <-.
  exists imports, flows, (map importBlock imports ++ blocks)%list.
  split; [reflexivity|]. split; [reflexivity|].
  assert (E : mapM (declarationBlock (declaredRegistry imports flows))
                   (importsFirst decls)
              = Ok (map importBlock imports ++ blocks)%list).
  { unfold importsFirst. rewrite mapM_app.
    rewrite (declarationBlock_imports _ _ _ Hi).
    rewrite (declarationBlock_flows _ _ _ Hf), Hb. reflexivity. }
  split; [exact E|]. split; [|reflexivity].
  rewrite (mapM_length _ _ _ E). unfold importsFirst.
  rewrite length_app, !length_map. apply declImports_declFlows_length.
Qed.

Lemma output_layout_imports_first_witness :
  exists out,
    compileCst (Ok "RUNTIME") (scriptCst forwardDecls) = Ok out /\
    exists imports flows blocks,
      mapM transformImportStatement (declImports forwardDecls) = Ok imports /\
      mapM transformFlowDefinition (declFlows forwardDecls) = Ok flows /\
      mapM (declarationBlock (declaredRegistry imports flows))
           (importsFirst forwardDecls) = Ok blocks /\
      length blocks = length forwardDecls /\
      out = programText "RUNTIME" blocks (existsb isMain flows).
Proof.
  eexists. split; [vm_compute; reflexivity|].
  apply (output_layout_imports_first "RUNTIME" forwardDecls).
  vm_compute. reflexivity.
Defined.

(** C2 as stated fails: the flow [A] is written before the import, and the
    output has the import block before the block of [A]. *)
Lemma output_not_in_source_order :
  exists out imports flows blocks,
    compileCst (Ok EmptyString) (scriptCst flowThenImportDecls) = Ok out /\
    mapM transformImportStatement (declImports flowThenImportDecls)
    = Ok imports /\
    mapM transformFlowDefinition (declFlows flowThenImportDecls) = Ok flows /\
    mapM (declarationBlock (declaredRegistry imports flows))
         flowThenImportDecls = Ok blocks /\
    out <> programText EmptyString blocks (existsb isMain flows).
Proof.
  do 4 eexists.
  split; [vm_compute; reflexivity|].
  split; [vm_compute; reflexivity|].
  split; [vm_compute; reflexivity|].
  split; [vm_compute; reflexivity|].
  intros H. vm_compute in H. discriminate H.
Qed.

(** C3. For every source file, whatever the order of its declarations: when
    the first statement of the first flow is generated, and from then on,
    the instance classifies as a prompt import exactly the names of the
    file's prompt imports and as a flow exactly the names of the file's flow
    definitions, and holds for every flow name the parameter list of its
    last definition and for every prompt name its last import, schemas
    included. Every flow block of the output is the text
    [generateFlowDefinition] gives under these registries of the whole file,
    so a call to a callee declared further down is generated as it would be
    with the declaration further up. *)
Theorem forward_references_resolved runtime decls imports flows :
  mapM transformImportStatement (declImports decls) = Ok imports ->
  mapM transformFlowDefinition (declFlows decls) = Ok flows ->
  let reg := declaredRegistry imports flows in
  (forall n, hasPrompt reg n = true <-> In n (promptNames imports)) /\
  (forall n, hasFlow reg n = true <-> In n (flowNames flows)) /\
  (forall n, flowParameters reg !! n = paramNames <$> lastDeclared flows n) /\
  (forall n, importedPrompts reg !! n = lastImported imports n) /\
  (forall st,
      let st1 :=
        snd (generateProgramFrom (map TopImport imports) EmptyString
               (collectDefinedFlows
                  (mkProgram (map TopImport imports ++ map TopFlow flows))
                  (resetState st))) in
      registryAgree reg st1 /\ importedPrompts st1 = importedPrompts reg) /\
  compileCst (Ok runtime) (scriptCst decls)
  = (blocks ← mapM (fun f => fst (generateFlowDefinition f reg)) flows;
     Ok (programText runtime (map importBlock imports ++ blocks)
                     (existsb isMain flows))).
Proof.
  intros Hi Hf reg. subst reg.
  split; [intros n; apply declaredRegistry_hasPrompt|].
  split; [intros n; apply declaredRegistry_hasFlow|].
  split; [intros n; apply declaredRegistry_flowParameters|].
  split; [intros n; apply declaredRegistry_importedPrompts|].
  split.
  { intros st st1.
    destruct (registry_before_flows imports flows st) as (H1 & _ & H3).
    split; assumption. }
  apply compileCst_declaredRegistry; assumption.
Qed.

Lemma forward_references_resolved_witness :
  exists imports flows,
    mapM transformImportStatement (declImports forwardDecls) = Ok imports /\
    mapM transformFlowDefinition (declFlows forwardDecls) = Ok flows /\
    hasPrompt (declaredRegistry imports flows) "Ideas" = true /\
    hasFlow (declaredRegistry imports flows) "Later" = true /\
    (exists laterBlock,
        mapM (fun f => fst (generateFlowDefinition
                              f (declaredRegistry imports flows))) flows
        = Ok [mainBlockAwaited; laterBlock]) /\
    compileCst (Ok "RUNTIME") (scriptCst forwardDecls)
    = (blocks ← mapM (fun f => fst (generateFlowDefinition
                                      f (declaredRegistry imports flows)))
                     flows;
       Ok (programText "RUNTIME" (map importBlock imports ++ blocks)
                       (existsb isMain flows))).
Proof.
  do 2 eexists.
  split; [vm_compute; reflexivity|].
  split; [vm_compute; reflexivity|].
  split; [vm_compute; reflexivity|].
  split; [vm_compute; reflexivity|].
  split; [eexists; vm_compute; reflexivity|].
  apply forward_references_resolved; vm_compute; reflexivity.
Defined.

(** C4. [generate] starts by clearing the prompt registry, the symbol
    registry, the defined-flow set, the declared-variable set and the Main
    flag, but not [flowParameters]: the parameter list a previous call
    stored for a flow the present program does not define is still in the
    map when the call returns. *)
Theorem generate_keeps_stale_flowParameters runtime p st n params :
  flowParameters st !! n = Some params ->
  (forall f, In (TopFlow f) (program_body p) -> id_name (flow_name f) <> n) ->
  (importedPrompts (resetState st) = ∅ /\
   importedSymbols (resetState st) = ∅ /\
   definedFlows (resetState st) = ∅ /\
   declaredVariables (resetState st) = ∅ /\
   hasMainFlow (resetState st) = false /\
   flowParameters (resetState st) = flowParameters st) /\
  flowParameters (snd (generate runtime p st)) !! n = Some params.
Proof.
  intros Hstale Hfresh. split; [apply resetState_fields|].
  assert (E : flowParameters (collectDefinedFlows p (resetState st)) !! n
              = Some params).
  { rewrite (collectDefinedFlows_stale _ _ _ Hfresh). exact Hstale. }
  unfold generate. destruct runtime as [code|err]; simpl; [|exact E].
  unfold generateProgram.
  pose proof (generateProgramFrom_flowParameters (program_body p) EmptyString
                (collectDefinedFlows p (resetState st))) as Hq.
  destruct (generateProgramFrom (program_body p) EmptyString _)
    as [[nodes|msg] st']; simpl in *; rewrite Hq; exact E.
Qed.

Lemma generate_keeps_stale_flowParameters_witness :
  flowParameters afterFlowF !! "F" = Some ["x"; "y"] /\
  flowParameters
    (snd (generate (Ok EmptyString) (mkProgram []) afterFlowF)) !! "F"
  = Some ["x"; "y"] /\
  definedFlows (snd (generate (Ok EmptyString) (mkProgram []) afterFlowF))
  = ∅.
Proof.
  assert (H : flowParameters afterFlowF !! "F" = Some ["x"; "y"])
    by (vm_compute; reflexivity).
  split; [exact H|]. split; [|reflexivity].
  apply (generate_keeps_stale_flowParameters (Ok EmptyString) (mkProgram [])
           afterFlowF "F" ["x"; "y"] H).
  intros f [].
Defined.

(** C5. A call to a declared flow F (the call resolves to the flow: the
    callee is in [definedFlows] and is not a prompt import, which the
    generator tries first) whose only
    argument is an object literal with a property for every declared
    parameter of F generates [await F(a1, ..., an)]: one argument per
    declared parameter, in the declared order, each the generated value of
    the property of that name, or the key identifier when the property has
    no value (shorthand). The statement-level path ([generateAsyncCall])
    gives the same text, and writing the properties in another order at the
    call site does not change it. *)
Theorem flow_call_positional st callee properties :
  hasPrompt st (id_name callee) = false ->
  hasFlow st (id_name callee) = true ->
  forallb (hasProperty properties) (declaredParameters st callee) = true ->
  let call := FunctionCall callee [ObjectLiteral properties] in
  let matched :=
    matchingProperties properties (declaredParameters st callee) in
  generateNode st call
  = (args ← mapM (generatePropertyValue (generateNode st)) matched;
     Ok (awaitCallText callee args)) /\
  generateAwaitable st call = generateNode st call /\
  Forall2 (fun q prop => id_name (prop_key prop) = q /\ In prop properties)
          (declaredParameters st callee) matched /\
  (forall properties',
      NoDup (map (fun p => id_name (prop_key p)) properties) ->
      Permutation properties properties' ->
      generateNode st (FunctionCall callee [ObjectLiteral properties'])
      = generateNode st call).
Proof.
  intros Hp Hf Hall call matched. subst call matched.
  assert (Hgen : forall props,
             generateNode st (FunctionCall callee [ObjectLiteral props])
             = (args ← extractArgs (generateNode st) (id_name callee) props
                                   (declaredParameters st callee);
                Ok (awaitCallText callee args))).
  { intros props. rewrite generateNode_FunctionCall.
    rewrite (generateFunctionCall_flow _ _ _ _ Hp Hf). reflexivity. }
  split; [|split; [|split]].
  - rewrite Hgen, (extractArgs_present _ _ _ _ Hall). reflexivity.
  - apply generateAwaitable_generateNode.
  - apply matchingProperties_spec. exact Hall.
  - intros properties' Hnd Hperm. rewrite !Hgen.
    rewrite !extractArgs_lookup.
    rewrite (propsMap_Permutation _ _ Hnd Hperm). reflexivity.
Qed.

Lemma flow_call_positional_witness :
  hasPrompt registryF "F" = false /\
  hasFlow registryF "F" = true /\
  forallb (hasProperty propertiesYX)
          (declaredParameters registryF (mkIdentifier "F")) = true /\
  generateNode registryF
    (FunctionCall (mkIdentifier "F") [ObjectLiteral propertiesYX])
  = Ok ("await F(5, " +:+ dq +:+ "q" +:+ dq +:+ ")").
Proof.
  assert (Hp : hasPrompt registryF (id_name (mkIdentifier "F")) = false)
    by (vm_compute; reflexivity).
  assert (Hf : hasFlow registryF (id_name (mkIdentifier "F")) = true)
    by (vm_compute; reflexivity).
  assert (Hall : forallb (hasProperty propertiesYX)
                   (declaredParameters registryF (mkIdentifier "F")) = true)
    by (vm_compute; reflexivity).
  destruct (flow_call_positional registryF (mkIdentifier "F") propertiesYX
              Hp Hf Hall) as (E & _).
  split; [exact Hp|]. split; [exact Hf|]. split; [exact Hall|].
  rewrite E. vm_compute. reflexivity.
Defined.



(** C7. A call is generated awaited exactly when its callee name is a
    registered prompt import or a declared flow; a call to any other name,
    builtin or unknown, is generated as the plain call (through [_builtins]
    for a builtin), which is not awaited. This holds at every position. The
    four statement forms generate their expression to the very text
    [generateNode] gives it at a nested position, so a return value, the
    right side of an assignment or of a destructuring assignment and a bare
    expression statement all carry the await. Generating statements leaves
    the registries that decide the classification as they were. And the
    block of a flow contains, for every call carried by a statement at any
    depth of if, for and loop bodies, the text of that call, awaited exactly
    when the callee is a prompt import or a flow. *)
Theorem await_iff_declared_callee :
  (forall st callee args out,
      generateNode st (FunctionCall callee args) = Ok out ->
      (awaitedCall callee out <->
       (is_Some (importedPrompts st !! id_name callee) \/
        id_name callee ∈ definedFlows st))) /\
  (forall st callee args out,
      generateNode st (FunctionCall callee args) = Ok out ->
      importedPrompts st !! id_name callee = None ->
      id_name callee ∉ definedFlows st ->
      exists args', mapM (generateNode st) args = Ok args' /\
                    out = plainCallText callee args') /\
  (forall st e, generateAwaitable st e = generateNode st e) /\
  (forall st e,
      fst (generateStatement (ReturnStatement e) st)
      = (code ← generateNode st e; Ok ("return " +:+ code))) /\
  (forall st x e,
      fst (generateStatement (Assignment x e) st)
      = (code ← generateNode st e;
         Ok ((if isDeclared st (id_name x) then EmptyString else "let ")
             +:+ id_name x +:+ " = " +:+ code))) /\
  (forall st ids e,
      fst (generateStatement (DestructuringAssignment ids e) st)
      = (code ← generateNode st e;
         Ok ("const { " +:+ join ", " (map id_name ids) +:+ " } = "
             +:+ code))) /\
  (forall st e,
      fst (generateStatement (ExpressionStatement e) st)
      = generateNode st e) /\
  (forall s st, registryAgree st (snd (generateStatement s st))) /\
  (forall reg flow outer inner callee args block,
      hasFlow reg (id_name (flow_name flow)) = true ->
      In outer (flow_body flow) -> Encloses outer inner ->
      carries inner (FunctionCall callee args) ->
      fst (generateFlowDefinition flow reg) = Ok block ->
      exists text,
        generateNode reg (FunctionCall callee args) = Ok text /\
        contains block text /\
        (awaitedCall callee text <->
         (is_Some (importedPrompts reg !! id_name callee) \/
          id_name callee ∈ definedFlows reg))).
Proof.
  split; [|split; [|split; [|split; [|split; [|split; [|split; [|split]]]]]]].
  - apply call_awaited_iff.
  - intros st callee args out H Hp Hf.
    destruct (generateNode_call_cases st callee args out H)
      as [[Ha _]|[_ Hout]]; [|exact Hout].
    simpl in Ha. unfold hasPrompt, hasFlow, generateIdentifier in Ha.
    apply orb_true_iff in Ha. rewrite !bool_decide_eq_true in Ha.
    destruct Ha as [[x Hx]|Hin]; [congruence|contradiction].
  - apply generateAwaitable_generateNode.
  - intros st e. simpl. unfold generateReturnStatement. simpl.
    rewrite generateAwaitable_generateNode. reflexivity.
  - intros st x e. simpl. unfold generateAssignment.
    rewrite generateAwaitable_generateNode.
    destruct (generateNode st e); [|reflexivity].
    destruct (isDeclared st (id_name x)); reflexivity.
  - intros st ids e. simpl. unfold generateDestructuringAssignment.
    rewrite generateAwaitable_generateNode.
    destruct (generateNode st e); reflexivity.
  - intros st e. simpl. unfold generateExpressionStatement. simpl.
    apply generateAwaitable_generateNode.
  - intros s st. apply declaredOnly_registryAgree.
    apply generateStatement_declaredOnly.
  - intros reg flow outer inner callee args block Hflow Hin Henc Hcar Hblock.
    destruct (flow_block_expression_text _ _ _ _ _ _ Hflow Hin Henc Hcar
                Hblock) as (text & He & Hc).
    exists text. split; [exact He|]. split; [exact Hc|].
    apply (call_awaited_iff _ _ _ _ He).
Qed.

Lemma await_iff_declared_callee_witness :
  generateNode registryIdeasF callIdeas = Ok "await Ideas({ company })" /\
  awaitedCall (mkIdentifier "Ideas") "await Ideas({ company })" /\
  fst (generateStatement forWithCall registryIdeasF)
  = Ok ("for (const idea of ideas) {" +:+ nl +:+
        "  let result = await Ideas({ company });" +:+ nl +:+ "}").
Proof.
  assert (E : generateNode registryIdeasF callIdeas
              = Ok "await Ideas({ company })") by (vm_compute; reflexivity).
  destruct await_iff_declared_callee as (Hiff & _).
  split; [exact E|]. split.
  - apply (Hiff registryIdeasF (mkIdentifier "Ideas") _ _ E).
    left. vm_compute. eauto.
  - vm_compute. reflexivity.
Defined.



(** C9. The gate of the destructuring alternative returns true exactly when
    the coming tokens open with a brace, the forward scan, which tracks the
    brace depth and stops at lookahead index 20, sees the depth return to
    zero, and the token right after that closing brace is [=]. It is true on
    [{ a, b } = f()]. It is false on [x = { a: 1 }], which opens with
    [Identifier Equals] as rule [assignment] does, so that statement is an
    assignment whose value is the object literal. *)
Theorem destructuring_gate :
  (forall input,
      Parser.isDestructuringAssignment input = true <->
      Parser.destructuringShape input) /\
  Parser.isDestructuringAssignment Parser.destructuringTokens = true /\
  Parser.isDestructuringAssignment Parser.objectAssignmentTokens = false /\
  Parser.opensAssignment Parser.objectAssignmentTokens = true.
Proof.
  split; [exact ParserProperties.isDestructuringAssignment_shape|].
  split; [reflexivity|]. split; reflexivity.
Qed.

Lemma destructuring_gate_witness :
  Parser.destructuringShape Parser.destructuringTokens.
Proof.
  apply (proj1 destructuring_gate Parser.destructuringTokens). reflexivity.
Defined.

(** C10. A call whose callee is a registered prompt import and that has at
    least one argument generates [await NAME(A)] where [A] is the generated
    text of the first argument, whatever node type it is; the arguments after
    the first are not generated, so they leave no trace and raise nothing,
    and the call generates as the call with the first argument alone. The
    statement-level path gives the same. *)
Theorem prompt_call_first_argument st callee arg0 rest :
  hasPrompt st (id_name callee) = true ->
  let call := FunctionCall callee (arg0 :: rest) in
  generateNode st call
  = (a ← generateNode st arg0;
     Ok ("await " +:+ id_name callee +:+ "(" +:+ a +:+ ")")) /\
  generateAwaitable st call = generateNode st call /\
  generateNode st call = generateNode st (FunctionCall callee [arg0]).
Proof.
  intros Hp call. subst call.
  rewrite !generateNode_FunctionCall. unfold generateFunctionCall.
  unfold generateIdentifier. rewrite Hp.
  split; [reflexivity|]. split; [|reflexivity].
  rewrite generateAwaitable_generateNode, generateNode_FunctionCall.
  unfold generateFunctionCall, generateIdentifier. rewrite Hp. reflexivity.
Qed.

(** [Ideas(topic, F({ x: 5 }))]: the second argument would throw if it were
    generated. *)
Lemma prompt_call_first_argument_witness :
  hasPrompt registryIdeasF "Ideas" = true /\
  generateNode registryIdeasF
    (FunctionCall (mkIdentifier "Ideas")
       [Ident (mkIdentifier "topic");
        FunctionCall (mkIdentifier "F") [ObjectLiteral propertiesX]])
  = Ok "await Ideas(topic)".
Proof.
  assert (Hp : hasPrompt registryIdeasF (id_name (mkIdentifier "Ideas")) = true)
    by (vm_compute; reflexivity).
  destruct (prompt_call_first_argument registryIdeasF (mkIdentifier "Ideas")
              (Ident (mkIdentifier "topic"))
              [FunctionCall (mkIdentifier "F") [ObjectLiteral propertiesX]]
              Hp) as (E & _).
  split; [exact Hp|]. rewrite E. reflexivity.
Defined.

(** * Further properties *)

(** ** The lexer *)

Module LexerProperties.
Import Parser Lexer.

Lemma substring_skip n : forall s, String.substring 0 n s +:+ skip n s = s.
Proof.
  induction n as [|n IH]; intros [|c s]; try reflexivity.
  simpl. rewrite append_String. f_equal. apply IH.
Qed.

Lemma skip_length n : forall s,
  String.length (skip n s) = String.length s - n.
Proof.
  induction n as [|n IH]; intros [|c s]; simpl; try reflexivity.
  apply IH.
Qed.

Lemma word_progress w text n :
  1 <= String.length w -> word w text = Some n -> 1 <= n.
Proof.
  unfold word. destruct (String.prefix w text); [|discriminate].
  intros Hw H. injection H as <-. exact Hw.
Qed.

Lemma allTokens_progress : Forall (fun d => progresses (snd d)) allTokens.
Proof.
  unfold allTokens.
  repeat (apply Forall_cons; split); try (apply Forall_nil; exact I).
  all: try (intros text n; simpl; apply word_progress; simpl; lia).
  - intros text n. unfold whiteSpacePattern. simpl.
    destruct (span whiteSpace text); [discriminate|].
    intros H. injection H as <-. lia.
  - intros text n. unfold stringLiteralPattern. simpl.
    destruct text as [|c s]; [discriminate|].
    destruct (isCode 34 c); [|discriminate].
    destruct (stringTail s); simpl; [|discriminate].
    intros H. injection H as <-. lia.
  - intros text n. unfold numberLiteralPattern. simpl.
    destruct (integerPart _) as [m|] eqn:E; [|discriminate].
    intros H. injection H as <-.
    assert (1 <= m); [|lia].
    unfold integerPart in E.
    destruct (skip _ text) as [|c s]; [discriminate|].
    destruct (isCode 48 c); [injection E as <-; lia|].
    destruct (inRange 49 57 c); [injection E as <-; lia|discriminate].
  - intros text n. unfold booleanLiteralPattern. simpl.
    destruct (String.prefix "true" text); [intros H; injection H as <-; lia|].
    destruct (String.prefix "false" text); [|discriminate].
    intros H; injection H as <-; lia.
  - intros text n. unfold identifierPattern. simpl.
    destruct text as [|c s]; [discriminate|].
    destruct (identifierStart c); [|discriminate].
    intros H. injection H as <-. lia.
Qed.

Lemma matchFirst_In definitions text type n :
  matchFirst definitions text = Some (type, n) ->
  exists pre pattern post,
    definitions = (pre ++ (type, pattern) :: post)%list /\
    pattern text = Some n /\
    Forall (fun d : TokenDefinition => snd d text = None) pre.
Proof.
  induction definitions as [|[ty p] rest IH]; [discriminate|].
  simpl. destruct (p text) as [m|] eqn:E.
  - intros H. injection H as <- <-. exists [], p, rest.
    split; [reflexivity|]. split; [exact E|constructor].
  - intros H. destruct (IH H) as (pre & pattern & post & -> & Hp & Hpre).
    exists ((ty, p) :: pre), pattern, post.
    split; [reflexivity|]. split; [exact Hp|].
    constructor; [exact E|exact Hpre].
Qed.

Lemma matchFirst_progress text type n :
  matchFirst allTokens text = Some (type, n) -> 1 <= n.
Proof.
  intros H. destruct (matchFirst_In _ _ _ _ H) as (pre & p & post & E & Hp & _).
  pose proof allTokens_progress as Hall. rewrite E in Hall.
  apply Forall_app in Hall. destruct Hall as [_ Hall].
  apply Forall_cons in Hall. destruct Hall as [Hall _].
  exact (Hall _ _ Hp).
Qed.

Lemma tokenizeFrom_text fuel : forall text,
  String.length text <= fuel -> textOf (tokenizeFrom fuel text) = text.
Proof.
  induction fuel as [|fuel IH]; intros text Hlen.
  - destruct text; [reflexivity|simpl in Hlen; lia].
  - destruct text as [|c rest]; [reflexivity|].
    cbn [tokenizeFrom].
    destruct (matchFirst allTokens (String c rest)) as [[type n]|] eqn:E.
    + pose proof (matchFirst_progress _ _ _ E) as Hn.
      cbn [textOf foldr lexemeText].
      fold (textOf (tokenizeFrom fuel (skip n (String c rest)))).
      rewrite IH.
      * apply substring_skip.
      * rewrite skip_length. simpl in *. lia.
    + cbn [textOf foldr lexemeText].
      fold (textOf (tokenizeFrom fuel rest)).
      rewrite IH by (simpl in Hlen; lia). reflexivity.
Qed.

(** Where a lexeme comes from: a match of [matchFirst] at the start of some
    rest of the text. *)
Lemma tokenizeFrom_Matched fuel type image : forall text,
  List.In (Matched type image) (tokenizeFrom fuel text) ->
  exists rest n,
    matchFirst allTokens rest = Some (type, n) /\
    image = String.substring 0 n rest.
Proof.
  induction fuel as [|fuel IH]; intros text Hin; [destruct Hin|].
  destruct text as [|c rest]; [destruct Hin|].
  cbn [tokenizeFrom] in Hin.
  destruct (matchFirst allTokens (String c rest)) as [[ty n]|] eqn:E.
  - destruct Hin as [Hin|Hin].
    + injection Hin as -> <-. exists (String c rest), n.
      split; [exact E|reflexivity].
    + exact (IH _ Hin).
  - destruct Hin as [Hin|Hin]; [discriminate Hin|exact (IH _ Hin)].
Qed.

Lemma prefix_substring w n : forall s,
  String.prefix w (String.substring 0 n s) = true ->
  String.prefix w s = true.
Proof.
  revert n. induction w as [|a w IH]; intros n s H.
  - destruct s; reflexivity.
  - destruct n as [|n], s as [|c s]; simpl in H; try discriminate H.
    simpl. destruct (Ascii.ascii_dec a c) as [->|]; [|discriminate H].
    exact (IH _ _ H).
Qed.

Lemma word_None w text : word w text = None -> String.prefix w text = false.
Proof. unfold word. destruct (String.prefix w text); [discriminate|auto]. Qed.

(** When the token type found is [Identifier], no reserved word starts the
    text. *)
Lemma matchFirst_Identifier text n :
  matchFirst allTokens text = Some (Some Identifier, n) ->
  identifierPattern text = Some n /\
  Forall (fun w => String.prefix w text = false) reservedWords.
Proof.
  unfold allTokens. cbn [matchFirst].
  repeat match goal with
         | |- context [match ?p text with _ => _ end] =>
             let E := fresh "E" in
             destruct (p text) eqn:E; [intros H; try discriminate H|]
         end.
  - injection H as ->. split; [reflexivity|].
    unfold booleanLiteralPattern in *.
    destruct (String.prefix "true" text) eqn:Et; [discriminate|].
    destruct (String.prefix "false" text) eqn:Ef; [discriminate|].
    unfold reservedWords.
    repeat (apply Forall_cons; split; [auto using word_None|]).
    apply Forall_nil. exact I.
  - discriminate.
Qed.

Lemma matchFirst_StringLiteral text n :
  matchFirst allTokens text = Some (Some StringLiteral, n) ->
  stringLiteralPattern text = Some n.
Proof.
  unfold allTokens. cbn [matchFirst].
  repeat match goal with
         | |- context [match ?p text with _ => _ end] =>
             let E := fresh "E" in
             destruct (p text) eqn:E; [intros H; try discriminate H|]
         end.
  - injection H as ->. reflexivity.
  - discriminate.
Qed.

Lemma stringTail_shape : forall s n,
  stringTail s = Some n ->
  exists body, String.substring 0 n s = body +:+ dq.
Proof.
  fix IH 1. intros [|c s] n H; [discriminate H|].
  cbn [stringTail] in H.
  destruct (isCode 34 c) eqn:Eq.
  - injection H as <-. exists EmptyString.
    unfold isCode, code in Eq. apply Nat.eqb_eq in Eq.
    assert (c = Ascii.ascii_of_nat 34)
      by (rewrite <- Eq; symmetry; apply Ascii.ascii_nat_embedding).
    subst c. destruct s; reflexivity.
  - destruct (isCode 92 c).
    + destruct s as [|d s]; [discriminate H|].
      destruct (lineTerminator d); [discriminate H|].
      destruct (stringTail s) as [m|] eqn:E; [|discriminate H].
      simpl in H. injection H as <-.
      destruct (IH s m E) as (body & Hb).
      exists (String c (String d body)). simpl. rewrite Hb. reflexivity.
    + destruct (stringTail s) as [m|] eqn:E; [|discriminate H].
      simpl in H. injection H as <-.
      destruct (IH s m E) as (body & Hb).
      exists (String c body). simpl. rewrite Hb. reflexivity.
Qed.

Lemma stringLiteralPattern_shape text n :
  stringLiteralPattern text = Some n ->
  exists body, String.substring 0 n text = dq +:+ body +:+ dq.
Proof.
  unfold stringLiteralPattern. destruct text as [|c s]; [discriminate|].
  destruct (isCode 34 c) eqn:Eq; [|discriminate].
  destruct (stringTail s) as [m|] eqn:E; [|discriminate].
  simpl. intros H. injection H as <-.
  destruct (stringTail_shape s m E) as (body & Hb).
  exists body. simpl. rewrite Hb.
  unfold isCode, code in Eq. apply Nat.eqb_eq in Eq.
  assert (c = Ascii.ascii_of_nat 34)
    by (rewrite <- Eq; symmetry; apply Ascii.ascii_nat_embedding).
  subst c. reflexivity.
Qed.

End LexerProperties.

Lemma tokens_In ls type image :
  In (type, image) (Lexer.tokens ls) ->
  In (Lexer.Matched (Some type) image) ls.
Proof.
  induction ls as [|l ls IH]; [intros []|].
  unfold Lexer.tokens. cbn [omap list_omap].
  destruct l as [[t|] img|c]; simpl.
  - intros [H|H]; [left; congruence|right; exact (IH H)].
  - intros H. right. exact (IH H).
  - intros H. right. exact (IH H).
Qed.

(** X1. The lexer loses no text: every character of the input is in exactly
    one lexeme, a token image, a skipped run of white space or a character
    dropped by error recovery, and the lexemes in order spell the input. In
    particular the lexer reaches the end of every input. *)
Theorem lexer_loses_no_text text : textOf (Lexer.lexemes text) = text.
Proof. apply LexerProperties.tokenizeFrom_text. reflexivity. Qed.

(** X2. The image of an [Identifier] token never begins with a keyword or a
    boolean literal: the keyword token types stand before [Identifier] in
    [allTokens] and the first type that matches wins, so a name such as
    [format] is lexed as the keyword [for] and the identifier [mat]. *)
Theorem identifier_never_starts_with_reserved_word text image w :
  In (Parser.Identifier, image) (Lexer.tokens (Lexer.lexemes text)) ->
  In w reservedWords ->
  String.prefix w image = false.
Proof.
  intros Hin Hw. apply tokens_In in Hin.
  destruct (LexerProperties.tokenizeFrom_Matched _ _ _ _ Hin)
    as (rest & n & Hm & ->).
  destruct (LexerProperties.matchFirst_Identifier _ _ Hm) as [_ Hall].
  rewrite Forall_forall in Hall. apply list_elem_of_In in Hw.
  specialize (Hall _ Hw).
  destruct (String.prefix w (String.substring 0 n rest)) eqn:E;
    [|reflexivity].
  apply LexerProperties.prefix_substring in E. congruence.
Qed.

(** The name [format]. *)
Lemma identifier_never_starts_with_reserved_word_witness :
  Lexer.tokens (Lexer.lexemes "format")
  = [(Parser.For, "for"); (Parser.Identifier, "mat")] /\
  String.prefix "for" "mat" = false.
Proof.
  split; [vm_compute; reflexivity|].
  apply (identifier_never_starts_with_reserved_word "format" "mat" "for").
  - vm_compute. right. left. reflexivity.
  - vm_compute. tauto.
Defined.

(** ** The gate of the destructuring alternative *)

Module GateProperties.
Import Parser.

Lemma identifierList_length n : 1 <= n -> length (identifierList n) = 2 * n - 1.
Proof.
  induction n as [|n IH]; intros Hn; [lia|].
  destruct n as [|n]; [reflexivity|].
  change (identifierList (S (S n)))
    with (Identifier :: Comma :: identifierList (S n)).
  cbn [length]. rewrite IH by lia. lia.
Qed.

Lemma identifierList_braceFree n : braceFree (identifierList n).
Proof.
  unfold braceFree.
  induction n as [|n IH]; [constructor|].
  destruct n as [|n]; [repeat constructor; discriminate|].
  change (identifierList (S (S n)))
    with (Identifier :: Comma :: identifierList (S n)).
  repeat constructor; try discriminate. exact IH.
Qed.

Lemma braceDelta_braceFree t :
  t <> LCurly /\ t <> RCurly -> braceDelta t = 0%Z.
Proof. intros [H1 H2]. destruct t; try reflexivity; contradiction. Qed.

Lemma LA_cons t input i : 1 <= i -> LA (t :: input) (S i) = LA input i.
Proof.
  intros Hi. unfold LA. destruct i as [|i]; [lia|]. simpl.
  rewrite Nat.sub_0_r. reflexivity.
Qed.

Lemma LA_app_l l k i : 1 <= i <= length l -> LA (l ++ k) i = LA l i.
Proof.
  intros Hi. unfold LA. apply app_nth1. lia.
Qed.

Lemma LA_app_r l k i : LA (l ++ k) (length l + i) = LA k i \/ i = 0.
Proof.
  destruct i as [|i]; [right; reflexivity|left].
  unfold LA. rewrite app_nth2 by lia. f_equal. lia.
Qed.

Lemma depthAfter_pattern mid after j :
  braceFree mid -> 1 <= j <= S (length mid) ->
  depthAfter (LCurly :: mid ++ RCurly :: after) j = 1%Z.
Proof.
  intros Hfree. induction j as [|j IH]; intros Hj; [lia|].
  cbn [depthAfter]. destruct j as [|j].
  - reflexivity.
  - rewrite IH by lia. rewrite LA_cons by lia.
    rewrite LA_app_l by lia.
    assert (Hb : braceDelta (LA mid (S j)) = 0%Z).
    { apply braceDelta_braceFree. unfold braceFree in Hfree.
      rewrite Forall_forall in Hfree. apply Hfree.
      unfold LA. apply list_elem_of_In. apply nth_In. lia. }
    rewrite Hb. reflexivity.
Qed.

Lemma closesAt_pattern mid after :
  braceFree mid ->
  closesAt (LCurly :: mid ++ RCurly :: after) (length mid + 2).
Proof.
  intros Hfree. split.
  - replace (length mid + 2) with (S (S (length mid))) by lia.
    rewrite ParserProperties.depthAfter_S.
    rewrite depthAfter_pattern; [|exact Hfree|lia].
    rewrite LA_cons by lia.
    destruct (LA_app_r mid (RCurly :: after) 1) as [E|E]; [|discriminate E].
    replace (S (length mid)) with (length mid + 1) by lia.
    rewrite E. reflexivity.
  - intros j Hj. rewrite depthAfter_pattern; [lia|exact Hfree|lia].
Qed.

(** On a pattern without inner braces the gate answers by the length of the
    pattern and the token after the closing brace. *)
Lemma gate_pattern_length mid after :
  braceFree mid ->
  (isDestructuringAssignment (LCurly :: mid ++ RCurly :: after) = true <->
   length mid <= 17 /\ LA after 1 = Equals).
Proof.
  intros Hfree. rewrite ParserProperties.isDestructuringAssignment_shape.
  pose proof (closesAt_pattern mid after Hfree) as Hc.
  assert (Hnext : LA (LCurly :: mid ++ RCurly :: after) (S (length mid + 2))
                  = LA after 1).
  { rewrite LA_cons by lia.
    destruct (LA_app_r mid (RCurly :: after) 2) as [E|E]; [|discriminate E].
    rewrite E. reflexivity. }
  unfold destructuringShape. split.
  - intros (Hfirst & k & Hk & Hck & Heq).
    assert (Hk1 : 1 <= k).
    { destruct k as [|k]; [|lia]. rewrite Hfirst in Heq. discriminate Heq. }
    assert (k = length mid + 2)
      by (eapply ParserProperties.closesAt_unique; eauto; lia).
    subst k. unfold lookaheadLimit in Hk. rewrite Hnext in Heq.
    split; [lia|exact Heq].
  - intros [Hlen Heq]. split; [reflexivity|].
    exists (length mid + 2). unfold lookaheadLimit.
    split; [lia|]. split; [exact Hc|]. rewrite Hnext. exact Heq.
Qed.

End GateProperties.

(** X3. On a brace pattern without inner braces the gate is true exactly
    when at most 17 tokens stand between the braces and [=] follows the
    closing brace: the scan gives up at lookahead index 20. So a
    destructuring pattern of names separated by commas passes the gate with
    up to nine names and is turned away with ten or more, although rule
    [destructuringAssignment] puts no bound on the number of names. *)
Theorem destructuring_gate_pattern_length :
  (forall mid after,
      braceFree mid ->
      (Parser.isDestructuringAssignment
         (Parser.LCurly :: mid ++ Parser.RCurly :: after) = true <->
       length mid <= 17 /\ Parser.LA after 1 = Parser.Equals)) /\
  (forall n after,
      1 <= n ->
      (Parser.isDestructuringAssignment
         (Parser.LCurly :: identifierList n
          ++ Parser.RCurly :: Parser.Equals :: after) = true
       <-> n <= 9)).
Proof.
  split; [exact GateProperties.gate_pattern_length|].
  intros n after Hn.
  rewrite (GateProperties.gate_pattern_length (identifierList n)
             (Parser.Equals :: after)
             (GateProperties.identifierList_braceFree n)).
  rewrite GateProperties.identifierList_length by exact Hn.
  split; [intros [H _]; lia|intros H; split; [lia|reflexivity]].
Qed.

(** Nine names pass the gate, ten do not. *)
Lemma destructuring_gate_pattern_length_witness :
  Parser.isDestructuringAssignment
    (Parser.LCurly :: identifierList 9
     ++ Parser.RCurly :: Parser.Equals :: [Parser.Identifier]) = true /\
  Parser.isDestructuringAssignment
    (Parser.LCurly :: identifierList 10
     ++ Parser.RCurly :: Parser.Equals :: [Parser.Identifier]) <> true.
Proof.
  destruct destructuring_gate_pattern_length as [_ H].
  split.
  - apply (H 9 [Parser.Identifier]); lia.
  - intros E. apply (H 10 [Parser.Identifier]) in E; lia.
Defined.

(** ** The transformer *)

Lemma substring_0_append (a b : string) :
  String.substring 0 (String.length a) (a +:+ b) = a.
Proof.
  induction a as [|c a IH].
  - rewrite append_nil_l. destruct b; reflexivity.
  - rewrite append_String. simpl. f_equal. exact IH.
Qed.

Lemma length_append (a b : string) :
  String.length (a +:+ b) = String.length a + String.length b.
Proof.
  induction a as [|c a IH]; [rewrite append_nil_l; reflexivity|].
  rewrite append_String. simpl. f_equal. exact IH.
Qed.

Lemma sliceQuotes_quoted body : sliceQuotes (dq +:+ body +:+ dq) = body.
Proof.
  unfold sliceQuotes.
  change (dq +:+ body +:+ dq)
    with (String (Ascii.ascii_of_nat 34) (body +:+ dq)).
  cbn [String.length String.substring].
  rewrite length_append. change (String.length dq) with 1.
  replace (S (String.length body + 1) - 2) with (String.length body) by lia.
  apply substring_0_append.
Qed.

Lemma getImageWithoutQuotes_quoted body :
  getImageWithoutQuotes (mkToken (dq +:+ body +:+ dq)) = body.
Proof.
  unfold getImageWithoutQuotes. simpl image.
  change (dq +:+ body +:+ dq)
    with (String (Ascii.ascii_of_nat 34) (body +:+ dq)).
  cbn [String.length].
  rewrite length_append. change (String.length dq) with 1.
  replace (S (String.length body + 1) =? 1)%nat with false
    by (symmetry; apply Nat.eqb_neq; lia).
  cbn [String.substring].
  replace (S (String.length body + 1) - 2) with (String.length body) by lia.
  apply substring_0_append.
Qed.

(** A quoted text goes through the transformer and the generator
    unchanged. *)
Lemma stringLiteral_quoted st body :
  (e ← transformExpression (stringLiteralCst (dq +:+ body +:+ dq));
   generateNode st e)
  = Ok (dq +:+ body +:+ dq).
Proof.
  unfold stringLiteralCst, primaryExpr.
  simpl. unfold chainOperators, operandAt. simpl.
  unfold transformStringLiteral. simpl image. rewrite sliceQuotes_quoted.
  reflexivity.
Qed.

(** X4. A string literal is emitted exactly as it was written. The
    transformer drops the first and the last character of the image and the
    generator puts a double quote on either side, so any text between double
    quotes comes back unchanged; and every [StringLiteral] token of the lexer
    is such a text, escapes included, which are neither decoded nor
    re-encoded. *)
Theorem string_literal_round_trip st :
  (forall body,
      (e ← transformExpression (stringLiteralCst (dq +:+ body +:+ dq));
       generateNode st e)
      = Ok (dq +:+ body +:+ dq)) /\
  (forall text image,
      In (Parser.StringLiteral, image) (Lexer.tokens (Lexer.lexemes text)) ->
      (e ← transformExpression (stringLiteralCst image); generateNode st e)
      = Ok image).
Proof.
  split; [apply stringLiteral_quoted|].
  intros text image Hin. apply tokens_In in Hin.
  destruct (LexerProperties.tokenizeFrom_Matched _ _ _ _ Hin)
    as (rest & n & Hm & ->).
  apply LexerProperties.matchFirst_StringLiteral in Hm.
  destruct (LexerProperties.stringLiteralPattern_shape _ _ Hm)
    as (body & ->).
  apply stringLiteral_quoted.
Qed.

(** The source text of [say] and a literal that holds an escaped quote. *)
Lemma string_literal_round_trip_witness :
  Lexer.tokens (Lexer.lexemes escapedQuoteText)
  = [(Parser.Identifier, "say");
     (Parser.StringLiteral, dq +:+ "a\" +:+ dq +:+ "b" +:+ dq)] /\
  (e ← transformExpression
         (stringLiteralCst (dq +:+ "a\" +:+ dq +:+ "b" +:+ dq));
   generateNode newGenerator e)
  = Ok (dq +:+ "a\" +:+ dq +:+ "b" +:+ dq).
Proof.
  split; [vm_compute; reflexivity|].
  apply (proj2 (string_literal_round_trip newGenerator) escapedQuoteText).
  vm_compute. right. left. reflexivity.
Defined.

Lemma regularProperties_zip names values :
  length names = length values ->
  regularProperties names values
  = mapM (fun entry : Token * result Expression =>
            value ← snd entry;
            Ok (mkProperty (transformIdentifier (fst entry)) (Some value)
                           false))
         (zip names values).
Proof.
  intros Hlen. unfold regularProperties.
  assert (G : forall pre names vs,
             length names = length vs ->
             values = (pre ++ vs)%list ->
             mapM (fun entry : nat * Token =>
                     match values with
                     | [] => Throw typeError
                     | _ :: _ =>
                         match values !! fst entry with
                         | Some r =>
                             value ← r;
                             Ok (mkProperty (transformIdentifier (snd entry))
                                            (Some value) false)
                         | None =>
                             Ok (mkProperty (transformIdentifier (snd entry))
                                            None false)
                         end
                     end)
                  (zip (seq (length pre) (length names)) names)
             = mapM (fun entry : Token * result Expression =>
                       value ← snd entry;
                       Ok (mkProperty (transformIdentifier (fst entry))
                                      (Some value) false))
                    (zip names vs)).
  { intros pre ns. revert pre.
    induction ns as [|n ns IH]; intros pre vs Hl Hv; [reflexivity|].
    destruct vs as [|v vs]; [discriminate Hl|].
    simpl.
    assert (Hlook : values !! length pre = Some v).
    { rewrite Hv. rewrite lookup_app_r by lia.
      replace (length pre - length pre) with 0 by lia. reflexivity. }
    rewrite Hlook.
    destruct values as [|v0 values']; [destruct pre; discriminate Hv|].
    specialize (IH (pre ++ [v])%list vs).
    rewrite length_app in IH. simpl in IH.
    replace (length pre + 1) with (S (length pre)) in IH by lia.
    rewrite IH; [reflexivity|simpl in Hl; lia|].
    rewrite Hv, <- app_assoc. reflexivity. }
  apply (G [] names values Hlen eq_refl).
Qed.

Lemma mapM_map {A B C : Type} (f : B -> result C) (g : A -> B) (l : list A) :
  mapM f (map g l) = mapM (fun x => f (g x)) l.
Proof.
  induction l as [|x l IH]; simpl; [reflexivity|]. rewrite IH. reflexivity.
Qed.

Lemma transformObjectLiteral_unfold propertyName expression shorthand :
  transformObjectLiteral
    (CstObjectLiteral propertyName expression shorthand)
  = (regular ← regularProperties propertyName
                                 (map transformExpression expression);
     Ok (ObjectLiteral (regular ++ shorthandProperties shorthand))).
Proof. reflexivity. Qed.

(** X5. The properties of an object literal are reordered: the transformer
    returns every [name: value] property, in the order written, before every
    shorthand property, in the order written, wherever the shorthand ones
    stood in the source. An entry whose value does not transform makes the
    whole literal throw. *)
Theorem object_literal_regular_before_shorthand entries :
  transformObjectLiteral (objectLiteralCst entries)
  = (regular ← mapM (fun e : string * ExpressionCst =>
                       value ← transformExpression (snd e);
                       Ok (mkProperty (mkIdentifier (fst e)) (Some value)
                                      false))
                    (regularEntries entries);
     Ok (ObjectLiteral
           (regular ++
            map (fun n => mkProperty (mkIdentifier n) None true)
                (shorthandEntries entries)))).
Proof.
  unfold objectLiteralCst. rewrite transformObjectLiteral_unfold.
  rewrite regularProperties_zip by (rewrite !length_map; reflexivity).
  rewrite map_map.
  rewrite (zip_map_same (fun e : string * ExpressionCst => mkToken (fst e))
             (fun e => transformExpression (snd e))).
  rewrite mapM_map. unfold shorthandProperties. rewrite map_map.
  reflexivity.
Qed.

Lemma transformSymbolImport_snoc ids word path :
  transformSymbolImport (CstSymbolImport (ids ++ [word]) [path])
  = Ok (mkSymbolImport (map transformIdentifier ids)
                       (getImageWithoutQuotes path)).
Proof.
  unfold transformSymbolImport.
  cbn [symbolImport_Identifier symbolImport_StringLiteral].
  destruct (ids ++ [word])%list as [|t ts] eqn:El.
  { destruct ids; discriminate El. }
  rewrite <- El, removelast_last. reflexivity.
Qed.

(** X6. The word between the closing brace of a symbol import and its path
    is not checked: rule [symbolImport] takes any identifier there, the
    transformer drops it, and the generated import is the same whatever the
    word was. *)
Theorem symbol_import_word_unchecked names word path st :
  transformImportStatement (symbolImportCst names word path)
  = Ok (mkImportStatement ImportSymbol None
          (Some (mkSymbolImport (map mkIdentifier names) path))) /\
  (i ← transformImportStatement (symbolImportCst names word path);
   fst (generateImportStatement i st))
  = Ok ("import { " +:+ join ", " names +:+ " } from " +:+ dq +:+ path
        +:+ dq +:+ ";").
Proof.
  assert (E : transformImportStatement (symbolImportCst names word path)
              = Ok (mkImportStatement ImportSymbol None
                      (Some (mkSymbolImport (map mkIdentifier names) path)))).
  { unfold symbolImportCst, transformImportStatement.
    cbn [importStatement_promptImport importStatement_symbolImport].
    rewrite transformSymbolImport_snoc, getImageWithoutQuotes_quoted.
    rewrite map_map. reflexivity. }
  split; [exact E|]. rewrite E. cbn.
  rewrite map_map. cbn. rewrite map_id. reflexivity.
Qed.

Lemma transformDotAccess_unfold object IdentifierTok LParenTok argumentList
      dotAccess :
  transformDotAccess object
    (CstDotAccess IdentifierTok LParenTok argumentList dotAccess)
  = match IdentifierTok with
    | [] => Throw typeError
    | id :: _ =>
        let propName := transformIdentifier id in
        if present LParenTok then
          args ← match argumentList with
                 | a :: _ => transformArgumentList a
                 | [] => Ok []
                 end;
          let methodCall := MethodCall object propName args in
          match dotAccess with
          | d :: _ => transformDotAccess methodCall d
          | [] => Ok methodCall
          end
        else
          let memberExpr := MemberExpression object propName in
          match dotAccess with
          | d :: _ => transformDotAccess memberExpr d
          | [] => Ok memberExpr
          end
    end.
Proof. reflexivity. Qed.

(** X7. A chain of property accesses and method calls is emitted as it is
    written: when the transformer accepts the chain after [object], the
    generated text is the text of [object] followed by [.name] for every
    property and [.name(arguments)] for every method call, in source order,
    with nothing added. *)
Theorem dot_chain_emitted_as_written st :
  forall cst object e,
    transformDotAccess object cst = Ok e ->
    generateNode st e
    = (o ← generateNode st object;
       chain ← dotAccessText st cst;
       Ok (o +:+ chain)).
Proof.
  fix IH 1. intros [ids lp argl dots] object e H.
  rewrite transformDotAccess_unfold in H.
  destruct ids as [|id ids]; [discriminate H|].
  cbn [dotAccessText]. cbv zeta in H.
  destruct (present lp).
  - destruct (match argl with
              | a :: _ => transformArgumentList a
              | [] => Ok []
              end) as [args|] eqn:Ea; [|discriminate H].
    simpl in H.
    destruct dots as [|d ds].
    + injection H as <-. simpl. unfold generateMethodCall.
      destruct (generateNode st object) as [o|]; simpl; [|reflexivity].
      destruct (mapM (generateNode st) args) as [args'|]; simpl;
        [|reflexivity].
      rewrite ?append_assoc. reflexivity.
    + rewrite (IH d _ _ H). simpl. unfold generateMethodCall.
      destruct (generateNode st object) as [o|]; simpl; [|reflexivity].
      destruct (mapM (generateNode st) args) as [args'|]; simpl;
        [|reflexivity].
      destruct (dotAccessText st d) as [rest|]; simpl; [|reflexivity].
      rewrite ?append_assoc. reflexivity.
  - destruct dots as [|d ds].
    + injection H as <-. simpl. unfold generateMemberExpression.
      destruct (generateNode st object) as [o|]; simpl; [|reflexivity].
      reflexivity.
    + rewrite (IH d _ _ H). simpl. unfold generateMemberExpression.
      destruct (generateNode st object) as [o|]; simpl; [|reflexivity].
      destruct (dotAccessText st d) as [rest|]; simpl; [|reflexivity].
      rewrite ?append_assoc. reflexivity.
Qed.

(** The chain [.trim().length] after [name]. *)
Lemma dot_chain_emitted_as_written_witness :
  transformDotAccess (Ident (mkIdentifier "name")) trimLengthCst
  = Ok (MemberExpression
          (MethodCall (Ident (mkIdentifier "name")) (mkIdentifier "trim") [])
          (mkIdentifier "length")) /\
  generateNode newGenerator
    (MemberExpression
       (MethodCall (Ident (mkIdentifier "name")) (mkIdentifier "trim") [])
       (mkIdentifier "length"))
  = Ok "name.trim().length".
Proof.
  assert (H : transformDotAccess (Ident (mkIdentifier "name")) trimLengthCst
              = Ok (MemberExpression
                      (MethodCall (Ident (mkIdentifier "name"))
                                  (mkIdentifier "trim") [])
                      (mkIdentifier "length")))
    by reflexivity.
  split; [exact H|].
  rewrite (dot_chain_emitted_as_written newGenerator _ _ _ H).
  reflexivity.
Defined.

Lemma operatorTokens_app op (l k : list (LogicalOperator * NotExpressionCst)) :
  operatorTokens op (l ++ k)
  = (operatorTokens op l ++ operatorTokens op k)%list.
Proof. unfold operatorTokens. apply omap_app. Qed.

Lemma operatorTokens_cons_length op o c
      (chain : list (LogicalOperator * NotExpressionCst)) :
  length (operatorTokens op ((o, c) :: chain))
  = (match op, o with
     | OpAnd, OpAnd | OpOr, OpOr => 1
     | _, _ => 0
     end) + length (operatorTokens op chain).
Proof. destruct op, o; reflexivity. Qed.

Lemma operatorTokens_count (chain : list (LogicalOperator * NotExpressionCst))
      nAnd nOr :
  map fst chain = andsThenOrs nAnd nOr ->
  length (operatorTokens OpAnd chain) = nAnd /\
  length (operatorTokens OpOr chain) = nOr.
Proof.
  unfold andsThenOrs. revert chain.
  induction nAnd as [|n IH]; intros chain H.
  - simpl in H. revert chain H. induction nOr as [|m IHm]; intros chain H.
    + destruct chain; [split; reflexivity|discriminate H].
    + destruct chain as [|[op c] chain]; [discriminate H|].
      simpl in H. injection H as -> H.
      destruct (IHm _ H) as [E1 E2].
      rewrite !operatorTokens_cons_length, E1, E2. split; reflexivity.
  - destruct chain as [|[op c] chain]; [discriminate H|].
    simpl in H. injection H as -> H.
    destruct (IH _ H) as [E1 E2].
    rewrite !operatorTokens_cons_length, E1, E2. split; reflexivity.
Qed.

(** X8. When no [and] is written after an [or], the transformer builds the
    left-nested tree of the chain in source order, and on boolean literals
    that tree is worth what the chain gives when its operators are applied
    from left to right. *)
Theorem logical_chain_in_order_evaluates_flat first chain :
  andsBeforeOrs chain ->
  transformLogicalExpression (booleanChainCst first chain)
  = leftTree (Ok (BooleanLiteral first))
             (map (fun step : LogicalOperator * bool =>
                     (fst step, Ok (BooleanLiteral (snd step)))) chain) /\
  match transformLogicalExpression (booleanChainCst first chain) with
  | Ok tree => evalBoolean tree
  | Throw _ => None
  end = Some (evalFlat first chain).
Proof.
  intros (nAnd & nOr & Hops). unfold booleanChainCst.
  set (cstChain := map (fun step : LogicalOperator * bool =>
                          (fst step, booleanOperand (snd step))) chain).
  assert (Hfst : map fst cstChain = map fst chain).
  { unfold cstChain. rewrite map_map. reflexivity. }
  assert (Hcount : map fst cstChain
                   = andsThenOrs (length (operatorTokens OpAnd cstChain))
                                 (length (operatorTokens OpOr cstChain))).
  { rewrite Hfst in *.
    destruct (operatorTokens_count cstChain nAnd nOr) as [-> ->];
      [rewrite Hfst; exact Hops|exact Hops]. }
  assert (E : transformLogicalExpression
                (logicalExpressionCst (booleanOperand first) cstChain)
              = leftTree (Ok (BooleanLiteral first))
                  (map (fun step : LogicalOperator * bool =>
                          (fst step, Ok (BooleanLiteral (snd step)))) chain)).
  { rewrite (transformLogicalExpression_source_order _ _ Hcount).
    rewrite transformNotExpression_booleanOperand.
    unfold cstChain. rewrite map_map. f_equal.
    apply map_ext. intros [op b]. cbn [fst snd].
    rewrite transformNotExpression_booleanOperand. reflexivity. }
  split; [exact E|]. rewrite E.
  apply (leftTree_booleans chain (BooleanLiteral first) first). reflexivity.
Qed.

(** [true and false or true]. *)
Lemma logical_chain_in_order_evaluates_flat_witness :
  match transformLogicalExpression
          (booleanChainCst true [(OpAnd, false); (OpOr, true)]) with
  | Ok tree => evalBoolean tree
  | Throw _ => None
  end = Some true.
Proof.
  apply (logical_chain_in_order_evaluates_flat
           true [(OpAnd, false); (OpOr, true)]).
  exists 1, 1. reflexivity.
Defined.

(** *** Trees that follow the grammar *)

Lemma mapM_transformsTo {A B : Type} (f : A -> result B) (good : B -> Prop)
      (l : list A) :
  Forall (transformsTo f good) l ->
  exists ys, mapM f l = Ok ys /\ Forall good ys.
Proof.
  induction 1 as [|x l (y & Hy & Hg) _ (ys & Hys & Hgs)].
  - exists []. split; [reflexivity|constructor].
  - exists (y :: ys). simpl. rewrite Hy, Hys.
    split; [reflexivity|constructor; assumption].
Qed.

Lemma forallb_Forall_true {A : Type} (f : A -> bool) (l : list A) :
  Forall (fun x => f x = true) l -> forallb f l = true.
Proof.
  induction 1 as [|x l Hx _ IH]; [reflexivity|]. simpl. rewrite Hx, IH.
  reflexivity.
Qed.

Lemma leftTree_Ok (chain : list (LogicalOperator * result Expression)) :
  forall first,
    goodExpression first ->
    Forall (fun step => exists e, snd step = Ok e /\ goodExpression e) chain ->
    exists tree, leftTree (Ok first) chain = Ok tree /\ goodExpression tree.
Proof.
  induction chain as [|[op r] chain IH]; intros first Hf Hall.
  - exists first. split; [reflexivity|exact Hf].
  - apply Forall_cons in Hall. destruct Hall as [(e & He & Hg) Hall].
    simpl in He. subst r. unfold leftTree. simpl.
    apply (IH (LogicalExpression op first e)); [|exact Hall].
    unfold goodExpression in *. simpl. rewrite Hf, Hg. reflexivity.
Qed.

Lemma Forall_zip_snd {A B : Type} (P : B -> Prop) (l : list A) (k : list B) :
  Forall P k -> Forall (fun x : A * B => P (snd x)) (zip l k).
Proof.
  intros H. revert l. induction H as [|y k Hy _ IH]; intros l.
  - destruct l; constructor.
  - destruct l as [|x l]; [constructor|]. simpl. constructor; [exact Hy|].
    apply IH.
Qed.

(** Destructs the lists the hypothesis [H] still tests, dropping the shapes
    it refuses. *)
Ltac shapes H :=
  repeat match type of H with
         | context [match ?l with [] => _ | _ :: _ => _ end] =>
             is_var l; destruct l; simpl in H; try discriminate H
         end.

Lemma followsExpression_transforms :
  forall cst,
    followsExpression cst = true ->
    transformsTo transformExpression goodExpression cst
with followsLogicalExpression_transforms :
  forall cst,
    followsLogicalExpression cst = true ->
    transformsTo transformLogicalExpression goodExpression cst
with followsNotExpression_transforms :
  forall cst,
    followsNotExpression cst = true ->
    transformsTo transformNotExpression goodExpression cst
with followsComparisonExpression_transforms :
  forall cst,
    followsComparisonExpression cst = true ->
    transformsTo transformComparisonExpression goodExpression cst
with followsPrimaryExpression_transforms :
  forall cst,
    followsPrimaryExpression cst = true ->
    transformsTo transformPrimaryExpression goodExpression cst
with followsFunctionCall_transforms :
  forall cst,
    followsFunctionCall cst = true ->
    transformsTo transformFunctionCall goodExpression cst
with followsArgumentList_transforms :
  forall cst,
    followsArgumentList cst = true ->
    transformsTo transformArgumentList (Forall goodExpression) cst
with followsObjectLiteral_transforms :
  forall cst,
    followsObjectLiteral cst = true ->
    transformsTo transformObjectLiteral goodExpression cst
with followsArrayLiteral_transforms :
  forall cst,
    followsArrayLiteral cst = true ->
    transformsTo transformArrayLiteral goodExpression cst
with followsDotAccess_transforms :
  forall cst,
    followsDotAccess cst = true ->
    forall object,
      goodExpression object ->
      transformsTo (transformDotAccess object) goodExpression cst.
Proof.
  - (* expression *)
    intros [ls] H. simpl in H. shapes H.
    exact (followsLogicalExpression_transforms _ H).
  - (* logicalExpression *)
    intros [nots ands ors] H. simpl in H.
    apply andb_prop in H. destruct H as [Hlen Hall].
    apply Nat.eqb_eq in Hlen.
    destruct nots as [|n0 rest]; [discriminate Hlen|].
    simpl in Hall. apply andb_prop in Hall. destruct Hall as [H0 Hrest].
    destruct (followsNotExpression_transforms n0 H0) as (e0 & He0 & Hg0).
    assert (Hoperands :
              Forall (fun r => exists e, r = Ok e /\ goodExpression e)
                     (map transformNotExpression rest)).
    { clear Hlen. induction rest as [|n rest IH]; [constructor|].
      simpl in Hrest. apply andb_prop in Hrest. destruct Hrest as [Hn Hrest].
      simpl. constructor; [|exact (IH Hrest)].
      destruct (followsNotExpression_transforms n Hn) as (e & He & Hg).
      exists e. split; assumption. }
    unfold transformsTo.
    change (transformLogicalExpression (CstLogicalExpression (n0 :: rest)
                                          ands ors))
      with (chainOperators (transformNotExpression n0
                            :: map transformNotExpression rest)
                           (length ands) (length ors)).
    rewrite chainOperators_leftTree
      by (rewrite length_map; simpl in Hlen; lia).
    rewrite He0. apply leftTree_Ok; [exact Hg0|].
    apply (Forall_zip_snd
             (fun r => exists e, r = Ok e /\ goodExpression e)).
    exact Hoperands.
  - (* notExpression *)
    intros [nots comps] H. simpl in H. shapes H.
    apply andb_prop in H. destruct H as [Hn H].
    destruct (followsComparisonExpression_transforms _ H) as (e & He & Hg).
    unfold transformsTo. simpl. rewrite He.
    destruct nots as [|t nots]; simpl.
    + exists e. split; [reflexivity|exact Hg].
    + exists (UnaryExpression e). split; [reflexivity|exact Hg].
  - (* comparisonExpression *)
    intros [prims de ne le ge lt gt dots] H. simpl in H. shapes H.
    all: try (apply andb_prop in H; destruct H as [Hp Hq]).
    all: try (destruct (followsPrimaryExpression_transforms _ Hp)
                as (e1 & He1 & Hg1);
              destruct (followsPrimaryExpression_transforms _ Hq)
                as (e2 & He2 & Hg2);
              unfold transformsTo; simpl; rewrite He1, He2; simpl;
              eexists; (split; [reflexivity|]);
              unfold goodExpression in *; simpl; rewrite Hg1, Hg2;
              reflexivity).
    + destruct (followsPrimaryExpression_transforms _ H) as (e & He & Hg).
      exists e. simpl. rewrite He. split; [reflexivity|exact Hg].
    + destruct (followsPrimaryExpression_transforms _ Hp) as (e & He & Hg).
      destruct (followsDotAccess_transforms _ Hq e Hg) as (e' & He' & Hg').
      exists e'. simpl. rewrite He. simpl. split; [exact He'|exact Hg'].
  - (* primaryExpression *)
    intros [f o a s n b i] H. simpl in H. shapes H.
    all: first
           [ destruct (followsFunctionCall_transforms _ H) as (e & He & Hg);
             exists e; split; [exact He|exact Hg]
           | destruct (followsObjectLiteral_transforms _ H) as (e & He & Hg);
             exists e; split; [exact He|exact Hg]
           | destruct (followsArrayLiteral_transforms _ H) as (e & He & Hg);
             exists e; split; [exact He|exact Hg]
           | eexists; split; reflexivity ].
  - (* functionCall *)
    intros [ids argl] H. simpl in H.
    apply andb_prop in H. destruct H as [H Hargs].
    apply andb_prop in H. destruct H as [Hid Hone].
    destruct ids as [|id [|]]; try discriminate Hid.
    destruct argl as [|a [|]]; try discriminate Hone.
    + eexists. split; reflexivity.
    + simpl in Hargs. rewrite andb_true_r in Hargs.
      destruct (followsArgumentList_transforms _ Hargs) as (es & Hes & Hg).
      unfold transformsTo. simpl. rewrite Hes. simpl.
      eexists. split; [reflexivity|].
      unfold goodExpression. simpl. apply forallb_Forall_true. exact Hg.
  - (* argumentList *)
    intros [es] H. simpl in H.
    apply andb_prop in H. destruct H as [_ Hall].
    assert (Hes : Forall (transformsTo transformExpression goodExpression)
                         es).
    { induction es as [|e es IH]; [constructor|].
      simpl in Hall. apply andb_prop in Hall. destruct Hall as [He Hall].
      constructor; [|exact (IH Hall)].
      exact (followsExpression_transforms e He). }
    exact (mapM_transformsTo _ _ _ Hes).
  - (* objectLiteral *)
    intros [names es shorts] H. simpl in H.
    apply andb_prop in H. destruct H as [Hlen Hall].
    apply Nat.eqb_eq in Hlen.
    assert (Hes : Forall (transformsTo transformExpression goodExpression)
                         es).
    { clear Hlen. induction es as [|e es IH]; [constructor|].
      simpl in Hall. apply andb_prop in Hall. destruct Hall as [He Hall].
      constructor; [|exact (IH Hall)].
      exact (followsExpression_transforms e He). }
    unfold transformsTo. rewrite transformObjectLiteral_unfold.
    rewrite regularProperties_zip by (rewrite length_map; exact Hlen).
    assert (Hreg :
              exists regular,
                mapM (fun entry : Token * result Expression =>
                        value ← snd entry;
                        Ok (mkProperty (transformIdentifier (fst entry))
                                       (Some value) false))
                     (zip names (map transformExpression es)) = Ok regular /\
                Forall (fun p => match p with
                                 | mkProperty _ (Some v) _ => goodExpression v
                                 | mkProperty _ None shorthand =>
                                     shorthand = true
                                 end) regular).
    { apply mapM_transformsTo. clear Hlen Hall. revert names.
      induction Hes as [|e es (v & Hv & Hg) _ IH]; intros names.
      - destruct names; constructor.
      - destruct names as [|n names]; [constructor|]. simpl.
        constructor; [|apply IH].
        eexists. simpl. rewrite Hv. simpl. split; [reflexivity|exact Hg]. }
    destruct Hreg as (regular & -> & Hgood). simpl.
    eexists. split; [reflexivity|].
    unfold goodExpression. simpl. apply forallb_Forall_true.
    apply Forall_app. split.
    + eapply Forall_impl; [exact Hgood|]. intros [k [v|] sh]; auto.
    + unfold shorthandProperties. apply Forall_map.
      apply Forall_forall. intros t _. reflexivity.
  - (* arrayLiteral *)
    intros [es] H. simpl in H.
    assert (Hes : Forall (transformsTo transformExpression goodExpression)
                         es).
    { induction es as [|e es IH]; [constructor|].
      simpl in H. apply andb_prop in H. destruct H as [He Hall].
      constructor; [|exact (IH Hall)].
      exact (followsExpression_transforms e He). }
    destruct (mapM_transformsTo _ _ _ Hes) as (elements & He & Hg).
    unfold transformsTo. simpl. rewrite He. simpl.
    eexists. split; [reflexivity|].
    unfold goodExpression. simpl. apply forallb_Forall_true. exact Hg.
  - (* dotAccess *)
    intros [ids lp argl dots] H object Hobj. simpl in H.
    destruct ids as [|id [|]]; try discriminate H.
    destruct lp as [|paren [|]]; try discriminate H;
      destruct argl as [|a [|]]; try discriminate H;
      destruct dots as [|d [|]]; try discriminate H;
      simpl in H; rewrite ?andb_false_r in H; try discriminate H;
      rewrite ?andb_true_r in H;
      unfold transformsTo; rewrite transformDotAccess_unfold;
      cbn [present]; cbv zeta.
    + eexists. split; [reflexivity|exact Hobj].
    + apply (followsDotAccess_transforms d H). exact Hobj.
    + eexists. simpl. split; [reflexivity|].
      unfold goodExpression in *. simpl. rewrite Hobj. reflexivity.
    + simpl. apply (followsDotAccess_transforms d H).
      unfold goodExpression in *. simpl. rewrite Hobj. reflexivity.
    + destruct (followsArgumentList_transforms _ H) as (es & Hes & Hg).
      rewrite Hes. simpl. eexists. split; [reflexivity|].
      unfold goodExpression in *. simpl. rewrite Hobj. simpl.
      apply forallb_Forall_true. exact Hg.
    + apply andb_prop in H. destruct H as [Ha Hd].
      destruct (followsArgumentList_transforms _ Ha) as (es & Hes & Hg).
      rewrite Hes. simpl. apply (followsDotAccess_transforms d Hd).
      unfold goodExpression in *. simpl. rewrite Hobj. simpl.
      apply forallb_Forall_true. exact Hg.
Qed.

Lemma followsFirstExpression_transforms expression :
  followsFirstExpression expression = true ->
  transformsTo firstExpression goodExpression expression.
Proof.
  unfold followsFirstExpression. intros H.
  destruct expression as [|e [|]]; try discriminate H.
  exact (followsExpression_transforms e H).
Qed.

Lemma followsStatement_transforms :
  forall cst,
    followsStatement cst = true ->
    transformsTo transformStatement goodStatement cst
with followsIfStatement_transforms :
  forall cst,
    followsIfStatement cst = true ->
    transformsTo transformIfStatement goodStatement cst
with followsForStatement_transforms :
  forall cst,
    followsForStatement cst = true ->
    transformsTo transformForStatement goodStatement cst
with followsLoopStatement_transforms :
  forall cst,
    followsLoopStatement cst = true ->
    transformsTo transformLoopStatement goodStatement cst.
Proof.
  - (* statement *)
    intros [r i f l a d e] H. simpl in H. shapes H.
    all: first
           [ exact (followsIfStatement_transforms _ H)
           | exact (followsForStatement_transforms _ H)
           | exact (followsLoopStatement_transforms _ H)
           | idtac ].
    + (* expressionStatement *)
      destruct (followsFirstExpression_transforms _ H) as (x & Hx & Hg).
      unfold transformsTo. simpl. unfold transformExpressionStatement.
      rewrite Hx. simpl. eexists. split; [reflexivity|exact Hg].
    + (* destructuringAssignment *)
      apply andb_prop in H. destruct H as [Hids H].
      destruct (followsFirstExpression_transforms _ H) as (x & Hx & Hg).
      unfold transformsTo. simpl. unfold transformDestructuringAssignment.
      match type of Hids with
      | present ?toks = true => destruct toks as [|id ids]
      end; [discriminate Hids|].
      rewrite Hx. simpl. eexists. split; [reflexivity|exact Hg].
    + (* assignment *)
      apply andb_prop in H. destruct H as [Hids H].
      destruct (followsFirstExpression_transforms _ H) as (x & Hx & Hg).
      unfold transformsTo. simpl. unfold transformAssignment.
      match type of Hids with
      | single ?toks = true => destruct toks as [|id ids]
      end; [discriminate Hids|].
      rewrite Hx. simpl. eexists. split; [reflexivity|exact Hg].
    + (* returnStatement *)
      destruct (followsFirstExpression_transforms _ H) as (x & Hx & Hg).
      unfold transformsTo. simpl. unfold transformReturnStatement.
      rewrite Hx. simpl. eexists. split; [reflexivity|exact Hg].
  - (* ifStatement *)
    intros [expression statement] H. simpl in H.
    apply andb_prop in H. destruct H as [He Hall].
    destruct (followsFirstExpression_transforms _ He) as (c & Hc & Hg).
    assert (Hbody : Forall (transformsTo transformStatement goodStatement)
                           statement).
    { induction statement as [|s body IH]; [constructor|].
      simpl in Hall. apply andb_prop in Hall. destruct Hall as [Hs Hall].
      constructor; [exact (followsStatement_transforms s Hs)|exact (IH Hall)]. }
    destruct (mapM_transformsTo _ _ _ Hbody) as (body & Hb & Hgb).
    unfold transformsTo. simpl.
    change (match expression with
            | e :: _ => transformExpression e
            | [] => Throw typeError
            end) with (firstExpression expression).
    rewrite Hc. simpl. rewrite Hb. simpl. eexists. split; [reflexivity|].
    unfold goodStatement, goodExpression in *. simpl. rewrite Hg. simpl.
    apply forallb_Forall_true. exact Hgb.
  - (* forStatement *)
    intros [ids expression statement] H. simpl in H.
    apply andb_prop in H. destruct H as [H Hall].
    apply andb_prop in H. destruct H as [Hid He].
    destruct ids as [|id [|]]; try discriminate Hid.
    destruct (followsFirstExpression_transforms _ He) as (c & Hc & Hg).
    assert (Hbody : Forall (transformsTo transformStatement goodStatement)
                           statement).
    { induction statement as [|s body IH]; [constructor|].
      simpl in Hall. apply andb_prop in Hall. destruct Hall as [Hs Hall].
      constructor; [exact (followsStatement_transforms s Hs)|exact (IH Hall)]. }
    destruct (mapM_transformsTo _ _ _ Hbody) as (body & Hb & Hgb).
    unfold transformsTo. simpl.
    change (match expression with
            | e :: _ => transformExpression e
            | [] => Throw typeError
            end) with (firstExpression expression).
    rewrite Hc. simpl. rewrite Hb. simpl. eexists. split; [reflexivity|].
    unfold goodStatement, goodExpression in *. simpl. rewrite Hg. simpl.
    apply forallb_Forall_true. exact Hgb.
  - (* loopStatement *)
    intros [statement] H. simpl in H.
    assert (Hbody : Forall (transformsTo transformStatement goodStatement)
                           statement).
    { induction statement as [|s body IH]; [constructor|].
      simpl in H. apply andb_prop in H. destruct H as [Hs Hall].
      constructor; [exact (followsStatement_transforms s Hs)|exact (IH Hall)]. }
    destruct (mapM_transformsTo _ _ _ Hbody) as (body & Hb & Hgb).
    unfold transformsTo. simpl. rewrite Hb. simpl.
    eexists. split; [reflexivity|].
    unfold goodStatement. simpl. apply forallb_Forall_true. exact Hgb.
Qed.

Lemma followsType_transforms :
  forall cst, followsType cst = true -> exists t, transformType cst = Ok t.
Proof.
  fix IH 1. intros [ids types] H. simpl in H.
  apply andb_prop in H. destruct H as [H Hall].
  apply andb_prop in H. destruct H as [Hid Hone].
  destruct ids as [|id [|]]; try discriminate Hid.
  destruct types as [|t [|]]; try discriminate Hone.
  - eexists. reflexivity.
  - simpl in Hall. rewrite andb_true_r in Hall.
    destruct (IH t Hall) as (g & Hg). simpl. rewrite Hg.
    eexists. reflexivity.
Qed.

Lemma followsTypedNames_transforms ids : forall types,
  followsTypedNames ids types = true ->
  exists properties, transformTypedNames ids types = Ok properties.
Proof.
  unfold followsTypedNames.
  induction ids as [|id ids IH]; intros types H.
  - eexists. reflexivity.
  - apply andb_prop in H. destruct H as [Hlen Hall].
    destruct types as [|t types]; [discriminate Hlen|].
    simpl in Hall. apply andb_prop in Hall. destruct Hall as [Ht Hall].
    destruct (followsType_transforms t Ht) as (v & Hv).
    destruct (IH types) as (rest & Hrest).
    { simpl in Hlen. rewrite Hlen, Hall. reflexivity. }
    simpl. rewrite Hv, Hrest. eexists. reflexivity.
Qed.

Lemma followsFlowDefinition_transforms cst :
  followsFlowDefinition cst = true ->
  transformsTo transformFlowDefinition
    (fun f => forallb statementValuesPresent (flow_body f) = true) cst.
Proof.
  unfold followsFlowDefinition. intros H.
  apply andb_prop in H. destruct H as [H Hbody].
  apply andb_prop in H. destruct H as [H Hparams].
  apply andb_prop in H. destruct H as [Hid Hone].
  unfold transformsTo, transformFlowDefinition.
  destruct (flowDefinition_Identifier cst) as [|id [|]];
    try discriminate Hid.
  assert (Hp : exists params,
             match flowDefinition_parameterList cst with
             | p :: _ => transformParameterList p
             | [] => Ok []
             end = Ok params).
  { destruct (flowDefinition_parameterList cst) as [|p [|]];
      try discriminate Hone.
    - eexists. reflexivity.
    - simpl in Hparams. rewrite andb_true_r in Hparams.
      unfold followsParameterList in Hparams.
      destruct (followsTypedNames_transforms _ _ Hparams) as (ps & Hps).
      unfold transformParameterList. rewrite Hps. eexists. reflexivity. }
  destruct Hp as (params & ->). simpl.
  assert (Hs : Forall (transformsTo transformStatement goodStatement)
                      (flowDefinition_statement cst)).
  { apply Forall_forall. intros s Hin. apply followsStatement_transforms.
    rewrite forallb_forall in Hbody. apply Hbody.
    apply list_elem_of_In. exact Hin. }
  destruct (mapM_transformsTo _ _ _ Hs) as (body & -> & Hg). simpl.
  eexists. split; [reflexivity|]. simpl.
  apply forallb_Forall_true. exact Hg.
Qed.

Lemma followsImportStatement_transforms cst :
  followsImportStatement cst = true ->
  exists i, transformImportStatement cst = Ok i.
Proof.
  unfold followsImportStatement, transformImportStatement. intros H.
  destruct (importStatement_promptImport cst) as [|p [|]];
    destruct (importStatement_symbolImport cst) as [|s [|]];
    try discriminate H.
  - unfold followsSymbolImport in H.
    apply andb_prop in H. destruct H as [Hids Hpath].
    unfold transformSymbolImport.
    destruct (symbolImport_Identifier s) as [|id ids]; [discriminate Hids|].
    destruct (symbolImport_StringLiteral s) as [|path [|]];
      try discriminate Hpath.
    eexists. reflexivity.
  - unfold followsPromptImport in H.
    apply andb_prop in H. destruct H as [H Htypes].
    apply andb_prop in H. destruct H as [Hpath Hid].
    unfold transformPromptImport.
    destruct (promptImport_StringLiteral p) as [|path [|]];
      try discriminate Hpath.
    destruct (promptImport_Identifier p) as [|id [|]]; try discriminate Hid.
    destruct (promptImport_typeObject p) as [|input [|returns [|]]];
      try discriminate Htypes.
    apply andb_prop in Htypes. destruct Htypes as [Hi Hr].
    unfold followsTypeObject in Hi, Hr.
    destruct (followsTypedNames_transforms _ _ Hi) as (pi' & Hpi).
    destruct (followsTypedNames_transforms _ _ Hr) as (pr & Hpr).
    unfold transformTypeObject. rewrite Hpi. simpl. rewrite Hpr. simpl.
    eexists. reflexivity.
Qed.

Lemma followsScript_transforms cst :
  followsScript cst = true ->
  exists ast, transform cst = Ok ast /\ programValuesPresent ast = true.
Proof.
  unfold followsScript. intros H.
  apply andb_prop in H. destruct H as [Himports Hflows].
  assert (Hi : Forall (transformsTo transformImportStatement (fun _ => True))
                      (script_importStatement cst)).
  { apply Forall_forall. intros i Hin.
    rewrite forallb_forall in Himports.
    destruct (followsImportStatement_transforms i) as (x & Hx).
    { apply Himports. apply list_elem_of_In. exact Hin. }
    exists x. split; [exact Hx|exact I]. }
  assert (Hf : Forall (transformsTo transformFlowDefinition
                         (fun f => forallb statementValuesPresent
                                           (flow_body f) = true))
                      (script_flowDefinition cst)).
  { apply Forall_forall. intros f Hin.
    rewrite forallb_forall in Hflows.
    apply followsFlowDefinition_transforms. apply Hflows.
    apply list_elem_of_In. exact Hin. }
  destruct (mapM_transformsTo _ _ _ Hi) as (imports & Hti & _).
  destruct (mapM_transformsTo _ _ _ Hf) as (flows & Htf & Hg).
  unfold transform. rewrite Hti, Htf. simpl.
  eexists. split; [reflexivity|].
  unfold programValuesPresent. simpl. rewrite forallb_app.
  apply andb_true_intro. split; apply forallb_Forall_true.
  - apply Forall_map. apply Forall_forall. intros i _. reflexivity.
  - apply Forall_map. exact Hg.
Qed.

(** X9. The transformer accepts every tree the grammar can produce: on the
    tree of an expression, of a statement or of a whole script that follows
    the parser's rules it returns an AST and does not throw, and in that AST
    every property of an object literal that is not a shorthand has its
    value. *)
Theorem grammatical_tree_transforms :
  (forall cst,
      followsExpression cst = true ->
      exists e, transformExpression cst = Ok e /\ valuesPresent e = true) /\
  (forall cst,
      followsStatement cst = true ->
      exists s, transformStatement cst = Ok s /\
                statementValuesPresent s = true) /\
  (forall cst,
      followsScript cst = true ->
      exists ast, transform cst = Ok ast /\ programValuesPresent ast = true).
Proof.
  split; [exact followsExpression_transforms|].
  split; [exact followsStatement_transforms|exact followsScript_transforms].
Qed.

(** The script with the flows [Main] and [Later] and the import of
    [Ideas]. *)
Lemma grammatical_tree_transforms_witness :
  followsScript (scriptCst forwardDecls) = true /\
  exists ast,
    transform (scriptCst forwardDecls) = Ok ast /\
    programValuesPresent ast = true.
Proof.
  assert (H : followsScript (scriptCst forwardDecls) = true) by reflexivity.
  split; [exact H|].
  exact (proj2 (proj2 grammatical_tree_transforms) _ H).
Defined.

(** ** The generator *)

(** X10. The generator emits no grouping: an operand that is itself a
    comparison or a logical expression is written without parentheses, so
    two trees that group the same operands differently give the same text,
    both for [!] over a comparison and for a chain of [&&] and [||]. *)
Theorem grouping_not_emitted st :
  (forall op a b,
      generateNode st (UnaryExpression (ComparisonExpression op a b))
      = generateNode st (ComparisonExpression op (UnaryExpression a) b)) /\
  (forall op1 op2 a b c,
      generateNode st (LogicalExpression op1 a (LogicalExpression op2 b c))
      = generateNode st (LogicalExpression op2 (LogicalExpression op1 a b) c)).
Proof.
  split.
  - intros op a b.
    repeat (simpl; unfold generateUnaryExpression,
                   generateComparisonExpression).
    destruct (generateNode st a) as [a'|]; simpl; [|reflexivity].
    destruct (generateNode st b) as [b'|]; simpl; [|reflexivity].
    rewrite append_assoc. reflexivity.
  - intros op1 op2 a b c.
    repeat (simpl; unfold generateLogicalExpression).
    destruct (generateNode st a) as [a'|]; simpl; [|reflexivity].
    destruct (generateNode st b) as [b'|]; simpl; [|reflexivity].
    destruct (generateNode st c) as [c'|]; simpl; [|reflexivity].
    rewrite !append_assoc. reflexivity.
Qed.

Lemma lastProperty_app l k q :
  lastProperty (l ++ k) q
  = match lastProperty k q with
    | Some p => Some p
    | None => lastProperty l q
    end.
Proof.
  induction l as [|p l IH]; simpl.
  - destruct (lastProperty k q); reflexivity.
  - rewrite IH. destruct (lastProperty k q); reflexivity.
Qed.

Lemma propsMap_lastProperty properties q :
  propsMap properties !! q = lastProperty properties q.
Proof.
  induction properties as [|p l IH] using rev_ind; [reflexivity|].
  rewrite propsMap_snoc, lastProperty_app. simpl.
  destruct (String.eqb (id_name (prop_key p)) q) eqn:E.
  - apply String.eqb_eq in E. subst q. apply lookup_insert_eq.
  - apply String.eqb_neq in E. rewrite lookup_insert_ne by exact E.
    exact IH.
Qed.

Lemma lastProperty_In l q p :
  In p l -> id_name (prop_key p) = q -> is_Some (lastProperty l q).
Proof.
  induction l as [|p0 l IH]; intros Hin Hq; [destruct Hin|].
  simpl. destruct Hin as [->|Hin].
  - destruct (lastProperty l q); [eauto|].
    rewrite Hq, String.eqb_refl. eauto.
  - destruct (IH Hin Hq) as [z ->]. eauto.
Qed.

Lemma lastProperty_filter (P : string -> Prop) `{forall x, Decision (P x)}
      l q :
  lastProperty (filter (fun p => P (id_name (prop_key p))) l) q
  = if decide (P q) then lastProperty l q else None.
Proof.
  induction l as [|p l IH]; simpl.
  - destruct (decide (P q)); reflexivity.
  - rewrite filter_cons.
    destruct (decide (P (id_name (prop_key p)))) as [Hp|Hp].
    + simpl. rewrite IH. destruct (decide (P q)) as [Hq|Hq].
      * reflexivity.
      * destruct (String.eqb (id_name (prop_key p)) q) eqn:E; [|reflexivity].
        apply String.eqb_eq in E. subst q. contradiction.
    + rewrite IH. destruct (decide (P q)) as [Hq|Hq]; [|reflexivity].
      destruct (lastProperty l q); [reflexivity|].
      destruct (String.eqb (id_name (prop_key p)) q) eqn:E; [|reflexivity].
      apply String.eqb_eq in E. subst q. contradiction.
Qed.

(** The generated call to a flow is determined by the last property of each
    parameter's name. *)
Lemma flow_call_lookup st callee properties properties' :
  hasPrompt st (id_name callee) = false ->
  hasFlow st (id_name callee) = true ->
  Forall (fun q => lastProperty properties q = lastProperty properties' q)
         (declaredParameters st callee) ->
  generateNode st (FunctionCall callee [ObjectLiteral properties])
  = generateNode st (FunctionCall callee [ObjectLiteral properties']).
Proof.
  intros Hp Hf Hall.
  rewrite !generateNode_FunctionCall.
  rewrite !(generateFunctionCall_flow _ _ _ _ Hp Hf).
  unfold generateFlowCall. fold (declaredParameters st callee).
  rewrite !extractArgs_lookup.
  erewrite mapM_ext; [reflexivity|].
  eapply Forall_impl; [exact Hall|].
  intros q Hq. simpl. rewrite !propsMap_lastProperty, Hq. reflexivity.
Qed.

(** X11. In a call to a declared flow the properties of the argument whose
    name is not a parameter of the flow are ignored: the call generates the
    same result, text or exception, as the call without them, and their
    values are not generated. *)
Theorem flow_call_unmatched_properties_ignored st callee properties :
  hasPrompt st (id_name callee) = false ->
  hasFlow st (id_name callee) = true ->
  generateNode st (FunctionCall callee [ObjectLiteral properties])
  = generateNode st
      (FunctionCall callee
         [ObjectLiteral
            (filter (fun p => id_name (prop_key p)
                              ∈ declaredParameters st callee)
                    properties)]).
Proof.
  intros Hp Hf. apply flow_call_lookup; [exact Hp|exact Hf|].
  apply Forall_forall. intros q Hq.
  pose proof (lastProperty_filter
                (fun x => x ∈ declaredParameters st callee) properties q)
    as E.
  cbv beta in E. rewrite E, decide_True by exact Hq. reflexivity.
Qed.

(** [F({ z: F({}), y: "q", x: 5 })], where [z] is no parameter of [F]. *)
Lemma flow_call_unmatched_properties_ignored_witness :
  generateNode registryF
    (FunctionCall (mkIdentifier "F") [ObjectLiteral propertiesZYX])
  = generateNode registryF
      (FunctionCall (mkIdentifier "F") [ObjectLiteral propertiesYX]) /\
  generateNode registryF
    (FunctionCall (mkIdentifier "F") [ObjectLiteral propertiesZYX])
  = Ok ("await F(5, " +:+ dq +:+ "q" +:+ dq +:+ ")").
Proof.
  split; [|vm_compute; reflexivity].
  rewrite (flow_call_unmatched_properties_ignored registryF
             (mkIdentifier "F") propertiesZYX);
    [reflexivity|vm_compute; reflexivity|vm_compute; reflexivity].
Defined.

(** X12. In a call to a declared flow a property that is followed by a
    property of the same name does not count: the last property of a name
    gives the argument, and the value of the earlier one is not
    generated. *)
Theorem flow_call_last_property_wins st callee before p after p' :
  hasPrompt st (id_name callee) = false ->
  hasFlow st (id_name callee) = true ->
  In p' after -> id_name (prop_key p') = id_name (prop_key p) ->
  generateNode st
    (FunctionCall callee [ObjectLiteral (before ++ p :: after)])
  = generateNode st (FunctionCall callee [ObjectLiteral (before ++ after)]).
Proof.
  intros Hp Hf Hin Hkey. apply flow_call_lookup; [exact Hp|exact Hf|].
  apply Forall_forall. intros q _.
  rewrite !lastProperty_app. simpl.
  destruct (lastProperty after q) as [z|] eqn:E; [reflexivity|].
  destruct (String.eqb (id_name (prop_key p)) q) eqn:Eq; [|reflexivity].
  apply String.eqb_eq in Eq. subst q.
  destruct (lastProperty_In after _ p' Hin Hkey) as [z Hz]. congruence.
Qed.

(** [F({ x: 1, y: "q", x: 5 })]. *)
Lemma flow_call_last_property_wins_witness :
  generateNode registryF
    (FunctionCall (mkIdentifier "F")
       [ObjectLiteral
          (mkProperty (mkIdentifier "x") (Some (NumberLiteral 1)) false
           :: propertiesYX)])
  = generateNode registryF
      (FunctionCall (mkIdentifier "F") [ObjectLiteral propertiesYX]).
Proof.
  apply (flow_call_last_property_wins registryF (mkIdentifier "F") []
           (mkProperty (mkIdentifier "x") (Some (NumberLiteral 1)) false)
           propertiesYX
           (mkProperty (mkIdentifier "x") (Some (NumberLiteral 5)) false)).
  - vm_compute; reflexivity.
  - vm_compute; reflexivity.
  - right. left. reflexivity.
  - reflexivity.
Defined.

Lemma generateBody_success_In level body s : forall code st out st',
  In s body ->
  generateBody generateStatement level body code st = (Ok out, st') ->
  exists st1 out1 st1',
    generateStatement s st1 = (Ok out1, st1') /\
    declaredVariables st1' ⊆ declaredVariables st'.
Proof.
  induction body as [|s0 body IH]; intros code st out st' Hin H;
    [destruct Hin|].
  simpl in H.
  destruct (generateStatement s0 st) as [[stmtCode|msg] st0] eqn:E;
    [|discriminate H].
  destruct Hin as [->|Hin].
  - exists st, stmtCode, st0. split; [exact E|].
    pose proof (generateStatements_declaredGrows level body
                  (code +:+ nl +:+ indent level +:+ stmtCode +:+ ";") st0)
      as Hg.
    rewrite H in Hg. exact Hg.
  - eapply IH; eassumption.
Qed.

Lemma closeBlock_success r out st' :
  closeBlock r = (Ok out, st') -> exists code, r = (Ok code, st').
Proof.
  destruct r as [[code|msg] st0]; simpl; intros H; [|discriminate H].
  exists code. congruence.
Qed.

Lemma generateStatement_body_success outer body s st out st' :
  (exists condition, outer = IfStatement condition body) \/
  (exists variable iterable, outer = ForStatement variable iterable body) \/
  outer = LoopStatement body ->
  In s body ->
  generateStatement outer st = (Ok out, st') ->
  exists st1 out1 st1',
    generateStatement s st1 = (Ok out1, st1') /\
    declaredVariables st1' ⊆ declaredVariables st'.
Proof.
  intros [(c & ->)|[(v & it & ->)| ->]] Hin H; simpl in H.
  - unfold generateIfStatement in H.
    destruct (generateNode st c) as [c'|]; [|discriminate H].
    apply closeBlock_success in H. destruct H as (code & H).
    eapply generateBody_success_In; eassumption.
  - unfold generateForStatement in H.
    destruct (generateNode st it) as [it'|]; [|discriminate H].
    apply closeBlock_success in H. destruct H as (code & H).
    eapply generateBody_success_In; eassumption.
  - unfold generateLoopStatement in H.
    apply closeBlock_success in H. destruct H as (code & H).
    eapply generateBody_success_In; eassumption.
Qed.

Lemma foldl_declare_In (ids : list Identifier) x : forall st,
  In x (map id_name ids) \/ x ∈ declaredVariables st ->
  x ∈ declaredVariables (foldl (fun s id => declare (id_name id) s) st ids).
Proof.
  induction ids as [|i ids IH]; intros st H; simpl.
  - destruct H as [[]|H]; exact H.
  - apply IH. destruct H as [[<-|H]|H].
    + right. unfold declare. simpl. set_solver.
    + left. exact H.
    + right. unfold declare. simpl. set_solver.
Qed.

Lemma assigns_declared s x st out st' :
  assigns s x ->
  generateStatement s st = (Ok out, st') ->
  x ∈ declaredVariables st'.
Proof.
  destruct s as [e|c b|v it b|b|y e|ids e|e]; simpl; try contradiction.
  - intros <-. unfold generateAssignment.
    destruct (generateAwaitable st e) as [code|]; [|discriminate].
    unfold isDeclared. case_bool_decide as Hd; simpl; intros H;
      inversion H; subst.
    + exact Hd.
    + unfold declare. simpl. set_solver.
  - intros Hin. unfold generateDestructuringAssignment.
    destruct (generateAwaitable st e) as [code|]; [|discriminate].
    intros H. inversion H; subst. apply foldl_declare_In. left. exact Hin.
Qed.

(** X13. An assignment inside the body of an if, for or loop statement, at
    any depth, leaves its variable declared after the enclosing statement:
    when the enclosing statement generates, the variable is in
    [declaredVariables] afterwards, so a later assignment to it in the flow
    is emitted without [let], although the [let] of the first one stands
    inside the block. *)
Theorem nested_assignment_stays_declared outer inner x :
  Encloses outer inner -> assigns inner x ->
  forall st out st',
    generateStatement outer st = (Ok out, st') ->
    x ∈ declaredVariables st' /\
    forall y e code,
      id_name y = x ->
      generateNode st' e = Ok code ->
      generateStatement (Assignment y e) st'
      = (Ok (x +:+ " = " +:+ code), st').
Proof.
  intros Henc Hass.
  assert (Hin : forall st out st',
             generateStatement outer st = (Ok out, st') ->
             x ∈ declaredVariables st').
  { induction Henc as [s|c body s inner Hin _ IH|v it body s inner Hin _ IH
                      |body s inner Hin _ IH]; intros st out st' H.
    - eapply assigns_declared; eassumption.
    - destruct (generateStatement_body_success
                  (IfStatement c body) body s st out st')
        as (st1 & out1 & st1' & H1 & Hsub); [eauto|exact Hin|exact H|].
      specialize (IH Hass _ _ _ H1). set_solver.
    - destruct (generateStatement_body_success
                  (ForStatement v it body) body s st out st')
        as (st1 & out1 & st1' & H1 & Hsub); [eauto|exact Hin|exact H|].
      specialize (IH Hass _ _ _ H1). set_solver.
    - destruct (generateStatement_body_success
                  (LoopStatement body) body s st out st')
        as (st1 & out1 & st1' & H1 & Hsub); [eauto|exact Hin|exact H|].
      specialize (IH Hass _ _ _ H1). set_solver. }
  intros st out st' H. specialize (Hin _ _ _ H). split; [exact Hin|].
  intros y e code <- He. simpl. unfold generateAssignment.
  rewrite generateAwaitable_generateNode, He.
  unfold isDeclared. rewrite bool_decide_eq_true_2 by exact Hin.
  reflexivity.
Qed.

(** [if ok { loop { r = 1 } }], then [r = 2]. *)
Lemma nested_assignment_stays_declared_witness :
  generateStatement ifLoopAssign newGenerator
  = (Ok ifLoopAssignText, declare "r" newGenerator) /\
  generateStatement (Assignment (mkIdentifier "r") (NumberLiteral 2))
                    (declare "r" newGenerator)
  = (Ok "r = 2", declare "r" newGenerator).
Proof.
  assert (H : generateStatement ifLoopAssign newGenerator
              = (Ok ifLoopAssignText, declare "r" newGenerator))
    by reflexivity.
  split; [exact H|].
  refine (proj2 (nested_assignment_stays_declared ifLoopAssign
                   (Assignment (mkIdentifier "r") (NumberLiteral 1)) "r"
                   _ _ _ _ _ H)
                (mkIdentifier "r") (NumberLiteral 2) "2" eq_refl eq_refl).
  - eapply Encloses_if; [left; reflexivity|].
    eapply Encloses_loop; [left; reflexivity|]. apply Encloses_here.
  - reflexivity.
Defined.

Lemma transform_shape cst ast :
  transform cst = Ok ast ->
  exists imports flows,
    ast = mkProgram (map TopImport imports ++ map TopFlow flows).
Proof.
  unfold transform. intros H.
  destruct (mapM transformImportStatement (script_importStatement cst))
    as [imports|]; [|discriminate H].
  destruct (mapM transformFlowDefinition (script_flowDefinition cst))
    as [flows|]; [|discriminate H].
  exists imports, flows. simpl in H. congruence.
Qed.

(** X14. The text [generate] returns for a program the transformer built
    does not depend on the instance: a [CodeGenerator] that has compiled
    other programs before returns what a new one returns. *)
Theorem reused_instance_generates_alike runtime cst ast st :
  transform cst = Ok ast ->
  fst (generate runtime ast st) = fst (generate runtime ast newGenerator).
Proof.
  intros H. destruct (transform_shape _ _ H) as (imports & flows & ->).
  destruct runtime as [code|error].
  - apply generate_output_independent.
  - reflexivity.
Qed.

(** The script with the flows [Main] and [Later] and the import of [Ideas],
    on the instance left by a call on [flow F(x: number, y: string) { }]. *)
Lemma reused_instance_generates_alike_witness :
  transform (scriptCst forwardDecls)
  = Ok (mkProgram
          [TopImport importIdeas;
           TopFlow (mkFlowDefinition (mkIdentifier "Main") []
                      [Assignment (mkIdentifier "r")
                         (FunctionCall (mkIdentifier "Later") []);
                       Assignment (mkIdentifier "i") callIdeas]);
           TopFlow (mkFlowDefinition (mkIdentifier "Later") []
                      [ReturnStatement (NumberLiteral 1)])]) /\
  fst (generate (Ok "RUNTIME")
         (mkProgram
          [TopImport importIdeas;
           TopFlow (mkFlowDefinition (mkIdentifier "Main") []
                      [Assignment (mkIdentifier "r")
                         (FunctionCall (mkIdentifier "Later") []);
                       Assignment (mkIdentifier "i") callIdeas]);
           TopFlow (mkFlowDefinition (mkIdentifier "Later") []
                      [ReturnStatement (NumberLiteral 1)])])
         afterFlowF)
  = fst (generate (Ok "RUNTIME")
         (mkProgram
          [TopImport importIdeas;
           TopFlow (mkFlowDefinition (mkIdentifier "Main") []
                      [Assignment (mkIdentifier "r")
                         (FunctionCall (mkIdentifier "Later") []);
                       Assignment (mkIdentifier "i") callIdeas]);
           TopFlow (mkFlowDefinition (mkIdentifier "Later") []
                      [ReturnStatement (NumberLiteral 1)])])
         newGenerator).
Proof.
  assert (H : transform (scriptCst forwardDecls)
  = Ok (mkProgram
          [TopImport importIdeas;
           TopFlow (mkFlowDefinition (mkIdentifier "Main") []
                      [Assignment (mkIdentifier "r")
                         (FunctionCall (mkIdentifier "Later") []);
                       Assignment (mkIdentifier "i") callIdeas]);
           TopFlow (mkFlowDefinition (mkIdentifier "Later") []
                      [ReturnStatement (NumberLiteral 1)])]))
    by (vm_compute; reflexivity).
  split; [exact H|].
  exact (reused_instance_generates_alike _ _ _ afterFlowF H).
Defined.

Lemma foldl_declare_params (ps : list ParameterNode) st :
  foldl (fun s param => declare (id_name (param_name param)) s) st ps
  = foldl (fun s x => declare x s) st
          (map (fun p => id_name (param_name p)) ps).
Proof.
  revert st. induction ps as [|p ps IH]; intros st; simpl; [reflexivity|].
  apply IH.
Qed.

Lemma generateFlowDefinition_names f g st :
  flow_name f = flow_name g ->
  paramNames f = paramNames g ->
  flow_body f = flow_body g ->
  generateFlowDefinition f st = generateFlowDefinition g st.
Proof.
  intros Hn Hp Hb. unfold paramNames in Hp. unfold generateFlowDefinition.
  rewrite !foldl_declare_params, Hn, Hp, Hb. reflexivity.
Qed.

Lemma generateProgramFrom_names l l' :
  Forall2 sameUpToTypes l l' ->
  forall code st,
    generateProgramFrom l code st = generateProgramFrom l' code st.
Proof.
  induction 1 as [|a b l l' Hab _ IH]; intros code st; [reflexivity|].
  simpl.
  assert (E : generateTopLevel a st = generateTopLevel b st).
  { destruct a as [i|f], b as [j|g]; simpl in Hab; try contradiction.
    - subst j. reflexivity.
    - destruct Hab as (Hn & Hp & Hb). simpl.
      apply generateFlowDefinition_names; assumption. }
  rewrite E. destruct (generateTopLevel b st) as [[nodeCode|msg] st'].
  - apply IH.
  - reflexivity.
Qed.

Lemma collectDefinedFlows_names l l' :
  Forall2 sameUpToTypes l l' ->
  forall st,
    collectDefinedFlows (mkProgram l) st
    = collectDefinedFlows (mkProgram l') st.
Proof.
  unfold collectDefinedFlows. simpl.
  induction 1 as [|a b l l' Hab _ IH]; intros st; [reflexivity|].
  simpl.
  destruct a as [i|f], b as [j|g]; simpl in Hab; try contradiction.
  - apply IH.
  - destruct Hab as (Hn & Hp & Hb). unfold paramNames in Hp.
    rewrite Hn, Hp. apply IH.
Qed.

(** X15. The types of the parameters of a flow are not emitted and not
    checked: two programs that differ only in those types generate the same
    result and leave the instance in the same state. *)
Theorem parameter_types_not_emitted runtime p p' st :
  Forall2 sameUpToTypes (program_body p) (program_body p') ->
  generate runtime p st = generate runtime p' st.
Proof.
  intros H. destruct p as [l], p' as [l']. simpl in H.
  unfold generate, generateProgram. simpl program_body.
  rewrite (collectDefinedFlows_names l l' H).
  destruct runtime as [code|error]; [|reflexivity].
  rewrite (generateProgramFrom_names l l' H). reflexivity.
Qed.

(** [flow F(x: number, y: string) { }] and [flow F(x: text, y: text) { }]. *)
Lemma parameter_types_not_emitted_witness :
  generate (Ok "RUNTIME") (mkProgram [TopFlow flowF]) newGenerator
  = generate (Ok "RUNTIME") (mkProgram [TopFlow flowFText]) newGenerator.
Proof.
  apply parameter_types_not_emitted. simpl.
  constructor; [|constructor]. simpl. auto.
Defined.



















(** ** Error reports *)











(** ** The command line *)

Lemma positional_not_flag arg :
  positional arg ->
  String.eqb arg "-i" || String.eqb arg "--input" = false /\
  String.eqb arg "-o" || String.eqb arg "--output" = false /\
  String.eqb arg "-h" || String.eqb arg "--help" = false.
Proof.
  intros [_ Hdash].
  assert (H : forall flag, String.prefix "-" flag = true ->
                           String.eqb arg flag = false).
  { intros flag Hf. apply String.eqb_neq. intros ->. congruence. }
  rewrite !H by reflexivity. auto.
Qed.

Lemma positional_truthy arg : positional arg -> truthy (Some arg) = true.
Proof.
  intros [Hne _]. simpl. apply negb_true_iff, String.eqb_neq. exact Hne.
Qed.

Lemma parseLoop_full args : forall options,
  Forall positional args ->
  truthy (inputFile options) = true ->
  truthy (outputFile options) = true ->
  parseLoop args options = options.
Proof.
  induction args as [|arg rest IH]; intros options Hall Hi Ho; [reflexivity|].
  apply Forall_cons in Hall. destruct Hall as [Harg Hrest].
  destruct (positional_not_flag arg Harg) as (E1 & E2 & E3).
  cbn [parseLoop]. rewrite E1, E2, E3, Hi, Ho. simpl. apply IH; assumption.
Qed.

Lemma parseArgs_positional node script args :
  Forall positional args ->
  parseArgs (node :: script :: args)
  = mkOptions (args !! 0) (args !! 1) (args !! 2) false.
Proof.
  intros Hall. unfold parseArgs.
  change (drop 2 (node :: script :: args)) with args.
  destruct args as [|c args]; [reflexivity|].
  apply Forall_cons in Hall. destruct Hall as [[_ Hc] Hall].
  rewrite Hc. cbn [negb].
  destruct args as [|a args]; [reflexivity|].
  apply Forall_cons in Hall. destruct Hall as [Ha Hall].
  destruct (positional_not_flag a Ha) as (E1 & E2 & E3).
  cbn [parseLoop]. rewrite E1, E2, E3. cbn.
  destruct args as [|b args]; [reflexivity|].
  apply Forall_cons in Hall. destruct Hall as [Hb Hall].
  destruct (positional_not_flag b Hb) as (F1 & F2 & F3).
  cbn [parseLoop]. rewrite F1, F2, F3.
  cbn [inputFile outputFile command help].
  rewrite (positional_truthy a Ha). cbn.
  apply parseLoop_full; [exact Hall| |]; cbn [inputFile outputFile];
    apply positional_truthy; assumption.
Qed.

(** X19. When no argument is a flag, the first argument is always taken as
    the command, the second as the input file and the third as the output
    file, and the others are ignored. So a lone file name is taken for a
    command and [main] asks for an input file, although the usage text calls
    the command optional; and a first word other than [compile] or [run] is
    reported as an unknown command only after the input file has been
    read. *)
Theorem main_positional_arguments getSourceFile defaultOutputPath node script
        args :
  Forall positional args ->
  parseArgs (node :: script :: args)
  = mkOptions (args !! 0) (args !! 1) (args !! 2) false /\
  main getSourceFile defaultOutputPath (node :: script :: args)
  = match args with
    | [] | [_] => InputFileRequired
    | first :: inputFile :: rest =>
        match getSourceFile inputFile with
        | Throw _ => SourceUnreadable
        | Ok source =>
            if String.eqb first "compile" then
              Compile source inputFile
                      (default (defaultOutputPath inputFile) (rest !! 0))
            else if String.eqb first "run" then RunNotImplemented
            else UnknownCommand first
        end
    end.
Proof.
  intros Hall. pose proof (parseArgs_positional node script args Hall) as E.
  split; [exact E|]. unfold main. rewrite E.
  cbn [command inputFile outputFile help].
  destruct args as [|c args]; [reflexivity|].
  apply Forall_cons in Hall. destruct Hall as [[Hc _] Hall].
  destruct args as [|a args]; [reflexivity|].
  apply Forall_cons in Hall. destruct Hall as [[Ha _] Hall].
  cbn [lookup list_lookup].
  apply String.eqb_neq in Hc, Ha. rewrite Hc, Ha.
  destruct (getSourceFile a) as [source|]; [|reflexivity].
  destruct args as [|b args]; [reflexivity|].
  apply Forall_cons in Hall. destruct Hall as [[Hb _] Hall].
  apply String.eqb_neq in Hb. cbn. rewrite Hb. reflexivity.
Qed.

(** [node index.js prog.pronto]. *)
Lemma main_positional_arguments_witness :
  main (fun _ => Ok "source") (fun f => "dist/" +:+ f)
       ["node"; "index.js"; "prog.pronto"]
  = InputFileRequired.
Proof.
  refine (proj2 (main_positional_arguments (fun _ => Ok "source")
                   (fun f => "dist/" +:+ f) "node" "index.js"
                   ["prog.pronto"] _)).
  constructor; [split; [discriminate|reflexivity]|constructor].
Defined.

Lemma parseLoop_help_stays args : forall options,
  forallb (fun arg => negb (takesValue arg)) args = true ->
  help options = true ->
  help (parseLoop args options) = true.
Proof.
  induction args as [|arg rest IH]; intros options Hno Hh; [exact Hh|].
  cbn [forallb] in Hno. apply andb_prop in Hno. destruct Hno as [Harg Hno].
  unfold takesValue in Harg. apply negb_true_iff in Harg.
  apply orb_false_elim in Harg. destruct Harg as [Harg E4].
  apply orb_false_elim in Harg. destruct Harg as [Harg E3].
  apply orb_false_elim in Harg. destruct Harg as [E1 E2].
  cbn [parseLoop]. rewrite E1, E2, E3, E4. cbn [orb].
  destruct (String.eqb arg "-h" || String.eqb arg "--help").
  { apply IH; [exact Hno|reflexivity]. }
  destruct (negb (truthy (inputFile options))).
  { apply IH; [exact Hno|exact Hh]. }
  destruct (negb (truthy (outputFile options)));
    apply IH; assumption.
Qed.

Lemma parseLoop_help_flag args : forall options,
  forallb (fun arg => negb (takesValue arg)) args = true ->
  existsb helpFlag args = true ->
  help (parseLoop args options) = true.
Proof.
  induction args as [|arg rest IH]; intros options Hno Hex;
    [discriminate Hex|].
  cbn [forallb] in Hno. apply andb_prop in Hno. destruct Hno as [Harg Hno].
  pose proof Harg as Harg'.
  unfold takesValue in Harg. apply negb_true_iff in Harg.
  apply orb_false_elim in Harg. destruct Harg as [Harg E4].
  apply orb_false_elim in Harg. destruct Harg as [Harg E3].
  apply orb_false_elim in Harg. destruct Harg as [E1 E2].
  cbn [parseLoop]. rewrite E1, E2, E3, E4. cbn [orb].
  cbn [existsb] in Hex. unfold helpFlag in Hex at 1.
  destruct (String.eqb arg "-h" || String.eqb arg "--help").
  { apply parseLoop_help_stays; [exact Hno|reflexivity]. }
  cbn [orb] in Hex.
  destruct (negb (truthy (inputFile options))).
  { apply IH; assumption. }
  destruct (negb (truthy (outputFile options))); apply IH; assumption.
Qed.

(** X20. When no argument is one of [-i], [--input], [-o], [--output], which
    take the next argument as their value, a [-h] or [--help] anywhere among
    the arguments makes [main] show the help and do nothing else, whatever
    the other arguments are. *)
Theorem help_flag_shows_help getSourceFile defaultOutputPath node script
        args :
  forallb (fun arg => negb (takesValue arg)) args = true ->
  existsb helpFlag args = true ->
  help (parseArgs (node :: script :: args)) = true /\
  main getSourceFile defaultOutputPath (node :: script :: args) = ShowHelp.
Proof.
  intros Hno Hex.
  assert (Hh : help (parseArgs (node :: script :: args)) = true).
  { unfold parseArgs. change (drop 2 (node :: script :: args)) with args.
    destruct args as [|first rest]; [discriminate Hex|].
    destruct (String.prefix "-" first) eqn:Ed; cbn [negb].
    - apply parseLoop_help_flag; assumption.
    - cbn [forallb] in Hno. apply andb_prop in Hno.
      destruct Hno as [_ Hno].
      cbn [existsb] in Hex.
      assert (Hf : helpFlag first = false).
      { unfold helpFlag.
        assert (H : forall flag, String.prefix "-" flag = true ->
                                 String.eqb first flag = false).
        { intros flag Hf. apply String.eqb_neq. intros ->. congruence. }
        rewrite !H by reflexivity. reflexivity. }
      rewrite Hf in Hex. cbn [orb] in Hex.
      apply parseLoop_help_flag; assumption. }
  split; [exact Hh|]. unfold main. rewrite Hh. reflexivity.
Qed.

(** [node index.js compile prog.pronto --help]. *)
Lemma help_flag_shows_help_witness :
  main (fun _ => Ok "source") (fun f => "dist/" +:+ f)
       ["node"; "index.js"; "compile"; "prog.pronto"; "--help"]
  = ShowHelp.
Proof.
  refine (proj2 (help_flag_shows_help (fun _ => Ok "source")
                   (fun f => "dist/" +:+ f) "node" "index.js"
                   ["compile"; "prog.pronto"; "--help"] _ _));
    reflexivity.
Defined.
